(** * HTMLtoMD.hpp: the HTML to Markdown converter, embedded and verified

    The development follows [src/HTMLtoMD.hpp]: the string helpers
    ([Trim], [ParseTag], [ParseAttributes]), the tree builder
    ([ParseHTMLToAST]), the renderer ([AstToMarkdown]) and the driver
    ([ConvertHTMLToMarkdown]).

    Modelling conventions.
    - A [std::wstring] is a list of wide characters, a wide character is
      its code as an [N].  [char c = html_input[i]] narrows a wide character
      to its low eight bits; the narrowing is written out in [to_char].
    - Positions and lengths are [nat]; [std::wstring::npos] is [None].
      The loop index of the parser is an [int] in the source: the model
      follows the source for inputs shorter than 2^31 characters, where that
      index does not wrap.
    - A C++ exception, undefined behaviour and (for the loops that the
      model runs on fuel) an exhausted budget are the constructors of
      [outcome].
    - [html_entities] is a [std::unordered_map]: the order in which the
      parser iterates over it is not fixed by the language.  The parser,
      and everything above it, takes that order as a parameter. *)

From Stdlib Require Import Ascii String DecimalString.
From Stdlib Require Import List NArith ZArith Arith Lia Bool Permutation.
Import ListNotations.
Open Scope list_scope.

Set Warnings "-register-all".

(** ** Wide strings *)

Definition wchar := N.
Definition wstring := list wchar.

Definition ch (a : ascii) : wchar := N_of_ascii a.

(** [L "text"] is the wide literal [L"text"]. *)
Definition L (s : string) : wstring := map N_of_ascii (list_ascii_of_string s).
Arguments L s%_string.
Arguments ch a%_char.

Definition dquote : wchar := 34%N.
Definition newline : wchar := 10%N.
Definition tab : wchar := 9%N.
Definition nl : wstring := [newline].

(** [char c = w]: the low eight bits of the wide character. *)
Definition to_char (c : wchar) : N := N.modulo c 256.

Fixpoint wstring_eqb (a b : wstring) : bool :=
  match a, b with
  | [], [] => true
  | x :: a', y :: b' => N.eqb x y && wstring_eqb a' b'
  | _, _ => false
  end.

Fixpoint prefixb (p s : wstring) : bool :=
  match p, s with
  | [], _ => true
  | x :: p', y :: s' => N.eqb x y && prefixb p' s'
  | _ :: _, [] => false
  end.

(** [s.substr(pos, n)] and [s.substr(pos)]; every call in the source has
    [pos <= s.size()], where [substr] does not throw. *)
Definition substr (s : wstring) (pos n : nat) : wstring := firstn n (skipn pos s).
Definition substr_from (s : wstring) (pos : nat) : wstring := skipn pos s.

(** [find_at pat s i]: [s] is the part of the string from position [i] on;
    the first position at or after [i] where [pat] occurs. *)
Fixpoint find_at (pat s : wstring) (i : nat) : option nat :=
  if prefixb pat s then Some i
  else match s with
       | [] => None
       | _ :: s' => find_at pat s' (S i)
       end.

(** [s.find(pat, pos)] *)
Definition find (s pat : wstring) (pos : nat) : option nat :=
  if length s <? pos then None else find_at pat (skipn pos s) pos.

(** [s.find(c, pos)] *)
Definition find_char (s : wstring) (c : wchar) (pos : nat) : option nat :=
  find s [c] pos.

(** [s.replace(pos, n, r)] *)
Definition replace (s : wstring) (pos n : nat) (r : wstring) : wstring :=
  firstn pos s ++ r ++ skipn (pos + n) s.

(** ** Outcomes of a call *)

Inductive exception : Type :=
| out_of_range
| runtime_error
| invalid_argument.

Inductive outcome (A : Type) : Type :=
| Returns (a : A)
| Throws (e : exception)
| Undefined
| OutOfFuel.

Arguments Returns {A} a.
Arguments Throws {A} e.
Arguments Undefined {A}.
Arguments OutOfFuel {A}.

Definition bind {A B : Type} (m : outcome A) (k : A -> outcome B) : outcome B :=
  match m with
  | Returns a => k a
  | Throws e => Throws e
  | Undefined => Undefined
  | OutOfFuel => OutOfFuel
  end.

Notation "x <- m ;; k" := (bind m (fun x => k))
  (at level 61, m at next level, right associativity).

(** ** The tables *)

Definition basic_markdown_tags : list (wstring * (wstring * wstring)) :=
  [ (L "p", (nl ++ nl, []));
    (L "strong", (L "**", L "**"));
    (L "b", (L "**", L "**"));
    (L "em", (L "_", L "_"));
    (L "i", (L "_", L "_"));
    (L "del", (L "~~", L "~~"));
    (L "ins", (L "__", L "__"));
    (L "br", (nl, []));
    (L "hr", (nl ++ nl ++ L "_________________" ++ nl ++ nl, []));
    (L "form", (nl ++ nl ++ L "[form]" ++ nl ++ nl, []));
    (L "blockquote", (nl ++ L "> ", [])) ].

Definition skip_tags : list wstring := [ L "script"; L "style"; L "title" ].

Definition html_entities : list (wstring * wstring) :=
  [ (L "&quot;", [dquote]);
    (L "&apos;", L "'");
    (L "&amp;", L "&");
    (L "&lt;", L "<");
    (L "&nbsp;", L " ");
    (L "&gt;", L ">") ].

Definition self_closing_tags : list wstring :=
  [ L "area"; L "base"; L "br"; L "col"; L "command"; L "embed"; L "hr";
    L "img"; L "input"; L "keygen"; L "link"; L "meta"; L "param";
    L "source"; L "track"; L "wbr" ].

Definition mem (x : wstring) (l : list wstring) : bool := existsb (wstring_eqb x) l.

(** ** The tree *)

Inductive ASTNodeType : Type := ROOT | TEXT | ELEMENT.

(** [std::map<std::wstring, std::wstring>]: the code only assigns
    ([m[k] = v]) and looks keys up, so an association list with unique keys
    carries it. *)
Definition attribute_map := list (wstring * wstring).

Fixpoint map_find (m : attribute_map) (k : wstring) : option wstring :=
  match m with
  | [] => None
  | (k', v) :: m' => if wstring_eqb k k' then Some v else map_find m' k
  end.

Fixpoint map_assign (m : attribute_map) (k v : wstring) : attribute_map :=
  match m with
  | [] => [(k, v)]
  | (k', v') :: m' =>
      if wstring_eqb k k' then (k', v) :: m' else (k', v') :: map_assign m' k v
  end.

(** [m.at(k)] throws [std::out_of_range] on a missing key. *)
Definition map_at (m : attribute_map) (k : wstring) : outcome wstring :=
  match map_find m k with
  | Some v => Returns v
  | None => Throws out_of_range
  end.

Inductive ASTNode : Type :=
| Node (type : ASTNodeType) (name value : wstring)
       (attributes : attribute_map) (children : list ASTNode).

Definition type (n : ASTNode) := let (t, _, _, _, _) := n in t.
Definition name (n : ASTNode) := let (_, x, _, _, _) := n in x.
Definition value (n : ASTNode) := let (_, _, v, _, _) := n in v.
Definition attributes (n : ASTNode) := let (_, _, _, a, _) := n in a.
Definition children (n : ASTNode) := let (_, _, _, _, c) := n in c.

Definition set_children (n : ASTNode) (cs : list ASTNode) : ASTNode :=
  Node (type n) (name n) (value n) (attributes n) cs.

(** ** Trim, ParseTag, ParseAttributes *)

(** The characters of [L" \t\n\r"]. *)
Definition trim_space (c : wchar) : bool :=
  N.eqb c 32 || N.eqb c 9 || N.eqb c 10 || N.eqb c 13.

(** [str.find_first_not_of(L" \t\n\r")], the string being the part from
    position [i] on. *)
Fixpoint find_first_not_of (s : wstring) (i : nat) : option nat :=
  match s with
  | [] => None
  | c :: s' => if trim_space c then find_first_not_of s' (S i) else Some i
  end.

(** [str.find_last_not_of(L" \t\n\r")] *)
Fixpoint find_last_not_of (s : wstring) (i : nat) : option nat :=
  match s with
  | [] => None
  | c :: s' =>
      match find_last_not_of s' (S i) with
      | Some j => Some j
      | None => if trim_space c then None else Some i
      end
  end.

Definition Trim (str : wstring) : wstring :=
  match find_first_not_of str 0 with
  | None => []
  | Some first =>
      match find_last_not_of str 0 with
      | Some last => substr str first (last - first + 1)
      | None => (* not reached: a first such character gives a last one *)
          substr_from str first
      end
  end.

Definition ParseTag (tag : wstring) : wstring * wstring :=
  match find_char tag (ch " ") 0 with
  | None => (tag, [])
  | Some space_index =>
      (substr tag 0 space_index, Trim (substr_from tag (space_index + 1)))
  end.

(** Whitespace of the classic locale, which [operator>>] skips. *)
Definition iswspace (c : wchar) : bool :=
  N.eqb c 32 || (N.leb 9 c && N.leb c 13).

(** The successive results of [attribute_stream >> attribute]; [cur] is the
    word being read. *)
Fixpoint stream_words (cur s : wstring) : list wstring :=
  match s with
  | [] => match cur with [] => [] | _ => [cur] end
  | c :: s' =>
      if iswspace c
      then match cur with [] => stream_words [] s' | _ => cur :: stream_words [] s' end
      else stream_words (cur ++ [c]) s'
  end.

Definition strip_quotes (v : wstring) : wstring :=
  if (2 <=? length v) && N.eqb (nth 0 v 0%N) dquote
     && N.eqb (nth (length v - 1) v 0%N) dquote
  then substr v 1 (length v - 2)
  else v.

Definition ParseAttributes (attributes : wstring) : attribute_map :=
  fold_left
    (fun attribute_map attribute =>
       match find_char attribute (ch "=") 0 with
       | Some equal_index =>
           let key := substr attribute 0 equal_index in
           let value := substr_from attribute (equal_index + 1) in
           map_assign attribute_map key (strip_quotes value)
       | None => attribute_map
       end)
    (stream_words [] attributes) [].

(** ** ParseHTMLToAST *)

(** *** Entity replacement

    One pass of the [while] loop per entity: [text.find(entity.first, pos)],
    [text.replace], [pos += entity.second.length()]. *)
Fixpoint replace_entity (fuel : nat) (entity : wstring * wstring)
         (text : wstring) (pos : nat) : outcome wstring :=
  match find text (fst entity) pos with
  | None => Returns text
  | Some p =>
      match fuel with
      | 0 => OutOfFuel
      | S fuel' =>
          replace_entity fuel' entity
            (replace text p (length (fst entity)) (snd entity))
            (p + length (snd entity))
      end
  end.

(** [for (const auto& entity : html_entities)], in the iteration order
    [order] of the unordered map. *)
Definition decode_entities (order : list (wstring * wstring)) (text : wstring)
  : outcome wstring :=
  fold_left
    (fun acc entity => t <- acc ;; replace_entity (length t) entity t 0)
    order (Returns text).

(** *** The root and the stack of pointers

    [stack] holds pointers into the tree under [root].  The pointer pushed
    is always [&stack.back()->children.back()], the last child of the node
    on top, and children are appended only to the node on top: each node of
    the stack stays the last child of the node below it.  The stack of size
    [n] is therefore the first [n] nodes of the path from [root] through
    last children, and its size determines it. *)
Record parser_state : Type := mk_state { root : ASTNode; stack_size : nat }.

Fixpoint unsnoc {A : Type} (l : list A) : option (list A * A) :=
  match l with
  | [] => None
  | x :: l' =>
      match unsnoc l' with
      | None => Some ([], x)
      | Some (front, y) => Some (x :: front, y)
      end
  end.

(** The node [d] steps down the path of last children. *)
Fixpoint spine_node (d : nat) (t : ASTNode) : option ASTNode :=
  match d with
  | 0 => Some t
  | S d' =>
      match unsnoc (children t) with
      | Some (_, c) => spine_node d' c
      | None => None
      end
  end.

(** [t] with [node] appended to the children of that node. *)
Fixpoint spine_push_back (d : nat) (node : ASTNode) (t : ASTNode) : option ASTNode :=
  match d with
  | 0 => Some (set_children t (children t ++ [node]))
  | S d' =>
      match unsnoc (children t) with
      | Some (front, c) =>
          match spine_push_back d' node c with
          | Some c' => Some (set_children t (front ++ [c']))
          | None => None
          end
      | None => None
      end
  end.

(** [stack.back()->name]; [back()] of an empty vector is undefined. *)
Definition back_name (st : parser_state) : outcome wstring :=
  match stack_size st with
  | 0 => Undefined
  | S d =>
      match spine_node d (root st) with
      | Some n => Returns (name n)
      | None => Undefined
      end
  end.

(** [stack.back()->children.push_back(node)] *)
Definition back_push_child (st : parser_state) (node : ASTNode) : outcome parser_state :=
  match stack_size st with
  | 0 => Undefined
  | S d =>
      match spine_push_back d node (root st) with
      | Some r => Returns (mk_state r (stack_size st))
      | None => Undefined
      end
  end.

(** [stack.push_back(&stack.back()->children.back())] *)
Definition stack_push (st : parser_state) : parser_state :=
  mk_state (root st) (S (stack_size st)).

(** [stack.pop_back()] *)
Definition stack_pop (st : parser_state) : parser_state :=
  mk_state (root st) (pred (stack_size st)).

(** *** One turn of the loop *)

(** The branch [c == '<'] once the closing ['>'] is found, at
    [end_tag_index], and [tag] is cut out; the result is the next
    [current_index] and the state. *)
Definition parse_tag (html_input : wstring) (current_index end_tag_index : nat)
           (tag : wstring) (st : parser_state) : outcome (nat * parser_state) :=
  if wstring_eqb (substr tag 0 3) (L "!--") then
    match find html_input (L "-->") current_index with
    | None => Throws out_of_range
    | Some end_comment_index => Returns (end_comment_index + 3, st)
    end
  else if mem tag skip_tags then
    match find html_input (L "</" ++ tag ++ L ">") current_index with
    | None => Throws out_of_range
    | Some end_tag_index => Returns (end_tag_index + length tag + 3, st)
    end
  else
    (* [tag[0]] of an empty string is the terminating null *)
    let is_closing_tag := N.eqb (nth 0 tag 0%N) (ch "/") in
    let tag := if is_closing_tag then substr_from tag 1 else tag in
    let '(tag_name, attributes) := ParseTag tag in
    let node :=
      Node ELEMENT tag_name []
           (match attributes with
            | [] => []
            | _ :: _ => if is_closing_tag then [] else ParseAttributes attributes
            end)
           [] in
    if negb is_closing_tag then
      st1 <- back_push_child st node ;;
      Returns (end_tag_index + 1,
               if mem tag_name self_closing_tags then st1 else stack_push st1)
    else
      top_name <- back_name st ;;
      if negb (wstring_eqb top_name tag_name) then Throws runtime_error
      else Returns (end_tag_index + 1, stack_pop st).

(** The branch [c == '<'], at [current_index]. *)
Definition parse_markup (html_input : wstring) (current_index : nat)
           (st : parser_state) : outcome (nat * parser_state) :=
  match find_char html_input (ch ">") current_index with
  | None => Throws out_of_range
  | Some end_tag_index =>
      parse_tag html_input current_index end_tag_index
                (substr html_input (current_index + 1)
                        (end_tag_index - current_index - 1))
                st
  end.

(** The other branch: a run of text up to the next ['<']. *)
Definition parse_text (order : list (wstring * wstring)) (html_input : wstring)
           (current_index : nat) (st : parser_state) : outcome (nat * parser_state) :=
  let end_text_index :=
    match find_char html_input (ch "<") current_index with
    | None => length html_input
    | Some i => i
    end in
  let text := substr html_input current_index (end_text_index - current_index) in
  text <- decode_entities order text ;;
  st1 <- back_push_child st (Node TEXT [] text [] []) ;;
  Returns (end_text_index, st1).

Definition parse_step (order : list (wstring * wstring)) (html_input : wstring)
           (current_index : nat) (st : parser_state) : outcome (nat * parser_state) :=
  let c := to_char (nth current_index html_input 0%N) in
  if N.eqb c (ch "<") then parse_markup html_input current_index st
  else parse_text order html_input current_index st.

(** [for (int current_index = 0; current_index < html_input.length();)].
    Every value given to [current_index] is a position of the input or its
    length: on an input of [INT_MAX] characters at most the [int] holds
    each of them, and the natural number of the model is its value. *)
Fixpoint parse_loop (fuel : nat) (order : list (wstring * wstring))
         (html_input : wstring) (current_index : nat) (st : parser_state)
  : outcome parser_state :=
  if length html_input <=? current_index then Returns st
  else
    match fuel with
    | 0 => OutOfFuel
    | S fuel' =>
        r <- parse_step order html_input current_index st ;;
        parse_loop fuel' order html_input (fst r) (snd r)
    end.

(** The state on entry of the loop: the empty root, and the stack that
    holds its address. *)
Definition initial_state : parser_state := mk_state (Node ROOT [] [] [] []) 1.

(** The state in which the loop is left. *)
Definition parse_run (order : list (wstring * wstring)) (html_input : wstring)
  : outcome parser_state :=
  parse_loop (length html_input) order html_input 0 initial_state.

(** [return root;] follows the loop at once. *)
Definition ParseHTMLToAST (order : list (wstring * wstring)) (html_input : wstring)
  : outcome ASTNode :=
  st <- parse_run order html_input ;; Returns (root st).

(** ** AstToMarkdown *)

Fixpoint basic_find (tags : list (wstring * (wstring * wstring))) (k : wstring)
  : option (wstring * wstring) :=
  match tags with
  | [] => None
  | (k', v) :: tags' => if wstring_eqb k k' then Some v else basic_find tags' k
  end.

(** [std::to_wstring(int)] *)
Definition to_wstring (z : Z) : wstring := L (NilZero.string_of_int (Z.to_int z)).

Definition int_max : Z := 2147483647.
Definition int_min : Z := -2147483648.

Definition is_digit (c : wchar) : bool := N.leb 48 c && N.leb c 57.

Fixpoint skip_space (s : wstring) : wstring :=
  match s with
  | c :: s' => if iswspace c then skip_space s' else s
  | [] => []
  end.

(** The decimal digits at the head of [s], read onto [acc]. *)
Fixpoint read_digits (acc : Z) (s : wstring) : Z :=
  match s with
  | c :: s' => if is_digit c then read_digits (10 * acc + Z.of_N (c - 48)) s' else acc
  | [] => acc
  end.

(** [std::stoi(str)], which is [std::wcstol] in base 10: blanks, a sign,
    digits; [std::invalid_argument] when no digit is there,
    [std::out_of_range] outside [int]. *)
Definition stoi (str : wstring) : outcome Z :=
  let s := skip_space str in
  let '(negative, s) :=
    match s with
    | c :: s' => if N.eqb c (ch "-") then (true, s')
                 else if N.eqb c (ch "+") then (false, s') else (false, s)
    | [] => (false, s)
    end in
  match s with
  | c :: _ =>
      if is_digit c then
        let v := read_digits 0 s in
        let v := if negative then Z.opp v else v in
        if Z.leb int_min v && Z.leb v int_max then Returns v else Throws out_of_range
      else Throws invalid_argument
  | [] => Throws invalid_argument
  end.

Definition is_hidden (child : ASTNode) : bool :=
  match map_find (attributes child) (L "class") with
  | Some v => wstring_eqb v (L "hidden")
  | None => false
  end.

(** The locals of one call that the loop over the children updates. *)
Record render_state : Type :=
  mk_render { markdown : wstring; counters : list Z; list_level : nat }.

Record table_rows : Type :=
  mk_table { header_row : wstring; separator_row : wstring; body_rows : wstring;
             footer_rows : wstring; caption_text : wstring }.

Definition is_cell (cell : ASTNode) : bool :=
  wstring_eqb (name cell) (L "td") || wstring_eqb (name cell) (L "th").

Section Render.

(** [AstToMarkdown(x)]: every recursive call of the source leaves
    [list_level] to its default. *)
Variable rec : ASTNode -> outcome wstring.

(** The cells of a row directly under [table], or under [tfoot]. *)
Fixpoint render_cells (cells : list ASTNode) (row_text : wstring) : outcome wstring :=
  match cells with
  | [] => Returns row_text
  | cell :: rest =>
      if is_cell cell then
        r <- rec cell ;;
        render_cells rest (row_text ++ L "|" ++ r)
      else render_cells rest row_text
  end.

(** The cells of a row under [thead] or [tbody]. *)
Fixpoint render_section_cells (in_thead : bool) (cells : list ASTNode)
         (row_text separator_row : wstring) : outcome (wstring * wstring) :=
  match cells with
  | [] => Returns (row_text, separator_row)
  | cell :: rest =>
      if is_cell cell then
        r <- rec cell ;;
        render_section_cells in_thead rest (row_text ++ L "|" ++ r)
          (if in_thead then separator_row ++ L "|---" else separator_row)
      else render_section_cells in_thead rest row_text separator_row
  end.

Fixpoint render_section_rows (in_thead : bool) (rows : list ASTNode)
         (t : table_rows) : outcome table_rows :=
  match rows with
  | [] => Returns t
  | row :: rest =>
      if wstring_eqb (name row) (L "tr") then
        r <- render_section_cells in_thead (children row) [] (separator_row t) ;;
        let row_text := fst r ++ L "|" ++ nl in
        render_section_rows in_thead rest
          (if in_thead
           then mk_table (header_row t ++ row_text) (snd r ++ L "|" ++ nl)
                         (body_rows t) (footer_rows t) (caption_text t)
           else mk_table (header_row t) (snd r) (body_rows t ++ row_text)
                         (footer_rows t) (caption_text t))
      else render_section_rows in_thead rest t
  end.

Fixpoint render_footer_rows (rows : list ASTNode) (t : table_rows)
  : outcome table_rows :=
  match rows with
  | [] => Returns t
  | row :: rest =>
      if wstring_eqb (name row) (L "tr") then
        r <- render_cells (children row) [] ;;
        render_footer_rows rest
          (mk_table (header_row t) (separator_row t) (body_rows t)
                    (footer_rows t ++ r ++ L "|" ++ nl) (caption_text t))
      else render_footer_rows rest t
  end.

(** [for (const ASTNode& table_child : child.children)] *)
Fixpoint render_table (table_children : list ASTNode) (t : table_rows)
  : outcome table_rows :=
  match table_children with
  | [] => Returns t
  | table_child :: rest =>
      let n := name table_child in
      if wstring_eqb n (L "tr") then
        r <- render_cells (children table_child) [] ;;
        render_table rest
          (mk_table (header_row t) (separator_row t)
                    (body_rows t ++ r ++ L "|" ++ nl) (footer_rows t) (caption_text t))
      else if wstring_eqb n (L "thead") || wstring_eqb n (L "tbody") then
        t1 <- render_section_rows (wstring_eqb n (L "thead")) (children table_child) t ;;
        render_table rest t1
      else if wstring_eqb n (L "tfoot") then
        t1 <- render_footer_rows (children table_child) t ;;
        render_table rest t1
      else if wstring_eqb n (L "caption") then
        r <- rec table_child ;;
        render_table rest
          (mk_table (header_row t) (separator_row t) (body_rows t) (footer_rows t)
                    (nl ++ L "**" ++ r ++ L "**" ++ nl))
      else render_table rest t
  end.

Definition append (st : render_state) (s : wstring) : render_state :=
  mk_render (markdown st ++ s) (counters st) (list_level st).

(** [case ELEMENT], for the child [child] of the node named [node_name];
    [list_prefix] was computed on entry of the call. *)
Definition render_element (node_name list_prefix : wstring)
           (st : render_state) (child : ASTNode) : outcome render_state :=
  let child_name := name child in
  if is_hidden child then Returns st
  else
    match basic_find basic_markdown_tags child_name with
    | Some (prefix, suffix) =>
        r <- rec child ;;
        let st1 := append st (prefix ++ r ++ suffix) in
        Returns (if wstring_eqb child_name (L "p") || wstring_eqb child_name (L "hr")
                    || wstring_eqb (substr child_name 0 1) (L "h")
                 then append st1 nl else st1)
    | None =>
        if wstring_eqb child_name (L "a") then
          href <- map_at (attributes child) (L "href") ;;
          inner_text <- rec child ;;
          Returns (append st
                     match inner_text with
                     | [] => href
                     | _ :: _ => L "[" ++ inner_text ++ L "](" ++ href ++ L ")"
                     end)
        else if wstring_eqb child_name (L "li") then
          if wstring_eqb node_name (L "ol") then
            (* [counters.back()++] *)
            match unsnoc (counters st) with
            | None => Undefined
            | Some (front, c) =>
                if Z.eqb c int_max then Undefined
                else
                  r <- rec child ;;
                  Returns (mk_render
                             (markdown st ++ nl ++ list_prefix ++ to_wstring c
                                       ++ L ". " ++ r)
                             (front ++ [(c + 1)%Z]) (list_level st))
            end
          else
            r <- rec child ;;
            Returns (append st (nl ++ list_prefix ++ L "- " ++ r))
        else if wstring_eqb child_name (L "ol") || wstring_eqb child_name (L "ul") then
          let counters1 := counters st ++ [1%Z] in
          (* [list_level++] on the [int] parameter *)
          if Z.eqb (Z.of_nat (list_level st)) int_max then Undefined
          else
            let list_level1 := S (list_level st) in
            r <- rec child ;;
            Returns (mk_render (markdown st ++ nl ++ r)
                               (removelast counters1) (pred list_level1))
        else if wstring_eqb child_name (L "img") then
          src <- map_at (attributes child) (L "src") ;;
          alt <- map_at (attributes child) (L "alt") ;;
          Returns (append st (L "![" ++ alt ++ L "](" ++ src ++ L ")" ++ nl))
        else if wstring_eqb child_name (L "code") then
          if negb (match node_name with [] => true | _ :: _ => false end)
             && negb (wstring_eqb node_name (L "pre"))
          then
            r <- rec child ;;
            Returns (append st (L "```" ++ r ++ L "```" ++ nl))
          else
            r <- rec child ;;
            Returns (append st r)
        else if wstring_eqb (substr child_name 0 1) (L "h")
                && (length child_name =? 2) then
          header_level <- stoi (substr child_name 1 1) ;;
          (* one digit: [header_level] is 0..9 *)
          let header_str := repeat (ch "#") (Z.to_nat header_level) in
          r <- rec child ;;
          Returns (append st (nl ++ header_str ++ L " " ++ r ++ nl))
        else if wstring_eqb child_name (L "input") then
          type <- map_at (attributes child) (L "type") ;;
          Returns (append st (nl ++ nl ++ L "[input: " ++ type ++ L "]" ++ nl ++ nl))
        else if wstring_eqb child_name (L "label") then
          value <- map_at (attributes child) (L "value") ;;
          Returns (append st (nl ++ nl ++ L "[label: " ++ value ++ L "]" ++ nl ++ nl))
        else if wstring_eqb child_name (L "table") then
          t <- render_table (children child) (mk_table [] [] [] [] []) ;;
          Returns (append st (caption_text t ++ header_row t ++ separator_row t
                                           ++ body_rows t ++ footer_rows t))
        else
          r <- rec child ;;
          Returns (append st r)
    end.

(** [switch (child.type)] *)
Definition render_child (node_name list_prefix : wstring)
           (st : render_state) (child : ASTNode) : outcome render_state :=
  match type child with
  | ROOT => r <- rec child ;; Returns (append st r)
  | TEXT => Returns (append st (value child))
  | ELEMENT => render_element node_name list_prefix st child
  end.

(** [for (auto& child : node.children)] *)
Fixpoint render_children (node_name list_prefix : wstring)
         (cs : list ASTNode) (st : render_state) : outcome wstring :=
  match cs with
  | [] => Returns (markdown st)
  | child :: rest =>
      st1 <- render_child node_name list_prefix st child ;;
      render_children node_name list_prefix rest st1
  end.

End Render.

(** [AstToMarkdown(node, list_level = 0)].  The locals [markdown],
    [list_prefix] and [counters] are set on entry; [static int counter] is
    never read and is left out. *)
Fixpoint AstToMarkdown (node : ASTNode) (list_level : nat) {struct node}
  : outcome wstring :=
  let list_prefix := repeat tab list_level in
  render_children (fun child => AstToMarkdown child 0) (name node) list_prefix
                  (children node) (mk_render [] [1%Z] list_level).

(** ** ConvertHTMLToMarkdown *)

(** The elements of [tags], a [std::set]: the first element found in the
    input ends the loop, and with the same result whichever it is, so the
    order in which the set is gone through does not matter. *)
Definition tags : list wstring :=
  [ L "<html"; L "<head"; L "<body"; L "<div"; L "<p"; L "<a"; L "<img";
    L "<span"; L "<table"; L "<tr"; L "<td"; L "<ul"; L "<li"; L "<h1";
    L "<h2"; L "<h3"; L "<h4"; L "<h5"; L "<h6"; L "</html"; L "</head";
    L "</body"; L "</div"; L "</p"; L "</a"; L "</img"; L "</span";
    L "</table"; L "</tr"; L "</td"; L "</ul"; L "</li"; L "</h1"; L "</h2";
    L "</h3"; L "</h4"; L "</h5"; L "</h6" ].

(** [try { ... } catch (const std::exception& e) { return html_input; }]:
    the three exceptions of the model derive from [std::exception]. *)
Definition try_convert (order : list (wstring * wstring)) (html_input : wstring)
  : outcome wstring :=
  match (ast <- ParseHTMLToAST order html_input ;; AstToMarkdown ast 0) with
  | Throws _ => Returns html_input
  | r => r
  end.

(** [for (const auto& tag : tags)] *)
Fixpoint convert_loop (order : list (wstring * wstring)) (ts : list wstring)
         (html_input : wstring) : outcome wstring :=
  match ts with
  | [] => Returns html_input
  | tag :: rest =>
      match find html_input tag 0 with
      | Some _ => try_convert order html_input
      | None => convert_loop order rest html_input
      end
  end.

Definition ConvertHTMLToMarkdown (order : list (wstring * wstring))
           (html_input : wstring) : outcome wstring :=
  convert_loop order tags html_input.


(** ** Properties stated about the trees *)

(** An element whose name is in [self_closing_tags]. *)
Definition is_void (t : ASTNode) : bool :=
  match type t with
  | ELEMENT => mem (name t) self_closing_tags
  | _ => false
  end.

(** No void element of the tree has a child. *)
Fixpoint void_childless (t : ASTNode) : bool :=
  match t with
  | Node ty n _ _ cs =>
      (negb (match ty with ELEMENT => mem n self_closing_tags | _ => false end)
       || match cs with [] => true | _ :: _ => false end)
      && forallb void_childless cs
  end.

(** [subnode n t]: [n] is [t] or a node below it. *)
Inductive subnode : ASTNode -> ASTNode -> Prop :=
| subnode_here : forall t, subnode t t
| subnode_below : forall n c t, In c (children t) -> subnode n c -> subnode n t.

(** The nodes of the stack, the root apart, are elements that are not void:
    [spine_open d t] says so of the [d] nodes below [t] on the path of last
    children, and that the path is that long. *)
Fixpoint spine_open (d : nat) (t : ASTNode) : Prop :=
  is_void t = false /\
  match d with
  | 0 => True
  | S d' =>
      match unsnoc (children t) with
      | Some (_, c) => spine_open d' c
      | None => False
      end
  end.

Definition state_ok (st : parser_state) : Prop :=
  void_childless (root st) = true /\
  match stack_size st with
  | 0 => True
  | S d => spine_open d (root st)
  end.

(** ** Properties stated about the entity table and the loops *)

(** An order in which the entries of [html_entities] may be iterated. *)
Definition iteration_order (order : list (wstring * wstring)) : Prop :=
  Permutation html_entities order.

Definition keys_nonempty (order : list (wstring * wstring)) : Prop :=
  Forall (fun entity => fst entity <> []) order.

(** Every spelling begins with the ampersand. *)
Definition keys_ampersand (order : list (wstring * wstring)) : Prop :=
  Forall (fun entity => exists k, fst entity = ch "&" :: k) order.

(** [rec] does not run out of fuel on the nodes of the list and below. *)
Definition fuel_below (rec : ASTNode -> outcome wstring) (l : list ASTNode) : Prop :=
  forall c n, In c l -> subnode n c -> rec n <> OutOfFuel.

(** Membership in a string, decided by evaluation. *)
Fixpoint memb (c : wchar) (s : wstring) : bool :=
  match s with
  | [] => false
  | x :: s' => N.eqb c x || memb c s'
  end.

(** ** Properties stated about the renderer *)

(** The attributes that the renderer reads with [at] for an element of
    that name. *)
Definition required_attributes (element_name : wstring) : list wstring :=
  if wstring_eqb element_name (L "a") then [L "href"]
  else if wstring_eqb element_name (L "img") then [L "src"; L "alt"]
  else if wstring_eqb element_name (L "input") then [L "type"]
  else if wstring_eqb element_name (L "label") then [L "value"]
  else [].

Definition lacks_required_attribute (child : ASTNode) : bool :=
  existsb (fun k => match map_find (attributes child) k with
                    | None => true
                    | Some _ => false
                    end)
          (required_attributes (name child)).

(** The fence around the text of a [code] element, for a parent of that
    name. *)
Definition code_fence (parent_name r : wstring) : wstring :=
  match parent_name with
  | [] => r
  | _ :: _ => if wstring_eqb parent_name (L "pre") then r
              else L "```" ++ r ++ L "```" ++ nl
  end.

(** ** Properties stated about tags *)

(** The text between ['<'] and ['>'] is a bare name: it is not empty, it
    opens neither a closing tag nor a comment, and it holds no space (so
    there are no attributes) and no ['>']. *)
Definition bare_name (n : wstring) : Prop :=
  n <> [] /\ nth 0 n 0%N <> ch "/"
  /\ wstring_eqb (substr n 0 3) (L "!--") = false
  /\ ~ In (ch " ") n /\ ~ In (ch ">") n.

(** No character of the text is read as the opening of a tag, and none is
    an ampersand. *)
Definition plain_text (text : wstring) : Prop :=
  (forall c, In c text -> to_char c <> ch "<") /\ ~ In (ch "&") text.

(** The literal closing tag that the parser looks for after a raw-text
    tag. *)
Definition closing_tag (tag : wstring) : wstring := L "</" ++ tag ++ L ">".

(** ** Entity decoding as the specification words it *)

Definition amp_entity : wstring * wstring := (L "&amp;", L "&").
Definition lt_entity : wstring * wstring := (L "&lt;", L "<").

(** The entity of the table whose spelling begins the text. *)
Fixpoint match_entity (table : list (wstring * wstring)) (s : wstring)
  : option (wstring * wstring) :=
  match table with
  | [] => None
  | entity :: table' =>
      if prefixb (fst entity) s then Some entity else match_entity table' s
  end.

(** One scan from left to right with replacements that do not overlap: at
    a spelling its character is written and the spelling is stepped over
    ([skip] counts what is left of it), any other character is copied.
    What is written is never read again. *)
Fixpoint single_pass (table : list (wstring * wstring)) (skip : nat) (s : wstring)
  : wstring :=
  match s with
  | [] => []
  | c :: s' =>
      match skip with
      | S k => single_pass table k s'
      | 0 =>
          match match_entity table s with
          | Some entity =>
              snd entity ++ single_pass table (length (fst entity) - 1) s'
          | None => c :: single_pass table 0 s'
          end
      end
  end.

(** The decoding that the specification asks for. *)
Definition decode_single_pass (text : wstring) : wstring :=
  single_pass html_entities 0 text.

(** What the loops of [decode_entities] compute: one scan per entity, each
    over the result of the one before. *)
Definition scan_each (order : list (wstring * wstring)) (text : wstring) : wstring :=
  fold_left (fun t entity => single_pass [entity] 0 t) order text.

(** [a] is taken before [b] in the iteration. *)
Definition scanned_before (a b : wstring * wstring)
           (order : list (wstring * wstring)) : Prop :=
  exists l1 l2 l3, order = l1 ++ a :: l2 ++ b :: l3.

(** [a] is the last entity of the iteration. *)
Definition scanned_last (a : wstring * wstring)
           (order : list (wstring * wstring)) : Prop :=
  exists l, order = l ++ [a].

(** No spelling begins another one. *)
Definition prefix_free (table : list (wstring * wstring)) : Prop :=
  forall e1 e2, In e1 table -> In e2 table ->
                prefixb (fst e1) (fst e2) = true -> e1 = e2.

(** The text that shows a second decoding: [&amp;] followed by the
    spelling of [entity] without its ampersand, as [&amp;lt;] for [&lt;]. *)
Definition rematch_text (entity : wstring * wstring) : wstring :=
  L "&amp;" ++ tl (fst entity).

(** ** Properties stated about attribute strings *)

(** No character of the word is whitespace for [operator>>]. *)
Definition no_space (w : wstring) : Prop :=
  forallb (fun c => negb (iswspace c)) w = true.

(** ** Properties stated about parsed trees *)

(** A node below the root: a text without name, attributes or children, or
    an element without text, over such nodes. *)
Fixpoint child_shape (t : ASTNode) : bool :=
  match t with
  | Node ty n v a cs =>
      match ty with
      | ROOT => false
      | TEXT =>
          match n, a, cs with
          | [], [], [] => true
          | _, _, _ => false
          end
      | ELEMENT =>
          match v with
          | [] => forallb child_shape cs
          | _ :: _ => false
          end
      end
  end.

(** The root: of type [ROOT], with no name, text or attributes of its
    own. *)
Definition root_shape (t : ASTNode) : Prop :=
  type t = ROOT /\ name t = [] /\ value t = [] /\ attributes t = []
  /\ forallb child_shape (children t) = true.

(** The [d] nodes below [t] on the path of last children are elements. *)
Fixpoint spine_elements (d : nat) (t : ASTNode) : Prop :=
  match d with
  | 0 => True
  | S d' =>
      match unsnoc (children t) with
      | Some (_, c) => type c = ELEMENT /\ spine_elements d' c
      | None => False
      end
  end.

(** ** Writing a tree out as HTML *)

(** The HTML text of a node without attributes: a text as it is, a void
    element as its tag, any other element as its tag, its children and its
    closing tag. *)
Fixpoint to_html (t : ASTNode) : wstring :=
  match t with
  | Node ty n v _ cs =>
      match ty with
      | TEXT => v
      | ROOT => concat (map to_html cs)
      | ELEMENT =>
          if mem n self_closing_tags then L "<" ++ n ++ L ">"
          else L "<" ++ n ++ L ">" ++ concat (map to_html cs) ++ L "</" ++ n ++ L ">"
      end
  end.

Definition forest_html (cs : list ASTNode) : wstring := concat (map to_html cs).

(** No two texts are neighbours: written out, they would read as one. *)
Fixpoint separated (cs : list ASTNode) : Prop :=
  match cs with
  | a :: (b :: _) as rest => (type a = TEXT -> type b <> TEXT) /\ separated rest
  | _ => True
  end.

(** The trees that [to_html] writes so that the parser reads them back:
    texts that are not empty and hold neither ['<'] nor ['&'], elements with
    a bare name that is no raw-text tag and without attributes, void
    elements without children, and no two texts side by side. *)
Inductive printable : ASTNode -> Prop :=
| printable_text : forall v,
    v <> [] -> plain_text v -> printable (Node TEXT [] v [] [])
| printable_void : forall n,
    bare_name n -> mem n skip_tags = false -> mem n self_closing_tags = true ->
    printable (Node ELEMENT n [] [] [])
| printable_element : forall n cs,
    bare_name n -> mem n skip_tags = false -> mem n self_closing_tags = false ->
    Forall printable cs -> separated cs ->
    printable (Node ELEMENT n [] [] cs).

(** [steps order html i st j st']: turns of the parser loop lead from
    [current_index = i] in state [st] to [j] in state [st']. *)
Inductive steps (order : list (wstring * wstring)) (html : wstring)
  : nat -> parser_state -> nat -> parser_state -> Prop :=
| steps_done : forall i st, steps order html i st i st
| steps_turn : forall i st i1 st1 j st',
    i < length html ->
    parse_step order html i st = Returns (i1, st1) ->
    steps order html i1 st1 j st' ->
    steps order html i st j st'.

(** The nodes of [cs] appended in turn to the node [d] steps down the path
    of last children. *)
Definition push_children (d : nat) (cs : list ASTNode) (t : ASTNode) : option ASTNode :=
  fold_left (fun acc c => match acc with
                          | Some t' => spine_push_back d c t'
                          | None => None
                          end)
            cs (Some t).

(** What follows a text in the input ends the text: nothing, or a tag. *)
Definition ends_text (post : wstring) : Prop :=
  post = [] \/ exists r, post = ch "<" :: r.

(** Reading the HTML of [c], with the stack [d] deep: [c] is appended to
    the node on top and the stack is as it was. *)
Definition reads_back (order : list (wstring * wstring)) (c : ASTNode) : Prop :=
  forall pre post t t' d,
    (type c = TEXT -> ends_text post) ->
    spine_push_back d c t = Some t' ->
    steps order (pre ++ to_html c ++ post) (length pre) (mk_state t (S d))
          (length (pre ++ to_html c)) (mk_state t' (S d)).

(** ** Properties stated about the rendering *)




(** [cells] are [td] or [th] nodes, and [rs] are their texts. *)
Definition table_cells (rec : ASTNode -> outcome wstring)
           (cells : list ASTNode) (rs : list wstring) : Prop :=
  Forall2 (fun cell r => is_cell cell = true /\ rec cell = Returns r) cells rs.

(** One line of a table: a bar before each cell and one at the end. *)
Definition row_line (rs : list wstring) : wstring :=
  concat (map (fun r => L "|" ++ r) rs) ++ L "|" ++ nl.

(** The line under the head of a table of [k] columns. *)
Definition separator_line (k : nat) : wstring :=
  concat (repeat (L "|---") k) ++ L "|" ++ nl.

(** A [section_name] element with the one row [cells]. *)
Definition one_row_section (section_name : wstring) (section : ASTNode)
           (cells : list ASTNode) : Prop :=
  name section = section_name
  /\ exists row, children section = [row] /\ name row = L "tr" /\ children row = cells.

(** ** Properties stated about runs without undefined behaviour *)


(** No node of the tree has more than [k] children. *)
Definition children_at_most (k : nat) (t : ASTNode) : Prop :=
  forall n, subnode n t -> length (children n) <= k.

(** [rec] has defined behaviour on the nodes of the list and below. *)
Definition defined_below (rec : ASTNode -> outcome wstring) (l : list ASTNode)
  : Prop :=
  forall c n, In c l -> subnode n c -> rec n <> Undefined.



(** ** The call stack *)

(** The levels of a tree: one for a node without children. *)
Fixpoint height (t : ASTNode) : nat :=
  match t with
  | Node _ _ _ _ cs => S (list_max (map height cs))
  end.

(** [AstToMarkdown] on a call stack with room for [frames] calls of it
    nested in one another.  The source calls itself once for each level of
    the tree that it renders, and each call takes a frame; a call for which
    the stack has no room left is outside the defined behaviour. *)
Fixpoint AstToMarkdown_frames (frames : nat) (node : ASTNode) (list_level : nat)
         {struct frames} : outcome wstring :=
  match frames with
  | 0 => Undefined
  | S frames' =>
      render_children (fun child => AstToMarkdown_frames frames' child 0)
                      (name node) (repeat tab list_level) (children node)
                      (mk_render [] [1%Z] list_level)
  end.




(** * Proofs *)

(** ** Wide strings *)

Lemma wstring_eqb_eq (a b : wstring) : wstring_eqb a b = true <-> a = b.
Proof.
  revert b; induction a as [|x a IH]; intros [|y b]; simpl; split;
    try congruence; try reflexivity.
  - rewrite andb_true_iff, N.eqb_eq, IH. intros [-> ->]; reflexivity.
  - intros E; injection E as -> ->. rewrite N.eqb_refl. simpl. apply IH; reflexivity.
Qed.

Lemma wstring_eqb_refl (a : wstring) : wstring_eqb a a = true.
Proof. apply wstring_eqb_eq; reflexivity. Qed.

Lemma wstring_eqb_neq (a b : wstring) : wstring_eqb a b = false <-> a <> b.
Proof.
  split.
  - intros E H. apply wstring_eqb_eq in H. congruence.
  - intros H. destruct (wstring_eqb a b) eqn:E; [|reflexivity].
    apply wstring_eqb_eq in E. contradiction.
Qed.

Lemma prefixb_app (p t : wstring) : prefixb p (p ++ t) = true.
Proof. induction p as [|x p IH]; simpl; [reflexivity|]. now rewrite N.eqb_refl. Qed.

Lemma prefixb_true (p s : wstring) :
  prefixb p s = true -> s = p ++ skipn (length p) s.
Proof.
  revert s; induction p as [|x p IH]; intros s; simpl; [reflexivity|].
  destruct s as [|y s]; [discriminate|].
  rewrite andb_true_iff, N.eqb_eq. intros [-> H]. f_equal. apply IH, H.
Qed.

Lemma prefixb_length (p s : wstring) : prefixb p s = true -> length p <= length s.
Proof.
  intros H. rewrite (prefixb_true _ _ H) at 1. rewrite length_app. lia.
Qed.

(** What [find_at] returns is an occurrence, and the first one. *)
Lemma find_at_Some (pat s : wstring) (i p : nat) :
  find_at pat s i = Some p ->
  i <= p /\ p - i + length pat <= length s /\ prefixb pat (skipn (p - i) s) = true.
Proof.
  revert i; induction s as [|c s IH]; intros i; simpl.
  - destruct (prefixb pat []) eqn:E; [|discriminate].
    intros [= <-]. rewrite Nat.sub_diag. simpl.
    apply prefixb_length in E as E'. simpl in E'. split; [lia|split; [lia|exact E]].
  - destruct (prefixb pat (c :: s)) eqn:E.
    + intros [= <-]. rewrite Nat.sub_diag. simpl.
      apply prefixb_length in E as E'. simpl in E'. split; [lia|split; [lia|exact E]].
    + intros H. apply IH in H as (H1 & H2 & H3).
      replace (p - i) with (S (p - S i)) by lia. simpl. split; [lia|split; [lia|exact H3]].
Qed.

Lemma find_Some (s pat : wstring) (pos p : nat) :
  find s pat pos = Some p ->
  pos <= p /\ p + length pat <= length s /\ prefixb pat (skipn p s) = true.
Proof.
  unfold find. destruct (length s <? pos) eqn:E; [discriminate|].
  apply Nat.ltb_ge in E. intros H. apply find_at_Some in H as (H1 & H2 & H3).
  rewrite length_skipn in H2. rewrite skipn_skipn in H3.
  replace (p - pos + pos) with p in H3 by lia. split; [lia|split; [lia|exact H3]].
Qed.

Lemma nth_skipn_0 (s : wstring) (p : nat) : nth 0 (skipn p s) 0%N = nth p s 0%N.
Proof.
  revert s; induction p as [|p IH]; intros [|c s]; simpl; try reflexivity.
  - apply IH.
Qed.

Lemma find_char_Some (s : wstring) (c : wchar) (pos p : nat) :
  find_char s c pos = Some p -> pos <= p /\ p < length s /\ nth p s 0%N = c.
Proof.
  unfold find_char. intros H. apply find_Some in H as (H1 & H2 & H3).
  simpl in H2. split; [lia|split; [lia|]].
  rewrite <- nth_skipn_0. destruct (skipn p s) as [|y t]; simpl in *; [discriminate|].
  rewrite andb_true_iff, N.eqb_eq in H3. symmetry. apply H3.
Qed.

(** ** The stack and the tree *)

Lemma unsnoc_snoc (A : Type) (l : list A) (x : A) : unsnoc (l ++ [x]) = Some (l, x).
Proof.
  induction l as [|y l IH]; simpl; [reflexivity|]. now rewrite IH.
Qed.

Lemma unsnoc_Some (A : Type) (l front : list A) (c : A) :
  unsnoc l = Some (front, c) -> l = front ++ [c].
Proof.
  revert front; induction l as [|y l IH]; intros front; simpl; [discriminate|].
  destruct (unsnoc l) as [[f z]|] eqn:E.
  - intros [= <- <-]. simpl. f_equal. now apply IH.
  - intros [= <- <-]. destruct l as [|z l]; [reflexivity|].
    simpl in E. destruct (unsnoc l) as [[? ?]|]; discriminate.
Qed.

Lemma void_childless_eq (t : ASTNode) :
  void_childless t =
  (negb (is_void t) || match children t with [] => true | _ :: _ => false end)
  && forallb void_childless (children t).
Proof. destruct t; reflexivity. Qed.

Lemma is_void_set_children (t : ASTNode) (cs : list ASTNode) :
  is_void (set_children t cs) = is_void t.
Proof. destruct t; reflexivity. Qed.

Lemma spine_open_not_void (d : nat) (t : ASTNode) : spine_open d t -> is_void t = false.
Proof. destruct d; simpl; tauto. Qed.

Lemma spine_open_pred (d : nat) (t : ASTNode) : spine_open (S d) t -> spine_open d t.
Proof.
  revert t; induction d as [|d IH]; intros t H.
  - simpl. split; [|exact I]. exact (spine_open_not_void _ _ H).
  - destruct H as [Hv H]. split; [exact Hv|].
    destruct (unsnoc (children t)) as [[front c]|]; [|contradiction].
    apply IH, H.
Qed.

(** Appending a well-formed node on top of the stack keeps the tree and the
    stack well-formed; a node that is not void may then be pushed. *)
Lemma spine_push_back_ok (d : nat) (node t : ASTNode) :
  spine_open d t -> void_childless t = true -> void_childless node = true ->
  exists t', spine_push_back d node t = Some t'
             /\ void_childless t' = true
             /\ spine_open d t'
             /\ (is_void node = false -> spine_open (S d) t').
Proof.
  revert t; induction d as [|d IH]; intros t Hs Ht Hn.
  - simpl. eexists; split; [reflexivity|].
    destruct Hs as [Hv _]. rewrite void_childless_eq in Ht.
    apply andb_true_iff in Ht as [_ Hc].
    split; [|split].
    + rewrite void_childless_eq, is_void_set_children, Hv. simpl.
      destruct t; simpl in *. rewrite forallb_app, Hc. simpl. now rewrite Hn.
    + simpl. now rewrite is_void_set_children.
    + intros Hnv. simpl. rewrite is_void_set_children. split; [exact Hv|].
      destruct t; simpl. rewrite unsnoc_snoc. simpl. tauto.
  - destruct Hs as [Hv Hs]. simpl.
    destruct (unsnoc (children t)) as [[front c]|] eqn:E; [|contradiction].
    apply unsnoc_Some in E as Ec.
    rewrite void_childless_eq in Ht. apply andb_true_iff in Ht as [_ Hc].
    rewrite Ec, forallb_app in Hc. apply andb_true_iff in Hc as [Hf Hcc].
    simpl in Hcc. rewrite andb_true_r in Hcc.
    destruct (IH c Hs Hcc Hn) as (c' & -> & Hc1 & Hc2 & Hc3).
    eexists; split; [reflexivity|].
    assert (Hvoid : void_childless (set_children t (front ++ [c'])) = true).
    { rewrite void_childless_eq, is_void_set_children, Hv. simpl.
      destruct t; simpl. rewrite forallb_app, Hf. simpl. now rewrite Hc1. }
    assert (Hopen : forall k, spine_open k c' ->
                              spine_open (S k) (set_children t (front ++ [c']))).
    { intros k Hk. split; [now rewrite is_void_set_children|].
      destruct t; simpl. now rewrite unsnoc_snoc. }
    split; [exact Hvoid|]. split; [exact (Hopen d Hc2)|].
    intros Hnv. exact (Hopen (S d) (Hc3 Hnv)).
Qed.

Lemma back_push_child_ok (st st1 : parser_state) (node : ASTNode) :
  state_ok st -> void_childless node = true ->
  back_push_child st node = Returns st1 ->
  state_ok st1 /\ stack_size st1 = stack_size st
  /\ (is_void node = false -> state_ok (stack_push st1)).
Proof.
  intros [Hr Hs] Hn. unfold back_push_child.
  destruct (stack_size st) as [|d] eqn:Ed; [discriminate|].
  destruct (spine_push_back_ok d node (root st) Hs Hr Hn) as (t' & -> & H1 & H2 & H3).
  intros [= <-]. unfold state_ok. simpl.
  split; [split; assumption|]. split; [reflexivity|].
  intros Hnv. split; [assumption|]. now apply H3.
Qed.

Lemma stack_pop_ok (st : parser_state) : state_ok st -> state_ok (stack_pop st).
Proof.
  intros [Hr Hs]. split; [exact Hr|]. simpl.
  destruct (stack_size st) as [|[|d]]; simpl; try exact I.
  now apply spine_open_pred.
Qed.

Lemma parse_markup_ok (html : wstring) (i i1 : nat) (st st1 : parser_state) :
  state_ok st -> parse_markup html i st = Returns (i1, st1) -> state_ok st1.
Proof.
  intros Hok. unfold parse_markup.
  destruct (find_char html (ch ">") i) as [e|]; [|discriminate].
  unfold parse_tag.
  destruct (wstring_eqb _ (L "!--")).
  { destruct (find html (L "-->") i); [|discriminate]. now intros [= _ <-]. }
  destruct (mem _ skip_tags).
  { destruct (find html _ i); [|discriminate]. now intros [= _ <-]. }
  destruct (N.eqb _ (ch "/")); destruct (ParseTag _) as [tag_name attrs]; cbn [negb].
  - destruct (back_name st) as [top| | |]; cbn [bind]; try discriminate.
    destruct (wstring_eqb top tag_name); cbn [negb]; [|discriminate].
    intros [= _ <-]. now apply stack_pop_ok.
  - match goal with |- context [back_push_child st ?n] => set (node := n) end.
    destruct (back_push_child st node) as [st2| | |] eqn:E; cbn [bind]; try discriminate.
    assert (Hn : void_childless node = true).
    { unfold node. cbn [void_childless forallb]. now rewrite orb_true_r. }
    destruct (back_push_child_ok st st2 node Hok Hn E) as (H1 & _ & H3).
    destruct (mem tag_name self_closing_tags) eqn:Ev; intros [= _ <-]; [exact H1|].
    apply H3. unfold node, is_void. cbn [type name]. exact Ev.
Qed.

Lemma parse_text_ok (order : list (wstring * wstring)) (html : wstring)
      (i i1 : nat) (st st1 : parser_state) :
  state_ok st -> parse_text order html i st = Returns (i1, st1) -> state_ok st1.
Proof.
  intros Hok. unfold parse_text.
  destruct (decode_entities order _) as [text| | |]; cbn [bind]; try discriminate.
  destruct (back_push_child st _) as [st2| | |] eqn:E; cbn [bind]; try discriminate.
  intros [= _ <-].
  now destruct (back_push_child_ok st st2 (Node TEXT [] text [] []) Hok eq_refl E) as (H1 & _).
Qed.

Lemma parse_step_ok (order : list (wstring * wstring)) (html : wstring)
      (i i1 : nat) (st st1 : parser_state) :
  state_ok st -> parse_step order html i st = Returns (i1, st1) -> state_ok st1.
Proof.
  unfold parse_step. destruct (N.eqb _ _).
  - apply parse_markup_ok.
  - apply parse_text_ok.
Qed.

Lemma parse_loop_ok (fuel : nat) (order : list (wstring * wstring)) (html : wstring)
      (i : nat) (st st1 : parser_state) :
  state_ok st -> parse_loop fuel order html i st = Returns st1 -> state_ok st1.
Proof.
  revert i st; induction fuel as [|fuel IH]; intros i st Hok; simpl.
  - destruct (length html <=? i); [|discriminate]. now intros [= <-].
  - destruct (length html <=? i); [now intros [= <-]|].
    destruct (parse_step order html i st) as [[i1 st2]| | |] eqn:E;
      cbn [bind fst snd]; try discriminate.
    apply IH. eapply parse_step_ok; eassumption.
Qed.

Lemma initial_state_ok : state_ok initial_state.
Proof. repeat split. Qed.

Lemma void_childless_subnode (n t : ASTNode) :
  subnode n t -> void_childless t = true -> void_childless n = true.
Proof.
  induction 1 as [|n c t Hin _ IH]; intros Ht; [exact Ht|].
  apply IH. rewrite void_childless_eq in Ht. apply andb_true_iff in Ht as [_ Hc].
  rewrite forallb_forall in Hc. now apply Hc.
Qed.

(** ** The loops of the model never exhaust their fuel *)

Lemma bind_fuel (A B : Type) (m : outcome A) (k : A -> outcome B) :
  m <> OutOfFuel -> (forall a, k a <> OutOfFuel) -> bind m k <> OutOfFuel.
Proof. destruct m; simpl; intros; auto; discriminate. Qed.

Lemma replace_length (s r : wstring) (p n : nat) :
  p + n <= length s -> length (replace s p n r) = length s - n + length r.
Proof.
  intros H. unfold replace. rewrite !length_app, length_firstn, length_skipn. lia.
Qed.

(** Each replacement shortens what is left to scan: the length of the text
    bounds the number of turns. *)
Lemma replace_entity_fuel (fuel : nat) (entity : wstring * wstring)
      (text : wstring) (pos : nat) :
  fst entity <> [] -> length text - pos <= fuel ->
  replace_entity fuel entity text pos <> OutOfFuel.
Proof.
  intros Hk. revert text pos; induction fuel as [|fuel IH]; intros text pos Hf; simpl.
  - destruct (find text (fst entity) pos) as [p|] eqn:E; [|discriminate].
    apply find_Some in E as (H1 & H2 & _).
    destruct (fst entity); [contradiction|]. simpl in H2. lia.
  - destruct (find text (fst entity) pos) as [p|] eqn:E; [|discriminate].
    apply find_Some in E as (H1 & H2 & _). apply IH.
    rewrite replace_length by lia.
    destruct (fst entity); [contradiction|]. simpl in *. lia.
Qed.

Lemma decode_entities_fuel_from (order : list (wstring * wstring))
      (acc : outcome wstring) :
  keys_nonempty order -> acc <> OutOfFuel ->
  fold_left (fun acc entity => t <- acc ;; replace_entity (length t) entity t 0)
            order acc <> OutOfFuel.
Proof.
  intros Hk. revert acc; induction Hk as [|entity order He _ IH]; intros acc Hacc; simpl.
  - exact Hacc.
  - apply IH. apply bind_fuel; [exact Hacc|].
    intros t. apply replace_entity_fuel; [exact He|lia].
Qed.

Lemma decode_entities_fuel (order : list (wstring * wstring)) (text : wstring) :
  keys_nonempty order -> decode_entities order text <> OutOfFuel.
Proof. intros Hk. apply decode_entities_fuel_from; [exact Hk|discriminate]. Qed.

Lemma back_name_fuel (st : parser_state) : back_name st <> OutOfFuel.
Proof.
  unfold back_name. destruct (stack_size st); [discriminate|].
  destruct (spine_node _ _); discriminate.
Qed.

Lemma back_push_child_fuel (st : parser_state) (node : ASTNode) :
  back_push_child st node <> OutOfFuel.
Proof.
  unfold back_push_child. destruct (stack_size st); [discriminate|].
  destruct (spine_push_back _ _ _); discriminate.
Qed.

Lemma parse_markup_fuel (html : wstring) (i : nat) (st : parser_state) :
  parse_markup html i st <> OutOfFuel.
Proof.
  unfold parse_markup.
  destruct (find_char html (ch ">") i) as [e|]; [|discriminate].
  unfold parse_tag.
  destruct (wstring_eqb _ (L "!--")).
  { destruct (find html (L "-->") i); discriminate. }
  destruct (mem _ skip_tags).
  { destruct (find html _ i); discriminate. }
  destruct (N.eqb _ (ch "/")); destruct (ParseTag _) as [tag_name attrs]; cbn [negb].
  - apply bind_fuel; [apply back_name_fuel|].
    intros top. destruct (negb _); discriminate.
  - apply bind_fuel; [apply back_push_child_fuel|discriminate].
Qed.

Lemma parse_step_fuel (order : list (wstring * wstring)) (html : wstring)
      (i : nat) (st : parser_state) :
  keys_nonempty order -> parse_step order html i st <> OutOfFuel.
Proof.
  intros Hk. unfold parse_step. destruct (N.eqb _ _); [apply parse_markup_fuel|].
  unfold parse_text. apply bind_fuel; [now apply decode_entities_fuel|].
  intros text. apply bind_fuel; [apply back_push_child_fuel|discriminate].
Qed.

(** Every turn of the loop moves [current_index] forward. *)
Lemma parse_step_progress (order : list (wstring * wstring)) (html : wstring)
      (i i1 : nat) (st st1 : parser_state) :
  i < length html -> parse_step order html i st = Returns (i1, st1) -> i < i1.
Proof.
  intros Hi. unfold parse_step.
  destruct (N.eqb (to_char (nth i html 0%N)) (ch "<")) eqn:Ec.
  - apply N.eqb_eq in Ec. unfold parse_markup.
    destruct (find_char html (ch ">") i) as [e|] eqn:Ee; [|discriminate].
    apply find_char_Some in Ee as (H1 & H2 & H3).
    assert (e <> i).
    { intros ->. rewrite H3 in Ec. vm_compute in Ec. discriminate. }
    unfold parse_tag.
    destruct (wstring_eqb _ (L "!--")).
    { destruct (find html (L "-->") i) as [ec|] eqn:E; [|discriminate].
      apply find_Some in E as (? & _). intros [= <- _]. lia. }
    destruct (mem _ skip_tags).
    { destruct (find html _ i) as [ec|] eqn:E; [|discriminate].
      apply find_Some in E as (? & _). intros [= <- _]. lia. }
    destruct (N.eqb _ (ch "/")); destruct (ParseTag _) as [tag_name attrs]; cbn [negb].
    + destruct (back_name st) as [top| | |]; cbn [bind]; try discriminate.
      destruct (negb _); [discriminate|]. intros [= <- _]. lia.
    + destruct (back_push_child st _) as [st2| | |]; cbn [bind]; try discriminate.
      intros [= <- _]. lia.
  - unfold parse_text.
    destruct (find_char html (ch "<") i) as [e|] eqn:Ee;
      (destruct (decode_entities order _) as [text| | |]; cbn [bind]; try discriminate);
      (destruct (back_push_child st _) as [st2| | |]; cbn [bind]; try discriminate);
      intros [= <- _]; [|exact Hi].
    apply find_char_Some in Ee as (H1 & H2 & H3).
    assert (e <> i); [|lia].
    intros ->. rewrite H3 in Ec. vm_compute in Ec. discriminate.
Qed.

Lemma parse_loop_fuel (fuel : nat) (order : list (wstring * wstring))
      (html : wstring) (i : nat) (st : parser_state) :
  keys_nonempty order -> length html - i <= fuel ->
  parse_loop fuel order html i st <> OutOfFuel.
Proof.
  intros Hk. revert i st; induction fuel as [|fuel IH]; intros i st Hf; simpl.
  - destruct (length html <=? i) eqn:E; [discriminate|].
    apply Nat.leb_gt in E. lia.
  - destruct (length html <=? i) eqn:E; [discriminate|].
    apply Nat.leb_gt in E.
    destruct (parse_step order html i st) as [[i1 st1]| | |] eqn:Es;
      cbn [bind fst snd]; try discriminate.
    + apply IH. apply parse_step_progress in Es; [lia|exact E].
    + now apply parse_step_fuel in Es.
Qed.

Lemma ParseHTMLToAST_fuel (order : list (wstring * wstring)) (html : wstring) :
  keys_nonempty order -> ParseHTMLToAST order html <> OutOfFuel.
Proof.
  intros Hk. unfold ParseHTMLToAST, parse_run.
  apply bind_fuel; [|discriminate]. apply parse_loop_fuel; [exact Hk|lia].
Qed.

(** Induction on a tree, with the claim known of every child. *)
Lemma ASTNode_nested_ind (P : ASTNode -> Prop) :
  (forall ty n v a cs, Forall P cs -> P (Node ty n v a cs)) -> forall t, P t.
Proof.
  intros H. fix IH 1. intros [ty n v a cs]. apply H.
  induction cs as [|c cs IHcs]; constructor; [apply IH|exact IHcs].
Qed.

Section RenderFuel.

Variable rec : ASTNode -> outcome wstring.

Lemma fuel_below_cons (c : ASTNode) (l : list ASTNode) :
  fuel_below rec (c :: l) ->
  rec c <> OutOfFuel /\ fuel_below rec (children c) /\ fuel_below rec l.
Proof.
  intros H. split; [|split].
  - apply (H c c); [now left|constructor].
  - intros x n Hx Hn. apply (H c n); [now left|].
    eapply subnode_below; eassumption.
  - intros x n Hx Hn. apply (H x n); [now right|exact Hn].
Qed.

Ltac fuel_step :=
  match goal with
  | |- Returns _ <> OutOfFuel => discriminate
  | |- Undefined <> OutOfFuel => discriminate
  | |- Throws _ <> OutOfFuel => discriminate
  | |- bind _ _ <> OutOfFuel => apply bind_fuel; [|intros ?]
  | |- (let '(_, _) := ?p in _) <> OutOfFuel => destruct p
  | |- (if ?b then _ else _) <> OutOfFuel => destruct b
  | |- match ?m with _ => _ end <> OutOfFuel => destruct m
  end.

Lemma render_cells_fuel (cells : list ASTNode) (row_text : wstring) :
  fuel_below rec cells -> render_cells rec cells row_text <> OutOfFuel.
Proof.
  revert row_text; induction cells as [|cell rest IH]; intros row_text H;
    cbn [render_cells]; [discriminate|].
  apply fuel_below_cons in H as (H1 & _ & H3).
  repeat fuel_step; auto.
Qed.

Lemma render_section_cells_fuel (in_thead : bool) (cells : list ASTNode)
      (row_text separator : wstring) :
  fuel_below rec cells ->
  render_section_cells rec in_thead cells row_text separator <> OutOfFuel.
Proof.
  revert row_text separator; induction cells as [|cell rest IH];
    intros row_text separator H; cbn [render_section_cells]; [discriminate|].
  apply fuel_below_cons in H as (H1 & _ & H3).
  destruct (is_cell cell); [|now apply IH].
  apply bind_fuel; [exact H1|]. intros r. now apply IH.
Qed.

Lemma render_section_rows_fuel (in_thead : bool) (rows : list ASTNode)
      (t : table_rows) :
  fuel_below rec rows -> render_section_rows rec in_thead rows t <> OutOfFuel.
Proof.
  revert t; induction rows as [|row rest IH]; intros t H;
    cbn [render_section_rows]; [discriminate|].
  apply fuel_below_cons in H as (_ & H2 & H3).
  destruct (wstring_eqb (name row) (L "tr")); [|now apply IH].
  apply bind_fuel; [now apply render_section_cells_fuel|].
  intros r. now apply IH.
Qed.

Lemma render_footer_rows_fuel (rows : list ASTNode) (t : table_rows) :
  fuel_below rec rows -> render_footer_rows rec rows t <> OutOfFuel.
Proof.
  revert t; induction rows as [|row rest IH]; intros t H;
    cbn [render_footer_rows]; [discriminate|].
  apply fuel_below_cons in H as (_ & H2 & H3).
  destruct (wstring_eqb (name row) (L "tr")); [|now apply IH].
  apply bind_fuel; [now apply render_cells_fuel|].
  intros r. now apply IH.
Qed.

Lemma render_table_fuel (table_children : list ASTNode) (t : table_rows) :
  fuel_below rec table_children -> render_table rec table_children t <> OutOfFuel.
Proof.
  revert t; induction table_children as [|table_child rest IH]; intros t H;
    cbn [render_table]; [discriminate|].
  apply fuel_below_cons in H as (H1 & H2 & H3). cbv zeta.
  destruct (wstring_eqb (name table_child) (L "tr")).
  { apply bind_fuel; [now apply render_cells_fuel|]. intros r. now apply IH. }
  destruct (_ || _).
  { apply bind_fuel; [now apply render_section_rows_fuel|]. intros r. now apply IH. }
  destruct (wstring_eqb (name table_child) (L "tfoot")).
  { apply bind_fuel; [now apply render_footer_rows_fuel|]. intros r. now apply IH. }
  destruct (wstring_eqb (name table_child) (L "caption")).
  { apply bind_fuel; [exact H1|]. intros r. now apply IH. }
  now apply IH.
Qed.

Lemma map_at_fuel (m : attribute_map) (k : wstring) : map_at m k <> OutOfFuel.
Proof. unfold map_at. destruct (map_find m k); discriminate. Qed.

Lemma stoi_fuel (s : wstring) : stoi s <> OutOfFuel.
Proof. unfold stoi. repeat fuel_step. Qed.

Lemma render_element_fuel (node_name list_prefix : wstring) (st : render_state)
      (child : ASTNode) :
  rec child <> OutOfFuel -> fuel_below rec (children child) ->
  render_element rec node_name list_prefix st child <> OutOfFuel.
Proof.
  intros H1 H2. unfold render_element. cbv zeta.
  repeat first
         [ exact H1
         | apply map_at_fuel
         | apply stoi_fuel
         | apply render_table_fuel; exact H2
         | fuel_step ].
Qed.

Lemma render_children_fuel (node_name list_prefix : wstring)
      (cs : list ASTNode) (st : render_state) :
  fuel_below rec cs -> render_children rec node_name list_prefix cs st <> OutOfFuel.
Proof.
  revert st; induction cs as [|child rest IH]; intros st H;
    cbn [render_children]; [discriminate|].
  apply fuel_below_cons in H as (H1 & H2 & H3).
  apply bind_fuel; [|intros st1; now apply IH].
  unfold render_child. destruct (type child).
  - apply bind_fuel; [exact H1|discriminate].
  - discriminate.
  - now apply render_element_fuel.
Qed.

End RenderFuel.

Lemma AstToMarkdown_eq (node : ASTNode) (list_level : nat) :
  AstToMarkdown node list_level =
  render_children (fun child => AstToMarkdown child 0) (name node)
                  (repeat tab list_level) (children node)
                  (mk_render [] [1%Z] list_level).
Proof. destruct node; reflexivity. Qed.

(** The renderer is a structural recursion: it has no fuel to exhaust. *)
Lemma AstToMarkdown_fuel (t : ASTNode) :
  forall n list_level, subnode n t -> AstToMarkdown n list_level <> OutOfFuel.
Proof.
  induction t as [ty nm v a cs IH] using ASTNode_nested_ind.
  assert (Hbelow : fuel_below (fun child => AstToMarkdown child 0) cs).
  { intros c n Hc Hn. rewrite Forall_forall in IH. now apply (IH c Hc). }
  intros n list_level Hn. inversion Hn as [|n' c t' Hc Hn']; subst.
  - rewrite AstToMarkdown_eq. now apply render_children_fuel.
  - rewrite Forall_forall in IH. now apply (IH c Hc).
Qed.

(** ** The iteration order of the entity table *)

Lemma iteration_order_In (order : list (wstring * wstring)) :
  iteration_order order -> forall entity, In entity order -> In entity html_entities.
Proof.
  intros H entity Hin. eapply Permutation_in; [symmetry; exact H|exact Hin].
Qed.

Lemma html_entities_keys_ampersand : keys_ampersand html_entities.
Proof. repeat constructor; eexists; reflexivity. Qed.

Lemma iteration_order_keys_ampersand (order : list (wstring * wstring)) :
  iteration_order order -> keys_ampersand order.
Proof.
  intros H. unfold keys_ampersand. eapply Permutation_Forall; [exact H|].
  apply html_entities_keys_ampersand.
Qed.

Lemma keys_ampersand_nonempty (order : list (wstring * wstring)) :
  keys_ampersand order -> keys_nonempty order.
Proof.
  intros H. eapply Forall_impl; [|exact H].
  intros entity [k ->]. discriminate.
Qed.

Lemma prefixb_cons_In (c : wchar) (k s : wstring) :
  prefixb (c :: k) s = true -> In c s.
Proof.
  destruct s as [|y s]; simpl; [discriminate|].
  rewrite andb_true_iff, N.eqb_eq. intros [-> _]. now left.
Qed.

Lemma In_skipn (A : Type) (x : A) (n : nat) (l : list A) : In x (skipn n l) -> In x l.
Proof.
  revert l; induction n as [|n IH]; intros [|y l]; simpl; auto.
Qed.

Lemma In_firstn (A : Type) (x : A) (n : nat) (l : list A) : In x (firstn n l) -> In x l.
Proof.
  revert l; induction n as [|n IH]; intros [|y l]; simpl; auto.
  - contradiction.
  - intros [H|H]; auto.
Qed.

(** A spelling whose first character is not in the text is not found. *)
Lemma find_absent (s : wstring) (c : wchar) (k : wstring) (pos : nat) :
  ~ In c s -> find s (c :: k) pos = None.
Proof.
  intros H. destruct (find s (c :: k) pos) as [p|] eqn:E; [|reflexivity].
  apply find_Some in E as (_ & _ & E). apply prefixb_cons_In, In_skipn in E.
  contradiction.
Qed.

Lemma replace_entity_absent (fuel : nat) (entity : wstring * wstring)
      (text : wstring) (pos : nat) :
  find text (fst entity) pos = None ->
  replace_entity fuel entity text pos = Returns text.
Proof. intros H. destruct fuel; simpl; now rewrite H. Qed.

(** A text without ampersand is left as it is, whatever the order. *)
Lemma decode_entities_plain (order : list (wstring * wstring)) (text : wstring) :
  keys_ampersand order -> ~ In (ch "&") text ->
  decode_entities order text = Returns text.
Proof.
  intros Hk Ht. unfold decode_entities.
  induction Hk as [|entity order [k Hk] _ IH]; cbn [fold_left bind]; [reflexivity|].
  rewrite replace_entity_absent; [exact IH|].
  pose proof (find_absent text (ch "&") k 0 Ht) as H.
  rewrite <- Hk in H. exact H.
Qed.

Lemma parse_step_plain (order : list (wstring * wstring)) (html : wstring)
      (i : nat) (st : parser_state) :
  iteration_order order -> ~ In (ch "&") html ->
  parse_step order html i st = parse_step html_entities html i st.
Proof.
  intros Ho Hh. unfold parse_step. destruct (N.eqb _ _); [reflexivity|].
  unfold parse_text.
  assert (Ht : forall n, ~ In (ch "&") (substr html i n)).
  { intros n Hin. apply In_firstn, In_skipn in Hin. contradiction. }
  rewrite !decode_entities_plain;
    auto using iteration_order_keys_ampersand, html_entities_keys_ampersand.
Qed.

Lemma parse_loop_plain (fuel : nat) (order : list (wstring * wstring))
      (html : wstring) (i : nat) (st : parser_state) :
  iteration_order order -> ~ In (ch "&") html ->
  parse_loop fuel order html i st = parse_loop fuel html_entities html i st.
Proof.
  intros Ho Hh. revert i st; induction fuel as [|fuel IH]; intros i st; simpl;
    [reflexivity|].
  destruct (length html <=? i); [reflexivity|].
  rewrite (parse_step_plain order html i st Ho Hh).
  destruct (parse_step html_entities html i st) as [[i1 st1]| | |]; simpl; auto.
Qed.

(** On an input without ampersand the iteration order plays no part. *)
Lemma ParseHTMLToAST_plain (order : list (wstring * wstring)) (html : wstring) :
  iteration_order order -> ~ In (ch "&") html ->
  ParseHTMLToAST order html = ParseHTMLToAST html_entities html.
Proof.
  intros Ho Hh. unfold ParseHTMLToAST, parse_run. now rewrite parse_loop_plain.
Qed.

Lemma ConvertHTMLToMarkdown_plain (order : list (wstring * wstring)) (html : wstring) :
  iteration_order order -> ~ In (ch "&") html ->
  ConvertHTMLToMarkdown order html = ConvertHTMLToMarkdown html_entities html.
Proof.
  intros Ho Hh. unfold ConvertHTMLToMarkdown.
  induction tags as [|tag rest IH]; simpl; [reflexivity|].
  destruct (find html tag 0); [|exact IH].
  unfold try_convert. now rewrite ParseHTMLToAST_plain.
Qed.

Lemma memb_false (c : wchar) (s : wstring) : memb c s = false -> ~ In c s.
Proof.
  induction s as [|x s IH]; simpl; [tauto|].
  rewrite orb_false_iff, N.eqb_neq. intros [H1 H2] [H|H]; [congruence|now apply IH].
Qed.

(** ** The driver *)

(** No exception leaves [ConvertHTMLToMarkdown]. *)
Lemma ConvertHTMLToMarkdown_no_throw (order : list (wstring * wstring))
      (html : wstring) (e : exception) :
  ConvertHTMLToMarkdown order html <> Throws e.
Proof.
  unfold ConvertHTMLToMarkdown. induction tags as [|tag rest IH]; simpl;
    [discriminate|].
  destruct (find html tag 0); [|exact IH].
  unfold try_convert. destruct (bind _ _); discriminate.
Qed.

(** An exception of the parser or of the renderer gives the input back. *)
Lemma ConvertHTMLToMarkdown_caught (order : list (wstring * wstring))
      (html : wstring) (e : exception) :
  (ast <- ParseHTMLToAST order html ;; AstToMarkdown ast 0) = Throws e ->
  ConvertHTMLToMarkdown order html = Returns html.
Proof.
  intros H. unfold ConvertHTMLToMarkdown. induction tags as [|tag rest IH]; simpl;
    [reflexivity|].
  destruct (find html tag 0); [|exact IH].
  unfold try_convert. now rewrite H.
Qed.

Lemma ConvertHTMLToMarkdown_parse_failure (order : list (wstring * wstring))
      (html : wstring) (e : exception) :
  ParseHTMLToAST order html = Throws e ->
  ConvertHTMLToMarkdown order html = Returns html.
Proof.
  intros H. apply ConvertHTMLToMarkdown_caught with (e := e). now rewrite H.
Qed.

(** The driver returns a string, unless the parser or the renderer ran into
    undefined behaviour. *)
Lemma ConvertHTMLToMarkdown_returns (order : list (wstring * wstring))
      (html : wstring) :
  keys_nonempty order ->
  (exists s, ConvertHTMLToMarkdown order html = Returns s)
  \/ ConvertHTMLToMarkdown order html = Undefined.
Proof.
  intros Hk. unfold ConvertHTMLToMarkdown. induction tags as [|tag rest IH]; simpl.
  - left. now exists html.
  - destruct (find html tag 0); [|exact IH].
    unfold try_convert.
    destruct (ParseHTMLToAST order html) as [ast| | |] eqn:E; cbn [bind].
    + destruct (AstToMarkdown ast 0) as [s| | |] eqn:Er.
      * left. now exists s.
      * left. now exists html.
      * now right.
      * exfalso. now apply (AstToMarkdown_fuel ast ast 0 (subnode_here ast)).
    + left. now exists html.
    + now right.
    + exfalso. now apply (ParseHTMLToAST_fuel order html Hk).
Qed.

(** C1.  Every exception is caught, and a failed parse gives the input
    back; but the driver is not total.  [</>] closes the root, whose name is
    empty: the stack of open nodes is empty from then on, and the next tag
    reads [stack.back()] of an empty vector.  That is undefined behaviour,
    not an exception that the [catch] could turn into the input. *)
Theorem C1_driver_catches_but_is_not_total :
  (forall order html e, ConvertHTMLToMarkdown order html <> Throws e)
  /\ (forall order html e,
         ParseHTMLToAST order html = Throws e ->
         ConvertHTMLToMarkdown order html = Returns html)
  /\ (forall order html,
         iteration_order order ->
         (exists s, ConvertHTMLToMarkdown order html = Returns s)
         \/ ConvertHTMLToMarkdown order html = Undefined)
  /\ (forall order,
         ParseHTMLToAST order (L "</><p>x</p>") = Undefined
         /\ ConvertHTMLToMarkdown order (L "</><p>x</p>") = Undefined).
Proof.
  split; [exact ConvertHTMLToMarkdown_no_throw|].
  split; [exact ConvertHTMLToMarkdown_parse_failure|].
  split.
  - intros order html Ho. apply ConvertHTMLToMarkdown_returns.
    now apply keys_ampersand_nonempty, iteration_order_keys_ampersand.
  - intros order. split; reflexivity.
Qed.

Lemma C1_driver_catches_but_is_not_total_witness :
  iteration_order html_entities
  /\ ParseHTMLToAST html_entities (L "<div><p>text</div>") = Throws runtime_error
  /\ ConvertHTMLToMarkdown html_entities (L "<div><p>text</div>")
     = Returns (L "<div><p>text</div>")
  /\ ConvertHTMLToMarkdown html_entities (L "</><p>x</p>") = Undefined.
Proof.
  destruct C1_driver_catches_but_is_not_total as (_ & Hfail & _ & Hundef).
  split; [apply Permutation_refl|]. split; [reflexivity|]. split.
  - exact (Hfail html_entities (L "<div><p>text</div>") runtime_error eq_refl).
  - exact (proj2 (Hundef html_entities)).
Defined.

Lemma render_child_bullet (rec : ASTNode -> outcome wstring)
      (node_name list_prefix : wstring) (st : render_state) (child : ASTNode) :
  type child = ELEMENT -> name child = L "li" -> is_hidden child = false ->
  node_name <> L "ol" ->
  render_child rec node_name list_prefix st child
  = (r <- rec child ;; Returns (append st (nl ++ list_prefix ++ L "- " ++ r))).
Proof.
  intros Hty Hname Hhid Hol. unfold render_child. rewrite Hty.
  unfold render_element. rewrite Hhid, Hname. cbv zeta.
  change (basic_find basic_markdown_tags (L "li")) with (@None (wstring * wstring)).
  change (wstring_eqb (L "li") (L "a")) with false.
  change (wstring_eqb (L "li") (L "li")) with true. cbv iota.
  apply wstring_eqb_neq in Hol. now rewrite Hol.
Qed.

(** C5.  List items are not indented.  The prefix of a bullet is the
    [list_prefix] of the call that renders its parent, and every call but
    the outermost is made with [list_level] left at 0, whatever the depth:
    the nested list of the claim renders with both bullets at the margin. *)
Theorem C5_nested_list_rendered_flat :
  (forall order, iteration_order order ->
     ConvertHTMLToMarkdown order (L "<ul><li>a<ul><li>b</li></ul></li></ul>")
     = Returns (nl ++ nl ++ L "- a" ++ nl ++ nl ++ L "- b"))
  /\ (forall node list_level,
         AstToMarkdown node list_level
         = render_children (fun child => AstToMarkdown child 0) (name node)
                           (repeat tab list_level) (children node)
                           (mk_render [] [1%Z] list_level))
  /\ (forall parent_name list_level st child,
         type child = ELEMENT -> name child = L "li" -> is_hidden child = false ->
         parent_name <> L "ol" ->
         render_child (fun c => AstToMarkdown c 0) parent_name
                      (repeat tab list_level) st child
         = (r <- AstToMarkdown child 0 ;;
            Returns (append st (nl ++ repeat tab list_level ++ L "- " ++ r)))).
Proof.
  split; [|split].
  - intros order Ho. rewrite ConvertHTMLToMarkdown_plain; [reflexivity|exact Ho|].
    apply memb_false. reflexivity.
  - exact AstToMarkdown_eq.
  - intros parent_name list_level st child Hty Hname Hhid Hol.
    now apply render_child_bullet.
Qed.

Lemma C5_nested_list_rendered_flat_witness :
  iteration_order html_entities
  /\ ConvertHTMLToMarkdown html_entities (L "<ul><li>a<ul><li>b</li></ul></li></ul>")
     = Returns (nl ++ nl ++ L "- a" ++ nl ++ nl ++ L "- b").
Proof.
  assert (Ho : iteration_order html_entities) by apply Permutation_refl.
  split; [exact Ho|]. exact (proj1 C5_nested_list_rendered_flat html_entities Ho).
Defined.

(** C6, as stated, fails: the input has none of the openers that the
    driver looks for, so it comes back as it is. *)
Lemma C6_counterexample :
  ConvertHTMLToMarkdown html_entities (L "<strong>x</strong>") <> Returns (L "**x**").
Proof. vm_compute. discriminate. Qed.

(** C6, amended.  Converting [<strong>x</strong>] returns the input
    unchanged; the parser and the renderer, which the driver calls once an
    opener of its list is present, turn it into [**x**]. *)
Theorem C6_strong_needs_a_listed_tag :
  forall order, iteration_order order ->
    ConvertHTMLToMarkdown order (L "<strong>x</strong>")
    = Returns (L "<strong>x</strong>")
    /\ (ast <- ParseHTMLToAST order (L "<strong>x</strong>") ;; AstToMarkdown ast 0)
       = Returns (L "**x**")
    /\ ConvertHTMLToMarkdown order (L "<span><strong>x</strong></span>")
       = Returns (L "**x**").
Proof.
  intros order Ho. split; [reflexivity|]. split.
  - rewrite ParseHTMLToAST_plain; [reflexivity|exact Ho|].
    apply memb_false. reflexivity.
  - rewrite ConvertHTMLToMarkdown_plain; [reflexivity|exact Ho|].
    apply memb_false. reflexivity.
Qed.

Lemma C6_strong_needs_a_listed_tag_witness :
  iteration_order html_entities
  /\ ConvertHTMLToMarkdown html_entities (L "<strong>x</strong>")
     = Returns (L "<strong>x</strong>")
  /\ (ast <- ParseHTMLToAST html_entities (L "<strong>x</strong>") ;; AstToMarkdown ast 0)
     = Returns (L "**x**")
  /\ ConvertHTMLToMarkdown html_entities (L "<span><strong>x</strong></span>")
     = Returns (L "**x**").
Proof.
  assert (Ho : iteration_order html_entities) by apply Permutation_refl.
  split; [exact Ho|]. exact (C6_strong_needs_a_listed_tag html_entities Ho).
Defined.

(** ** The renderer and the attributes *)

Lemma render_children_throws (rec : ASTNode -> outcome wstring)
      (node_name list_prefix : wstring) (cs : list ASTNode) (child : ASTNode) :
  In child cs ->
  (forall st, render_child rec node_name list_prefix st child = Throws out_of_range) ->
  forall st s, render_children rec node_name list_prefix cs st <> Returns s.
Proof.
  intros Hin Hthrow. induction cs as [|c cs IH]; [contradiction|].
  intros st s. cbn [render_children]. destruct Hin as [->|Hin].
  - rewrite Hthrow. discriminate.
  - destruct (render_child rec node_name list_prefix st c); cbn [bind];
      try discriminate.
    now apply IH.
Qed.

Lemma render_child_missing_attribute (rec : ASTNode -> outcome wstring)
      (node_name list_prefix : wstring) (st : render_state) (child : ASTNode) :
  type child = ELEMENT -> is_hidden child = false ->
  lacks_required_attribute child = true ->
  render_child rec node_name list_prefix st child = Throws out_of_range.
Proof.
  intros Hty Hhid Hlack. unfold render_child. rewrite Hty.
  unfold render_element. rewrite Hhid. cbv zeta.
  unfold lacks_required_attribute, required_attributes in Hlack.
  destruct (wstring_eqb (name child) (L "a")) eqn:Ea.
  { apply wstring_eqb_eq in Ea. rewrite Ea. cbn [basic_find].
    change (basic_find basic_markdown_tags (L "a")) with (@None (wstring * wstring)).
    cbn [existsb] in Hlack. unfold map_at.
    destruct (map_find (attributes child) (L "href")); [discriminate|reflexivity]. }
  destruct (wstring_eqb (name child) (L "img")) eqn:Ei.
  { apply wstring_eqb_eq in Ei. rewrite Ei in *.
    change (basic_find basic_markdown_tags (L "img")) with (@None (wstring * wstring)).
    change (wstring_eqb (L "img") (L "a")) with false.
    change (wstring_eqb (L "img") (L "li")) with false.
    change (wstring_eqb (L "img") (L "ol") || wstring_eqb (L "img") (L "ul")) with false.
    change (wstring_eqb (L "img") (L "img")) with true.
    cbn [existsb] in Hlack. unfold map_at.
    destruct (map_find (attributes child) (L "src")); [|reflexivity].
    destruct (map_find (attributes child) (L "alt")); [discriminate|reflexivity]. }
  destruct (wstring_eqb (name child) (L "input")) eqn:Einp.
  { apply wstring_eqb_eq in Einp. rewrite Einp in *.
    cbn [existsb] in Hlack. unfold map_at.
    destruct (map_find (attributes child) (L "type")); [discriminate|reflexivity]. }
  destruct (wstring_eqb (name child) (L "label")) eqn:El; [|discriminate].
  apply wstring_eqb_eq in El. rewrite El in *.
  cbn [existsb] in Hlack. unfold map_at.
  destruct (map_find (attributes child) (L "value")); [discriminate|reflexivity].
Qed.

(** C2, as stated, fails: an [a] without [href] aborts the render with
    [std::out_of_range]; no empty string stands in for the missing value. *)
Lemma C2_counterexample :
  let tree := Node ROOT [] [] []
                   [Node ELEMENT (L "a") [] [] [Node TEXT [] (L "x") [] []]] in
  AstToMarkdown tree 0 = Throws out_of_range
  /\ AstToMarkdown tree 0 <> Returns (L "[x]()").
Proof. split; [reflexivity|discriminate]. Qed.

(** C2, amended.  The renderer reads [href] of an [a], [src] and [alt] of
    an [img], [type] of an [input] and [value] of a [label] with [at]: when
    such an element is rendered (it is not hidden) and the attribute is
    absent, [at] throws [std::out_of_range], the call that renders the
    children of its parent returns no text, and the driver gives the
    original input back. *)
Theorem C2_missing_attribute_aborts_render :
  forall node child,
    In child (children node) ->
    type child = ELEMENT -> is_hidden child = false ->
    lacks_required_attribute child = true ->
    (forall rec node_name list_prefix st,
        render_child rec node_name list_prefix st child = Throws out_of_range)
    /\ (forall list_level s, AstToMarkdown node list_level <> Returns s)
    /\ (forall order html s,
           ParseHTMLToAST order html = Returns node ->
           ConvertHTMLToMarkdown order html = Returns s -> s = html).
Proof.
  intros node child Hin Hty Hhid Hlack.
  assert (Hthrow : forall rec node_name list_prefix st,
             render_child rec node_name list_prefix st child = Throws out_of_range).
  { intros. now apply render_child_missing_attribute. }
  assert (Hnode : forall list_level s, AstToMarkdown node list_level <> Returns s).
  { intros list_level s. rewrite AstToMarkdown_eq.
    apply render_children_throws with (child := child); [exact Hin|].
    intros st. apply Hthrow. }
  split; [exact Hthrow|]. split; [exact Hnode|].
  intros order html s Hp. unfold ConvertHTMLToMarkdown.
  induction tags as [|tag rest IH]; simpl; [now intros [= <-]|].
  destruct (find html tag 0); [|exact IH].
  unfold try_convert. rewrite Hp. cbn [bind].
  destruct (AstToMarkdown node 0) as [r| | |] eqn:Er; try discriminate.
  - now apply Hnode in Er.
  - now intros [= <-].
Qed.

Lemma C2_missing_attribute_aborts_render_witness :
  let child := Node ELEMENT (L "img") [] [(L "src", L "u")] [] in
  let node := Node ROOT [] [] [] [Node TEXT [] (L "x") [] []; child] in
  In child (children node)
  /\ type child = ELEMENT /\ is_hidden child = false
  /\ lacks_required_attribute child = true
  /\ ParseHTMLToAST html_entities (L "x<img src=u>") = Returns node
  /\ (forall list_level s, AstToMarkdown node list_level <> Returns s)
  /\ (forall s, ConvertHTMLToMarkdown html_entities (L "x<img src=u>") = Returns s ->
                s = L "x<img src=u>").
Proof.
  intros child node.
  assert (Hin : In child (children node)) by (right; left; reflexivity).
  destruct (C2_missing_attribute_aborts_render node child Hin eq_refl eq_refl eq_refl)
    as (_ & H2 & H3).
  split; [exact Hin|]. do 4 (split; [reflexivity|]). split; [exact H2|].
  intros s. apply (H3 html_entities (L "x<img src=u>") s). reflexivity.
Defined.

(** ** The renderer and [code] *)

Lemma render_child_code (rec : ASTNode -> outcome wstring)
      (node_name list_prefix : wstring) (st : render_state) (child : ASTNode) :
  type child = ELEMENT -> name child = L "code" -> is_hidden child = false ->
  render_child rec node_name list_prefix st child
  = (r <- rec child ;; Returns (append st (code_fence node_name r))).
Proof.
  intros Hty Hname Hhid. unfold render_child. rewrite Hty.
  unfold render_element. rewrite Hhid, Hname. cbv zeta.
  change (basic_find basic_markdown_tags (L "code")) with (@None (wstring * wstring)).
  change (wstring_eqb (L "code") (L "a")) with false.
  change (wstring_eqb (L "code") (L "li")) with false.
  change (wstring_eqb (L "code") (L "ol") || wstring_eqb (L "code") (L "ul")) with false.
  change (wstring_eqb (L "code") (L "img")) with false.
  change (wstring_eqb (L "code") (L "code")) with true.
  cbv iota. unfold code_fence.
  destruct node_name as [|c node_name]; [reflexivity|].
  destruct (wstring_eqb (c :: node_name) (L "pre")); reflexivity.
Qed.

(** C7, as stated, fails: a [code] element directly under the root is
    rendered without the fence. *)
Lemma C7_counterexample :
  let tree := Node ROOT [] [] []
                   [Node ELEMENT (L "code") [] [] [Node TEXT [] (L "x") [] []]] in
  AstToMarkdown tree 0 = Returns (L "x")
  /\ AstToMarkdown tree 0 <> Returns (L "```x```" ++ nl).
Proof. split; [reflexivity|discriminate]. Qed.

(** C7, amended.  A [code] element that is rendered (it is not hidden) is
    wrapped in triple backticks with a trailing newline when the name of its
    parent is not empty and is not [pre]; under [pre], and under a parent
    with an empty name, which the root is, its children are emitted
    unwrapped. *)
Theorem C7_code_fenced_by_parent_name :
  forall child,
    type child = ELEMENT -> name child = L "code" -> is_hidden child = false ->
    (forall rec node_name list_prefix st,
        render_child rec node_name list_prefix st child
        = (r <- rec child ;; Returns (append st (code_fence node_name r))))
    /\ (forall ty parent_name v a list_level,
           AstToMarkdown (Node ty parent_name v a [child]) list_level
           = (r <- AstToMarkdown child 0 ;; Returns (code_fence parent_name r)))
    /\ (forall r, code_fence [] r = r)
    /\ (forall r, code_fence (L "pre") r = r)
    /\ (forall parent_name r,
           parent_name <> [] -> parent_name <> L "pre" ->
           code_fence parent_name r = L "```" ++ r ++ L "```" ++ nl).
Proof.
  intros child Hty Hname Hhid.
  assert (H : forall rec node_name list_prefix st,
             render_child rec node_name list_prefix st child
             = (r <- rec child ;; Returns (append st (code_fence node_name r)))).
  { intros. now apply render_child_code. }
  split; [exact H|]. split; [|split; [|split]].
  - intros ty parent_name v a list_level. rewrite AstToMarkdown_eq.
    cbn [children name render_children]. rewrite H.
    destruct (AstToMarkdown child 0); reflexivity.
  - reflexivity.
  - reflexivity.
  - intros parent_name r Hne Hpre. unfold code_fence.
    destruct parent_name as [|c parent_name]; [contradiction|].
    apply wstring_eqb_neq in Hpre. now rewrite Hpre.
Qed.

Lemma C7_code_fenced_by_parent_name_witness :
  let child := Node ELEMENT (L "code") [] [] [Node TEXT [] (L "x") [] []] in
  type child = ELEMENT /\ name child = L "code" /\ is_hidden child = false
  /\ AstToMarkdown (Node ELEMENT (L "div") [] [] [child]) 0
     = Returns (L "```x```" ++ nl)
  /\ AstToMarkdown (Node ELEMENT (L "pre") [] [] [child]) 0 = Returns (L "x")
  /\ AstToMarkdown (Node ROOT [] [] [] [child]) 0 = Returns (L "x").
Proof.
  intros child.
  destruct (C7_code_fenced_by_parent_name child eq_refl eq_refl eq_refl)
    as (_ & H & _).
  rewrite !H. repeat split; reflexivity.
Defined.

(** ** One tag, read at a known place *)

Lemma find_at_skip (c : wchar) (a post : wstring) (i : nat) :
  ~ In c a -> find_at [c] (a ++ c :: post) i = Some (i + length a).
Proof.
  revert i; induction a as [|x a IH]; intros i Hn.
  - simpl. rewrite N.eqb_refl. simpl. f_equal. lia.
  - simpl in Hn. cbn [app find_at prefixb length].
    destruct (N.eqb c x) eqn:E.
    + apply N.eqb_eq in E. exfalso. apply Hn. now left.
    + cbn [andb]. rewrite IH by tauto. f_equal. lia.
Qed.

Lemma skipn_length_app (A : Type) (pre s : list A) : skipn (length pre) (pre ++ s) = s.
Proof. induction pre as [|x pre IH]; simpl; [reflexivity|exact IH]. Qed.

Lemma find_after (pre s pat : wstring) :
  find (pre ++ s) pat (length pre) = find_at pat s (length pre).
Proof.
  unfold find. rewrite length_app.
  replace (length pre + length s <? length pre) with false
    by (symmetry; apply Nat.ltb_ge; lia).
  now rewrite skipn_length_app.
Qed.

Lemma nth_length_app (pre s : wstring) : nth (length pre) (pre ++ s) 0%N = nth 0 s 0%N.
Proof. rewrite app_nth2 by lia. now rewrite Nat.sub_diag. Qed.

Lemma firstn_length_app (A : Type) (a s : list A) : firstn (length a) (a ++ s) = a.
Proof. induction a as [|x a IH]; simpl; [reflexivity|now rewrite IH]. Qed.

(** At a ['<'] followed by [tag] and ['>'], the tag that the loop cuts out
    is [tag]. *)
Lemma parse_step_tag (order : list (wstring * wstring)) (pre tag post : wstring)
      (st : parser_state) :
  ~ In (ch ">") tag ->
  parse_step order (pre ++ L "<" ++ tag ++ L ">" ++ post) (length pre) st
  = parse_tag (pre ++ L "<" ++ tag ++ L ">" ++ post) (length pre)
              (length pre + 1 + length tag) tag st.
Proof.
  intros Hn. unfold parse_step. rewrite nth_length_app.
  change (nth 0 (L "<" ++ tag ++ L ">" ++ post) 0%N) with (ch "<").
  change (N.eqb (to_char (ch "<")) (ch "<")) with true. cbv iota.
  unfold parse_markup, find_char. rewrite find_after.
  change (L "<" ++ tag ++ L ">" ++ post) with (ch "<" :: tag ++ ch ">" :: post).
  cbn [find_at prefixb]. change (N.eqb (ch ">") (ch "<")) with false. cbn [andb].
  rewrite find_at_skip by exact Hn.
  replace (S (length pre) + length tag) with (length pre + 1 + length tag) by lia.
  f_equal.
  unfold substr.
  replace (length pre + 1 + length tag - length pre - 1) with (length tag) by lia.
  replace (length pre + 1) with (length (pre ++ [ch "<"]))
    by (rewrite length_app; reflexivity).
  change (pre ++ ch "<" :: tag ++ ch ">" :: post)
    with (pre ++ [ch "<"] ++ tag ++ ch ">" :: post).
  rewrite app_assoc, skipn_length_app.
  apply firstn_length_app.
Qed.

Lemma ParseTag_no_space (tag : wstring) :
  ~ In (ch " ") tag -> ParseTag tag = (tag, []).
Proof.
  intros H. unfold ParseTag, find_char. now rewrite find_absent.
Qed.

(** A bare name that is not a raw-text tag opens an element. *)
Lemma parse_tag_open (html : wstring) (i e : nat) (n : wstring) (st : parser_state) :
  bare_name n -> mem n skip_tags = false ->
  parse_tag html i e n st
  = (st1 <- back_push_child st (Node ELEMENT n [] [] []) ;;
     Returns (e + 1, if mem n self_closing_tags then st1 else stack_push st1)).
Proof.
  intros (Hne & Hslash & Hcomment & Hspace & _) Hskip.
  unfold parse_tag. rewrite Hcomment, Hskip.
  apply N.eqb_neq in Hslash. rewrite Hslash. cbv zeta.
  rewrite ParseTag_no_space by exact Hspace. reflexivity.
Qed.

(** ** A name written with a trailing slash *)

Lemma last_snoc (s : wstring) (c : wchar) : last (s ++ [c]) 0%N = c.
Proof. apply last_last. Qed.

(** A name that ends in a slash is in none of the tables. *)
Lemma mem_slash (name : wstring) (table : list wstring) :
  forallb (fun t => negb (N.eqb (last t 0%N) (ch "/"))) table = true ->
  mem (name ++ L "/") table = false.
Proof.
  intros H. unfold mem. induction table as [|t table IH]; [reflexivity|].
  cbn [forallb] in H. apply andb_true_iff in H as [Ht H].
  cbn [existsb]. rewrite (IH H), orb_false_r.
  apply wstring_eqb_neq. intros E. rewrite <- E in Ht.
  change (L "/") with [ch "/"] in Ht. rewrite last_snoc, N.eqb_refl in Ht.
  discriminate.
Qed.

Lemma bare_name_slash (name : wstring) : bare_name name -> bare_name (name ++ L "/").
Proof.
  intros (Hne & Hslash & Hcomment & Hspace & Hgt).
  destruct name as [|a name]; [contradiction|].
  split; [discriminate|]. split; [exact Hslash|]. split; [|split].
  - destruct name as [|b [|c name]]; [| |exact Hcomment].
    + cbn. now rewrite andb_false_r.
    + cbn. now rewrite !andb_false_r.
  - intros H. apply in_app_or in H as [H|[H|[]]]; [now apply Hspace|discriminate].
  - intros H. apply in_app_or in H as [H|[H|[]]]; [now apply Hgt|discriminate].
Qed.

(** C10.  [<name/>] is read as an element whose name keeps the slash, which
    no void tag does: the element is pushed as an open element.  So
    [<div><br/></div>] fails with a mismatched closing tag and is returned
    unchanged, whereas in [<br />] the name is [br], a void tag. *)
Theorem C10_trailing_slash_kept_in_name :
  (forall name, ~ In (ch " ") name ->
                ParseTag (name ++ L "/") = (name ++ L "/", []))
  /\ (forall name, mem (name ++ L "/") self_closing_tags = false)
  /\ (forall order pre name post st,
         bare_name name ->
         parse_step order (pre ++ L "<" ++ name ++ L "/>" ++ post) (length pre) st
         = (st1 <- back_push_child st (Node ELEMENT (name ++ L "/") [] [] []) ;;
            Returns (length pre + length name + 3, stack_push st1)))
  /\ (forall order,
         ParseHTMLToAST order (L "<div><br/></div>") = Throws runtime_error
         /\ ConvertHTMLToMarkdown order (L "<div><br/></div>")
            = Returns (L "<div><br/></div>")
         /\ ParseHTMLToAST order (L "<div><br /></div>")
            = Returns (Node ROOT [] [] []
                            [Node ELEMENT (L "div") [] []
                                  [Node ELEMENT (L "br") [] [] []]])
         /\ ConvertHTMLToMarkdown order (L "<div><br /></div>") = Returns nl).
Proof.
  split; [|split; [|split]].
  - intros name Hspace. apply ParseTag_no_space.
    intros H. apply in_app_or in H as [H|[H|[]]]; [now apply Hspace|discriminate].
  - intros name. now apply mem_slash.
  - intros order pre name post st Hbare.
    replace (pre ++ L "<" ++ name ++ L "/>" ++ post)
      with (pre ++ L "<" ++ (name ++ L "/") ++ L ">" ++ post)
      by (now rewrite <- (app_assoc name)).
    apply bare_name_slash in Hbare as Hbare'.
    rewrite parse_step_tag by apply Hbare'.
    rewrite parse_tag_open; [|exact Hbare'|now apply mem_slash].
    rewrite mem_slash by reflexivity. rewrite length_app. cbn [length L map list_ascii_of_string].
    replace (length pre + 1 + (length name + 1) + 1) with (length pre + length name + 3)
      by lia.
    reflexivity.
  - intros order. repeat split; reflexivity.
Qed.

Lemma C10_trailing_slash_kept_in_name_witness :
  bare_name (L "br") /\ ~ In (ch " ") (L "br")
  /\ ParseTag (L "br/") = (L "br/", [])
  /\ parse_step html_entities (L "<div><br/></div>") 5
                (mk_state (Node ROOT [] [] [] [Node ELEMENT (L "div") [] [] []]) 2)
     = Returns (10, mk_state (Node ROOT [] [] []
                                   [Node ELEMENT (L "div") [] []
                                         [Node ELEMENT (L "br/") [] [] []]]) 3).
Proof.
  assert (Hbare : bare_name (L "br")).
  { repeat split; try discriminate; apply memb_false; reflexivity. }
  assert (Hspace : ~ In (ch " ") (L "br")) by (apply memb_false; reflexivity).
  destruct C10_trailing_slash_kept_in_name as (H1 & _ & H3 & _).
  split; [exact Hbare|]. split; [exact Hspace|]. split.
  - exact (H1 (L "br") Hspace).
  - exact (H3 html_entities (L "<div>") (L "br") (L "</div>")
              (mk_state (Node ROOT [] [] [] [Node ELEMENT (L "div") [] [] []]) 2)
              Hbare).
Defined.

(** ** Raw-text tags *)

(** Writes the wide literals of the goal out as lists of codes. *)
Ltac literals :=
  repeat match goal with
         | |- context [L ?s] =>
             let t := eval vm_compute in (L s) in change (L s) with t
         | |- context [ch ?a] =>
             let t := eval vm_compute in (ch a) in change (ch a) with t
         end.

Lemma find_at_shift (pat s : wstring) (i : nat) :
  find_at pat s i = option_map (fun p => i + p) (find_at pat s 0).
Proof.
  revert i; induction s as [|c s IH]; intros i; simpl.
  - destruct (prefixb pat []); simpl; [f_equal; lia|reflexivity].
  - destruct (prefixb pat (c :: s)); simpl; [f_equal; lia|].
    rewrite (IH (S i)), (IH 1). destruct (find_at pat s 0); simpl; [f_equal; lia|reflexivity].
Qed.

Lemma find_0 (s pat : wstring) : find s pat 0 = find_at pat s 0.
Proof. reflexivity. Qed.

(** The closing tag of a raw-text tag does not begin inside the opening
    tag: the search for it goes on in what follows. *)
Lemma find_closing_after_opening (pre tag post : wstring) :
  In tag skip_tags ->
  find (pre ++ L "<" ++ tag ++ L ">" ++ post) (closing_tag tag) (length pre)
  = option_map (fun p => length pre + length tag + 2 + p)
               (find post (closing_tag tag) 0).
Proof.
  intros Hin. rewrite find_after, find_0. unfold closing_tag.
  destruct Hin as [<-|[<-|[<-|[]]]]; literals; cbn [app];
    cbn [find_at prefixb N.eqb Pos.eqb andb];
    rewrite find_at_shift;
    destruct (find_at _ post 0); cbn [option_map length]; try reflexivity;
      f_equal; lia.
Qed.

Lemma parse_step_skip_tag (order : list (wstring * wstring)) (pre tag post : wstring)
      (st : parser_state) :
  In tag skip_tags ->
  parse_step order (pre ++ L "<" ++ tag ++ L ">" ++ post) (length pre) st
  = match find (pre ++ L "<" ++ tag ++ L ">" ++ post) (closing_tag tag) (length pre) with
    | None => Throws out_of_range
    | Some e => Returns (e + length (closing_tag tag), st)
    end.
Proof.
  intros Hin.
  assert (Hgt : ~ In (ch ">") tag).
  { destruct Hin as [<-|[<-|[<-|[]]]]; apply memb_false; reflexivity. }
  rewrite parse_step_tag by exact Hgt. unfold parse_tag.
  assert (Hc : wstring_eqb (substr tag 0 3) (L "!--") = false).
  { destruct Hin as [<-|[<-|[<-|[]]]]; reflexivity. }
  assert (Hs : mem tag skip_tags = true).
  { destruct Hin as [<-|[<-|[<-|[]]]]; reflexivity. }
  rewrite Hc, Hs. unfold closing_tag.
  destruct (find _ _ (length pre)) as [e|]; [|reflexivity].
  rewrite !length_app. cbn [length L map list_ascii_of_string].
  do 2 f_equal. lia.
Qed.

(** C8, as stated, fails: the name of the tag [<script type=x>] is
    [script], but the tag is not skipped: it becomes an element and its body
    is rendered. *)
Lemma C8_counterexample :
  ParseHTMLToAST html_entities (L "<script type=x>b</script>")
  = Returns (Node ROOT [] [] []
                  [Node ELEMENT (L "script") [] [(L "type", L "x")]
                        [Node TEXT [] (L "b") [] []]])
  /\ ConvertHTMLToMarkdown html_entities (L "<p>a</p><script type=x>b</script>")
     = Returns (nl ++ nl ++ L "a" ++ nl ++ L "b").
Proof. split; reflexivity. Qed.

(** ** Void elements *)

(** C9.  In the tree of a successful parse no element with the name of a
    void tag has a child; such an element is appended and not pushed, so
    the stack, whose size it leaves as it was, still ends in its parent. *)
Theorem C9_void_elements_have_no_children :
  (forall order html tree node,
      ParseHTMLToAST order html = Returns tree ->
      subnode node tree ->
      type node = ELEMENT -> mem (name node) self_closing_tags = true ->
      children node = [])
  /\ (forall html i e tag st r,
         wstring_eqb (substr tag 0 3) (L "!--") = false ->
         mem tag skip_tags = false ->
         nth 0 tag 0%N <> ch "/" ->
         mem (fst (ParseTag tag)) self_closing_tags = true ->
         parse_tag html i e tag st = Returns r ->
         fst r = e + 1 /\ stack_size (snd r) = stack_size st).
Proof.
  split.
  - intros order html tree node Hparse Hsub Hty Hvoid.
    unfold ParseHTMLToAST, parse_run in Hparse.
    destruct (parse_loop _ order html 0 initial_state) as [st| | |] eqn:E;
      try discriminate.
    injection Hparse as <-.
    apply parse_loop_ok in E as [Hroot _]; [|exact initial_state_ok].
    apply (void_childless_subnode node) in Hroot; [|exact Hsub].
    rewrite void_childless_eq in Hroot. apply andb_true_iff in Hroot as [H _].
    unfold is_void in H. rewrite Hty, Hvoid in H.
    destruct (children node); [reflexivity|discriminate].
  - intros html i e tag st r Hcomment Hskip Hslash Hvoid.
    unfold parse_tag. rewrite Hcomment, Hskip.
    apply N.eqb_neq in Hslash. rewrite Hslash. cbv zeta.
    destruct (ParseTag tag) as [tag_name attrs]. cbn [fst] in Hvoid.
    rewrite Hvoid. cbn [negb].
    unfold back_push_child. destruct (stack_size st) as [|d] eqn:Ed;
      [discriminate|].
    destruct (spine_push_back _ _ _); [|discriminate].
    cbn [bind]. intros [= <-]. split; reflexivity.
Qed.

Lemma C9_void_elements_have_no_children_witness :
  let br := Node ELEMENT (L "br") [] [] [] in
  let tree :=
    Node ROOT [] [] []
         [Node ELEMENT (L "p") [] []
               [Node TEXT [] (L "a") [] []; br; Node TEXT [] (L "b") [] []]] in
  ParseHTMLToAST html_entities (L "<p>a<br>b</p>") = Returns tree
  /\ subnode br tree
  /\ type br = ELEMENT /\ mem (name br) self_closing_tags = true
  /\ children br = [].
Proof.
  intros br tree.
  assert (Hparse : ParseHTMLToAST html_entities (L "<p>a<br>b</p>") = Returns tree)
    by reflexivity.
  assert (Hsub : subnode br tree).
  { apply subnode_below
      with (c := Node ELEMENT (L "p") [] []
                      [Node TEXT [] (L "a") [] []; br; Node TEXT [] (L "b") [] []]).
    - left. reflexivity.
    - apply subnode_below with (c := br); [right; left; reflexivity|constructor]. }
  split; [exact Hparse|]. split; [exact Hsub|]. split; [reflexivity|].
  split; [reflexivity|].
  exact (proj1 C9_void_elements_have_no_children
               html_entities (L "<p>a<br>b</p>") tree br Hparse Hsub
               eq_refl eq_refl).
Defined.

(** ** The end of the input *)

Lemma parse_loop_done (fuel : nat) (order : list (wstring * wstring))
      (html : wstring) (i : nat) (st : parser_state) :
  length html <= i -> parse_loop fuel order html i st = Returns st.
Proof.
  intros H. apply Nat.leb_le in H. destruct fuel; simpl; now rewrite H.
Qed.

Lemma parse_loop_turn (fuel : nat) (order : list (wstring * wstring))
      (html : wstring) (i : nat) (st : parser_state) :
  i < length html ->
  parse_loop (S fuel) order html i st
  = (r <- parse_step order html i st ;; parse_loop fuel order html (fst r) (snd r)).
Proof.
  intros H. apply Nat.leb_gt in H. simpl. now rewrite H.
Qed.

Lemma find_at_absent (c : wchar) (s : wstring) (i : nat) :
  ~ In c s -> find_at [c] s i = None.
Proof.
  intros H. rewrite find_at_shift, <- find_0, find_absent by exact H. reflexivity.
Qed.

(** A run of plain text that ends the input is read in one turn. *)
Lemma parse_step_last_text (order : list (wstring * wstring)) (pre text : wstring)
      (st : parser_state) :
  iteration_order order -> text <> [] -> plain_text text ->
  parse_step order (pre ++ text) (length pre) st
  = (st1 <- back_push_child st (Node TEXT [] text [] []) ;;
     Returns (length (pre ++ text), st1)).
Proof.
  intros Ho Hne [Hlt Hamp]. unfold parse_step. rewrite nth_length_app.
  destruct text as [|c text]; [contradiction|]. cbn [nth].
  replace (N.eqb (to_char c) (ch "<")) with false
    by (symmetry; apply N.eqb_neq, Hlt; now left).
  unfold parse_text, find_char. rewrite find_after, find_at_absent.
  - unfold substr. rewrite skipn_length_app, length_app.
    replace (length pre + length (c :: text) - length pre) with (length (c :: text))
      by lia.
    rewrite firstn_all, decode_entities_plain;
      [reflexivity|now apply iteration_order_keys_ampersand|exact Hamp].
  - intros Hin. apply Hlt in Hin. now apply Hin.
Qed.

(** C3, as stated, fails: at the end of [<div><p>text] two elements are
    still open (the stack holds the root and both), and the parse returns
    the tree. *)
Lemma C3_counterexample :
  let tree := Node ROOT [] [] []
                   [Node ELEMENT (L "div") [] []
                         [Node ELEMENT (L "p") [] []
                               [Node TEXT [] (L "text") [] []]]] in
  parse_run html_entities (L "<div><p>text") = Returns (mk_state tree 3)
  /\ ParseHTMLToAST html_entities (L "<div><p>text") = Returns tree.
Proof. split; reflexivity. Qed.

(** C3, amended.  Elements that are still open at the end of the input do
    not fail the parse: the loop has no check at the end of the input, it
    ends with whatever stack there is and the root is returned, the
    unclosed elements in it with the content read so far.  So is every
    input made of one opening tag and plain text after it. *)
Theorem C3_unclosed_elements_are_returned :
  (forall fuel order html i st,
      length html <= i -> parse_loop fuel order html i st = Returns st)
  /\ (forall order tag_name text,
         iteration_order order ->
         bare_name tag_name -> mem tag_name skip_tags = false ->
         mem tag_name self_closing_tags = false ->
         text <> [] -> plain_text text ->
         let tree := Node ROOT [] [] []
                          [Node ELEMENT tag_name [] [] [Node TEXT [] text [] []]] in
         parse_run order (L "<" ++ tag_name ++ L ">" ++ text) = Returns (mk_state tree 2)
         /\ ParseHTMLToAST order (L "<" ++ tag_name ++ L ">" ++ text) = Returns tree).
Proof.
  split; [exact parse_loop_done|].
  intros order tag_name text Ho Hbare Hskip Hvoid Hne Hplain tree.
  assert (Hrun : parse_run order (L "<" ++ tag_name ++ L ">" ++ text)
                 = Returns (mk_state tree 2)).
  { unfold parse_run.
    set (html := L "<" ++ tag_name ++ L ">" ++ text).
    assert (Hlen : length html = S (S (length tag_name + length text))).
    { unfold html. rewrite !length_app. cbn [length L map list_ascii_of_string]. lia. }
    destruct text as [|c text]; [contradiction|].
    cbn [length] in Hlen. rewrite Nat.add_succ_r in Hlen.
    set (opened := mk_state (Node ROOT [] [] [] [Node ELEMENT tag_name [] [] []]) 1).
    assert (E1 : back_push_child initial_state (Node ELEMENT tag_name [] [] [])
                 = Returns opened) by reflexivity.
    assert (E2 : back_push_child (stack_push opened) (Node TEXT [] (c :: text) [] [])
                 = Returns (mk_state tree 2)) by reflexivity.
    rewrite Hlen at 1.
    rewrite parse_loop_turn by lia.
    pose proof (parse_step_tag order [] tag_name (c :: text) initial_state
                               (proj2 (proj2 (proj2 (proj2 Hbare))))) as Hstep.
    cbn [length app] in Hstep. fold html in Hstep.
    rewrite Hstep, parse_tag_open, E1, Hvoid by assumption.
    cbn [bind fst snd].
    rewrite parse_loop_turn by lia.
    replace html with ((L "<" ++ tag_name ++ L ">") ++ c :: text)
      by (unfold html; now rewrite <- !app_assoc).
    replace (0 + 1 + length tag_name + 1) with (length (L "<" ++ tag_name ++ L ">"))
      by (rewrite !length_app; cbn [length L map list_ascii_of_string]; lia).
    rewrite parse_step_last_text, E2 by assumption.
    cbn [bind fst snd].
    rewrite parse_loop_done by lia. reflexivity. }
  split; [exact Hrun|]. unfold ParseHTMLToAST. now rewrite Hrun.
Qed.

Lemma C3_unclosed_elements_are_returned_witness :
  iteration_order html_entities /\ bare_name (L "p") /\ plain_text (L "text")
  /\ parse_run html_entities (L "<p>text")
     = Returns (mk_state (Node ROOT [] [] []
                               [Node ELEMENT (L "p") [] []
                                     [Node TEXT [] (L "text") [] []]]) 2).
Proof.
  assert (Ho : iteration_order html_entities) by apply Permutation_refl.
  assert (Hbare : bare_name (L "p")).
  { repeat split; try discriminate; apply memb_false; reflexivity. }
  assert (Hplain : plain_text (L "text")).
  { split; [|apply memb_false; reflexivity].
    intros c Hin. repeat (destruct Hin as [<-|Hin]; [discriminate|]). contradiction. }
  split; [exact Ho|]. split; [exact Hbare|]. split; [exact Hplain|].
  assert (Hne : L "text" <> []) by discriminate.
  exact (proj1 (proj2 C3_unclosed_elements_are_returned html_entities (L "p") (L "text")
                      Ho Hbare eq_refl eq_refl Hne Hplain)).
Defined.

(** ** Entity decoding *)

(** *** The loop of one entity is one scan *)

Lemma single_pass_skip (table : list (wstring * wstring)) (k : nat) (s : wstring) :
  single_pass table k s = single_pass table 0 (skipn k s).
Proof.
  revert k; induction s as [|c s IH]; intros [|k]; try reflexivity.
  simpl. apply IH.
Qed.

Lemma single_pass_match (table : list (wstring * wstring)) (entity : wstring * wstring)
      (s : wstring) :
  fst entity <> [] -> match_entity table s = Some entity ->
  single_pass table 0 s
  = snd entity ++ single_pass table 0 (skipn (length (fst entity)) s).
Proof.
  intros Hk Hm. destruct s as [|c s].
  - destruct table as [|e table]; [discriminate|].
    assert (Hp : prefixb (fst entity) [] = true).
    { revert Hm. clear. induction (e :: table) as [|x l IH]; simpl; [discriminate|].
      destruct (prefixb (fst x) []) eqn:E; [now intros [= <-]|exact IH]. }
    destruct (fst entity); [contradiction|discriminate].
  - cbn [single_pass]. rewrite Hm, single_pass_skip. f_equal.
    destruct (fst entity) as [|x k]; [contradiction|].
    cbn [length skipn]. replace (S (length k) - 1) with (length k) by lia.
    reflexivity.
Qed.

Lemma single_pass_copy (table : list (wstring * wstring)) (c : wchar) (s : wstring) :
  match_entity table (c :: s) = None ->
  single_pass table 0 (c :: s) = c :: single_pass table 0 s.
Proof. intros Hm. cbn [single_pass]. now rewrite Hm. Qed.

Lemma match_entity_one (entity : wstring * wstring) (s : wstring) :
  match_entity [entity] s = if prefixb (fst entity) s then Some entity else None.
Proof. reflexivity. Qed.

(** Up to the first occurrence the scan copies. *)
Lemma single_pass_find_at (entity : wstring * wstring) (s : wstring) (i : nat) :
  fst entity <> [] ->
  single_pass [entity] 0 s
  = match find_at (fst entity) s i with
    | None => s
    | Some p =>
        firstn (p - i) s ++ snd entity
               ++ single_pass [entity] 0 (skipn (p - i + length (fst entity)) s)
    end.
Proof.
  intros Hk. revert i; induction s as [|c s IH]; intros i.
  - cbn [find_at]. destruct (prefixb (fst entity) []) eqn:E; [|reflexivity].
    destruct (fst entity); [contradiction|discriminate].
  - cbn [find_at]. destruct (prefixb (fst entity) (c :: s)) eqn:E.
    + rewrite Nat.sub_diag. cbn [firstn app Nat.add].
      apply single_pass_match; [exact Hk|]. rewrite match_entity_one. now rewrite E.
    + rewrite single_pass_copy by (rewrite match_entity_one; now rewrite E).
      rewrite (IH (S i)). destruct (find_at (fst entity) s (S i)) as [p|] eqn:Ef;
        [|reflexivity].
      apply find_at_Some in Ef as (Hp & _).
      replace (p - i) with (S (p - S i)) by lia. reflexivity.
Qed.

Lemma firstn_firstn_skipn (A : Type) (n m : nat) (l : list A) :
  firstn n l ++ firstn m (skipn n l) = firstn (n + m) l.
Proof.
  revert l; induction n as [|n IH]; intros l; [reflexivity|].
  destruct l as [|x l]; [simpl; now rewrite firstn_nil|]. simpl. f_equal. apply IH.
Qed.

(** The [while] loop of one entity, from [pos] on, is the scan of what is
    left of the text. *)
Lemma replace_entity_scan (fuel : nat) (entity : wstring * wstring)
      (text : wstring) (pos : nat) :
  fst entity <> [] -> length text - pos <= fuel ->
  replace_entity fuel entity text pos
  = Returns (firstn pos text ++ single_pass [entity] 0 (skipn pos text)).
Proof.
  intros Hk. revert text pos; induction fuel as [|fuel IH]; intros text pos Hf.
  - assert (Hnone : find text (fst entity) pos = None).
    { destruct (find text (fst entity) pos) as [p|] eqn:E; [|reflexivity].
      apply find_Some in E as (H1 & H2 & _).
      destruct (fst entity); [contradiction|]. simpl in H2. lia. }
    rewrite replace_entity_absent by exact Hnone. f_equal.
    unfold find in Hnone. destruct (length text <? pos) eqn:El.
    + apply Nat.ltb_lt in El. rewrite skipn_all2, firstn_all2 by lia.
      now rewrite app_nil_r.
    + rewrite (single_pass_find_at entity (skipn pos text) pos Hk), Hnone.
      now rewrite firstn_skipn.
  - cbn [replace_entity].
    destruct (find text (fst entity) pos) as [p|] eqn:E.
    + pose proof E as E'. apply find_Some in E' as (H1 & H2 & _).
      assert (Hlen : 0 < length (fst entity)).
      { destruct (fst entity); [contradiction|simpl; lia]. }
      rewrite IH by (rewrite replace_length by lia; lia).
      f_equal. unfold find in E.
      destruct (length text <? pos) eqn:El; [discriminate|].
      rewrite (single_pass_find_at entity (skipn pos text) pos Hk), E.
      rewrite !app_assoc, firstn_firstn_skipn.
      replace (pos + (p - pos)) with p by lia.
      rewrite skipn_skipn.
      replace (p - pos + length (fst entity) + pos) with (p + length (fst entity))
        by lia.
      unfold replace.
      assert (Hp : length (firstn p text) = p) by (rewrite length_firstn; lia).
      rewrite app_assoc.
      replace (p + length (snd entity))
        with (length (firstn p text ++ snd entity))
        by (rewrite length_app, Hp; reflexivity).
      now rewrite firstn_length_app, skipn_length_app.
    + f_equal. unfold find in E. destruct (length text <? pos) eqn:El.
      * apply Nat.ltb_lt in El. rewrite skipn_all2, firstn_all2 by lia.
        now rewrite app_nil_r.
      * rewrite (single_pass_find_at entity (skipn pos text) pos Hk), E.
        now rewrite firstn_skipn.
Qed.

(** [decode_entities] is one scan per entity, in the iteration order. *)
Lemma decode_entities_scan_each (order : list (wstring * wstring)) (text : wstring) :
  keys_nonempty order -> decode_entities order text = Returns (scan_each order text).
Proof.
  intros Hk. unfold decode_entities, scan_each. revert text.
  induction Hk as [|entity order He _ IH]; intros text; [reflexivity|].
  cbn [fold_left bind]. rewrite replace_entity_scan by (try exact He; lia).
  cbn [firstn app skipn]. apply IH.
Qed.

(** *** The spellings and the characters of the table *)

Lemma table_key_shape (entity : wstring * wstring) :
  In entity html_entities ->
  exists k, fst entity = ch "&" :: k /\ ~ In (ch "&") k.
Proof.
  intros Hin.
  repeat (destruct Hin as [<-|Hin];
          [eexists; split; [reflexivity|apply memb_false; reflexivity]|]).
  contradiction.
Qed.

Lemma table_value_shape (entity : wstring * wstring) :
  In entity html_entities -> entity <> amp_entity ->
  exists v, snd entity = [v] /\ v <> ch "&"
            /\ forall other, In other html_entities -> ~ In v (fst other).
Proof.
  intros Hin Hamp.
  repeat (destruct Hin as [<-|Hin];
          [first
             [ now contradiction Hamp
             | eexists; split; [reflexivity|]; split; [discriminate|];
               intros other Ho;
               repeat (destruct Ho as [<-|Ho]; [apply memb_false; reflexivity|]);
               contradiction ]|]).
  contradiction.
Qed.

Lemma table_prefix_free : prefix_free html_entities.
Proof.
  intros e1 e2 H1 H2.
  repeat (destruct H1 as [<-|H1];
          [repeat (destruct H2 as [<-|H2];
                   [first [reflexivity|discriminate]|]);
           contradiction|]).
  contradiction.
Qed.

Lemma table_key_nonempty (entity : wstring * wstring) :
  In entity html_entities -> fst entity <> [].
Proof. intros H. destruct (table_key_shape entity H) as (k & -> & _). discriminate. Qed.

(** *** Which entity matches *)

Lemma match_entity_Some (table : list (wstring * wstring)) (s : wstring)
      (entity : wstring * wstring) :
  match_entity table s = Some entity ->
  In entity table /\ prefixb (fst entity) s = true.
Proof.
  induction table as [|e table IH]; simpl; [discriminate|].
  destruct (prefixb (fst e) s) eqn:E.
  - intros [= <-]. split; [now left|exact E].
  - intros H. apply IH in H as [H1 H2]. split; [now right|exact H2].
Qed.

Lemma match_entity_None (table : list (wstring * wstring)) (s : wstring) :
  match_entity table s = None <->
  forall entity, In entity table -> prefixb (fst entity) s = false.
Proof.
  induction table as [|e table IH]; simpl.
  - split; [intros _ entity []|reflexivity].
  - destruct (prefixb (fst e) s) eqn:E; split.
    + discriminate.
    + intros H. specialize (H e (or_introl eq_refl)). congruence.
    + intros H entity [<-|Hin]; [exact E|]. now apply IH.
    + intros H. apply IH. intros entity Hin. apply H. now right.
Qed.

(** Two strings that both begin [s]: one begins the other. *)
Lemma prefixb_comparable (a b s : wstring) :
  prefixb a s = true -> prefixb b s = true ->
  prefixb a b = true \/ prefixb b a = true.
Proof.
  revert b s; induction a as [|x a IH]; intros b s Ha Hb; [now left|].
  destruct b as [|y b]; [now right|].
  destruct s as [|z s]; [discriminate|].
  simpl in *. apply andb_true_iff in Ha as [Hx Ha]. apply andb_true_iff in Hb as [Hy Hb].
  apply N.eqb_eq in Hx, Hy. subst. rewrite N.eqb_refl. simpl. eapply IH; eassumption.
Qed.

(** In a table where no spelling begins another, the entity that matches
    is the only one whose spelling begins the text. *)
Lemma match_entity_unique (table sub : list (wstring * wstring)) (s : wstring)
      (entity : wstring * wstring) :
  prefix_free table -> incl sub table ->
  In entity sub -> prefixb (fst entity) s = true ->
  match_entity sub s = Some entity.
Proof.
  intros Hfree. induction sub as [|e sub IH]; intros Hincl Hin Hp; [contradiction|].
  simpl. destruct (prefixb (fst e) s) eqn:E.
  - f_equal.
    assert (He : In e table) by (apply Hincl; now left).
    assert (Hentity : In entity table) by (apply Hincl, Hin).
    destruct (prefixb_comparable _ _ _ E Hp) as [H|H].
    + now apply Hfree.
    + symmetry. now apply Hfree.
  - destruct Hin as [->|Hin]; [congruence|].
    apply IH; [|exact Hin|exact Hp]. intros x Hx. apply Hincl. now right.
Qed.

(** *** A scan after a scan *)

(** A character that begins no spelling is copied. *)
Lemma single_pass_other_start (table : list (wstring * wstring)) (v : wchar)
      (s : wstring) :
  incl table html_entities -> v <> ch "&" ->
  single_pass table 0 (v :: s) = v :: single_pass table 0 s.
Proof.
  intros Hincl Hv. apply single_pass_copy, match_entity_None.
  intros entity Hin. destruct (table_key_shape entity (Hincl _ Hin)) as (k & -> & _).
  cbn [prefixb]. destruct (N.eqb (ch "&") v) eqn:E; [|reflexivity].
  apply N.eqb_eq in E. congruence.
Qed.

(** A stretch without ampersand is copied. *)
Lemma single_pass_copy_run (table : list (wstring * wstring)) (w s : wstring) :
  incl table html_entities -> ~ In (ch "&") w ->
  single_pass table 0 (w ++ s) = w ++ single_pass table 0 s.
Proof.
  intros Hincl. induction w as [|x w IH]; intros Hw; [reflexivity|].
  simpl in Hw. cbn [app]. rewrite single_pass_other_start; [|exact Hincl|tauto].
  f_equal. apply IH. tauto.
Qed.

(** What a scan leaves at the head of its result, when the character of
    the entity is not in it, stood at the head of the text. *)
Lemma prefixb_single_pass (entity : wstring * wstring) (v : wchar) (w s : wstring) :
  fst entity <> [] -> snd entity = [v] -> ~ In v w ->
  prefixb w (single_pass [entity] 0 s) = true -> prefixb w s = true.
Proof.
  intros Hk Hv. revert s; induction w as [|x w IH]; intros s Hw Hp; [reflexivity|].
  simpl in Hw. destruct s as [|c s]; [discriminate|].
  destruct (prefixb (fst entity) (c :: s)) eqn:Ee.
  - rewrite (single_pass_match [entity] entity (c :: s) Hk) in Hp
      by (rewrite match_entity_one; now rewrite Ee).
    rewrite Hv in Hp. cbn [app prefixb] in Hp. apply andb_true_iff in Hp as [Hx _].
    apply N.eqb_eq in Hx. exfalso. apply Hw. now left.
  - rewrite single_pass_copy in Hp by (rewrite match_entity_one; now rewrite Ee).
    cbn [prefixb] in *.
    apply andb_true_iff in Hp as [Hx Hp]. rewrite Hx. cbn [andb].
    apply IH; [tauto|exact Hp].
Qed.

(** The scan of a table after the scan of one more entity, whose character
    is not the ampersand, is the scan of both together. *)
Lemma single_pass_compose (entity : wstring * wstring) (table : list (wstring * wstring)) :
  In entity html_entities -> entity <> amp_entity -> incl table html_entities ->
  forall s, single_pass table 0 (single_pass [entity] 0 s)
            = single_pass (entity :: table) 0 s.
Proof.
  intros Hin Hamp Hincl.
  destruct (table_key_shape entity Hin) as (ke & Hke & _).
  destruct (table_value_shape entity Hin Hamp) as (v & Hv & Hv38 & Hvkeys).
  pose proof (table_key_nonempty entity Hin) as Hk.
  assert (Hone : incl [entity] html_entities) by (intros x [<-|[]]; exact Hin).
  intros s. remember (length s) as n eqn:Hn.
  assert (Hlen : length s <= n) by lia. clear Hn.
  revert s Hlen; induction n as [|n IH]; intros s Hlen.
  { destruct s; [reflexivity|simpl in Hlen; lia]. }
  destruct s as [|c r]; [reflexivity|].
  destruct (prefixb (fst entity) (c :: r)) eqn:Ee.
  - (* the new entity matches here *)
    rewrite (single_pass_match [entity] entity (c :: r) Hk)
      by (rewrite match_entity_one; now rewrite Ee).
    rewrite (single_pass_match (entity :: table) entity (c :: r) Hk)
      by (simpl; now rewrite Ee).
    rewrite Hv. cbn [app]. rewrite single_pass_other_start by assumption.
    f_equal. apply IH. rewrite length_skipn.
    destruct (fst entity); [contradiction|]. simpl in *. lia.
  - destruct (match_entity table (c :: r)) as [other|] eqn:Em.
    + (* an entity of the table matches here *)
      apply match_entity_Some in Em as Em'. destruct Em' as [Ho Hp].
      pose proof (table_key_nonempty other (Hincl _ Ho)) as Hko.
      destruct (table_key_shape other (Hincl _ Ho)) as (ko & Hkeyo & Hnoamp).
      rewrite (single_pass_match (entity :: table) other (c :: r) Hko)
        by (simpl; now rewrite Ee).
      set (rest := skipn (length (fst other)) (c :: r)).
      assert (Hs : c :: r = fst other ++ rest) by apply (prefixb_true _ _ Hp).
      assert (Hscan : single_pass [entity] 0 (c :: r)
                      = fst other ++ single_pass [entity] 0 rest).
      { rewrite Hs at 1. revert Hs. rewrite Hkeyo. cbn [app]. intros Hs.
        rewrite single_pass_copy
          by (rewrite match_entity_one, <- Hs; now rewrite Ee).
        now rewrite single_pass_copy_run by assumption. }
      rewrite Hscan, (single_pass_match table other _ Hko).
      * rewrite skipn_length_app. f_equal. apply IH. unfold rest.
        rewrite length_skipn.
        destruct (fst other); [contradiction|]. simpl in *. lia.
      * apply match_entity_unique with (table := html_entities);
          [exact table_prefix_free|exact Hincl|exact Ho|apply prefixb_app].
    + (* no entity matches here *)
      rewrite (single_pass_copy (entity :: table)) by (simpl; now rewrite Ee).
      rewrite single_pass_copy by (rewrite match_entity_one; now rewrite Ee).
      rewrite single_pass_copy.
      * f_equal. apply IH. simpl in Hlen. lia.
      * apply match_entity_None. intros other Ho.
        destruct (table_key_shape other (Hincl _ Ho)) as (ko & Hkeyo & _).
        destruct (prefixb (fst other) (c :: single_pass [entity] 0 r)) eqn:Ep;
          [|reflexivity].
        exfalso. rewrite Hkeyo in Ep. simpl in Ep.
        apply andb_true_iff in Ep as [Hc Ep].
        apply (prefixb_single_pass entity v ko r Hk Hv) in Ep.
        -- rewrite match_entity_None in Em. specialize (Em other Ho).
           rewrite Hkeyo in Em. simpl in Em. now rewrite Hc, Ep in Em.
        -- intros Hvin. apply (Hvkeys other (Hincl _ Ho)). rewrite Hkeyo. now right.
Qed.

(** *** The iteration as a whole *)

Lemma html_entities_NoDup : NoDup html_entities.
Proof.
  repeat (constructor;
          [intros H; repeat (destruct H as [H|H]; [discriminate|]); contradiction|]).
  constructor.
Qed.

Lemma iteration_order_NoDup (order : list (wstring * wstring)) :
  iteration_order order -> NoDup order.
Proof. intros H. eapply Permutation_NoDup; [exact H|exact html_entities_NoDup]. Qed.

Lemma iteration_order_keys_nonempty (order : list (wstring * wstring)) :
  iteration_order order -> keys_nonempty order.
Proof. intros H. now apply keys_ampersand_nonempty, iteration_order_keys_ampersand. Qed.

Lemma scan_each_app (l1 l2 : list (wstring * wstring)) (text : wstring) :
  scan_each (l1 ++ l2) text = scan_each l2 (scan_each l1 text).
Proof. apply fold_left_app. Qed.

Lemma scan_each_fixed (l : list (wstring * wstring)) (text : wstring) :
  (forall entity, In entity l -> single_pass [entity] 0 text = text) ->
  scan_each l text = text.
Proof.
  induction l as [|e l IH]; intros H; [reflexivity|].
  unfold scan_each. cbn [fold_left]. rewrite (H e (or_introl eq_refl)).
  apply IH. intros entity Hin. apply H. now right.
Qed.

(** With the ampersand last, the scans in turn are one scan of the whole
    order. *)
Lemma scan_each_ampersand_last (l : list (wstring * wstring)) :
  incl l html_entities -> ~ In amp_entity l ->
  forall text, scan_each (l ++ [amp_entity]) text
               = single_pass (l ++ [amp_entity]) 0 text.
Proof.
  induction l as [|e l IH]; intros Hincl Hamp text; [reflexivity|].
  cbn [app]. change (scan_each (e :: l ++ [amp_entity]) text)
    with (scan_each (l ++ [amp_entity]) (single_pass [e] 0 text)).
  rewrite IH.
  - apply single_pass_compose.
    + apply Hincl. now left.
    + intros ->. apply Hamp. now left.
    + intros x Hx. apply in_app_or in Hx as [Hx|[<-|[]]].
      * apply Hincl. now right.
      * right. right. now left.
  - intros x Hx. apply Hincl. now right.
  - intros H. apply Hamp. now right.
Qed.

(** The scan does not depend on how the table is ordered. *)
Lemma match_entity_order (order : list (wstring * wstring)) (s : wstring) :
  iteration_order order -> match_entity order s = match_entity html_entities s.
Proof.
  intros Ho. destruct (match_entity html_entities s) as [e|] eqn:E.
  - apply match_entity_Some in E as [Hin Hp].
    apply match_entity_unique with (table := html_entities);
      [exact table_prefix_free| |eapply Permutation_in; eassumption|exact Hp].
    intros x Hx. now apply (iteration_order_In order Ho).
  - apply match_entity_None. intros entity Hin.
    rewrite match_entity_None in E. apply E. now apply (iteration_order_In order Ho).
Qed.

Lemma single_pass_order (order : list (wstring * wstring)) (k : nat) (s : wstring) :
  iteration_order order -> single_pass order k s = single_pass html_entities k s.
Proof.
  intros Ho. revert k; induction s as [|c s IH]; intros k; [reflexivity|].
  cbn [single_pass]. destruct k as [|k]; [|apply IH].
  rewrite (match_entity_order order (c :: s) Ho).
  destruct (match_entity html_entities (c :: s)); now rewrite IH.
Qed.

Lemma NoDup_last_not_in (A : Type) (l : list A) (a : A) : NoDup (l ++ [a]) -> ~ In a l.
Proof.
  intros H Hin. apply NoDup_remove_2 in H. apply H. rewrite app_nil_r. exact Hin.
Qed.

(** With [&amp;] last in the iteration, the decoding is the single scan. *)
Lemma decode_entities_ampersand_last (order : list (wstring * wstring))
      (text : wstring) :
  iteration_order order -> scanned_last amp_entity order ->
  decode_entities order text = Returns (decode_single_pass text).
Proof.
  intros Ho [l Hl].
  rewrite decode_entities_scan_each by now apply iteration_order_keys_nonempty.
  f_equal. unfold decode_single_pass. rewrite <- (single_pass_order order 0 text Ho).
  subst order. apply scan_each_ampersand_last.
  - intros x Hx. apply (iteration_order_In _ Ho). apply in_or_app. now left.
  - apply NoDup_last_not_in. now apply iteration_order_NoDup.
Qed.

(** *** The texts [&amp;lt;] and the like *)

(** How the scan of [x] acts on the three texts that lead from
    [rematch_text entity] to the character of [entity]. *)
Lemma scan_rematch_text (entity x : wstring * wstring) :
  In entity html_entities -> In x html_entities -> entity <> amp_entity ->
  (x <> amp_entity -> x <> entity ->
   single_pass [x] 0 (rematch_text entity) = rematch_text entity
   /\ single_pass [x] 0 (fst entity) = fst entity
   /\ single_pass [x] 0 (snd entity) = snd entity)
  /\ single_pass [amp_entity] 0 (rematch_text entity) = fst entity
  /\ single_pass [amp_entity] 0 (fst entity) = fst entity
  /\ single_pass [amp_entity] 0 (snd entity) = snd entity
  /\ single_pass [entity] 0 (rematch_text entity) = rematch_text entity
  /\ single_pass [entity] 0 (fst entity) = snd entity
  /\ single_pass [entity] 0 (snd entity) = snd entity
  /\ decode_single_pass (rematch_text entity) = fst entity
  /\ fst entity <> snd entity.
Proof.
  intros He Hx Hamp.
  repeat (destruct He as [<-|He];
          [first
             [ now contradiction Hamp
             | split;
               [ intros Hxa Hxe;
                 repeat (destruct Hx as [<-|Hx];
                         [first [now contradiction Hxa|now contradiction Hxe
                                |repeat split; reflexivity]|]);
                 contradiction
               | repeat split; try reflexivity; discriminate ] ]|]).
  contradiction.
Qed.

Lemma NoDup_two (A : Type) (l1 l2 l3 : list A) (a b : A) :
  NoDup (l1 ++ a :: l2 ++ b :: l3) ->
  a <> b /\ forall x, In x l1 \/ In x l2 \/ In x l3 -> x <> a /\ x <> b.
Proof.
  intros H.
  pose proof (NoDup_remove_2 _ _ _ H) as Ha.
  replace (l1 ++ a :: l2 ++ b :: l3) with ((l1 ++ a :: l2) ++ b :: l3) in H
    by (rewrite <- app_assoc; reflexivity).
  pose proof (NoDup_remove_2 _ _ _ H) as Hb.
  split.
  - intros ->. apply Ha. rewrite !in_app_iff. simpl. tauto.
  - intros x Hx. split; intros ->.
    + apply Ha. rewrite !in_app_iff. simpl. tauto.
    + apply Hb. rewrite !in_app_iff. simpl. tauto.
Qed.

(** The entities other than [&amp;] and [entity] leave the three texts as
    they are. *)
Lemma scan_each_others (l : list (wstring * wstring)) (entity : wstring * wstring)
      (text : wstring) :
  In entity html_entities -> entity <> amp_entity ->
  (forall x, In x l -> In x html_entities /\ x <> amp_entity /\ x <> entity) ->
  text = rematch_text entity \/ text = fst entity \/ text = snd entity ->
  scan_each l text = text.
Proof.
  intros He Hamp Hl Ht. apply scan_each_fixed. intros x Hin.
  destruct (Hl x Hin) as (Hx & Hxa & Hxe).
  destruct (scan_rematch_text entity x He Hx Hamp) as (H & _).
  destruct (H Hxa Hxe) as (H1 & H2 & H3).
  destruct Ht as [-> | [-> | ->]]; assumption.
Qed.

Lemma scan_each_cons (x : wstring * wstring) (l : list (wstring * wstring))
      (text : wstring) :
  scan_each (x :: l) text = scan_each l (single_pass [x] 0 text).
Proof. reflexivity. Qed.

(** [&amp;] before [entity]: the output of [&amp;] is decoded again. *)
Lemma scan_each_ampersand_first (order l1 l2 l3 : list (wstring * wstring))
      (entity : wstring * wstring) :
  iteration_order order -> order = l1 ++ amp_entity :: l2 ++ entity :: l3 ->
  scan_each order (rematch_text entity) = snd entity.
Proof.
  intros Ho Hl. pose proof (iteration_order_NoDup order Ho) as Hnd.
  rewrite Hl in Hnd. apply NoDup_two in Hnd as [Hne Hnd].
  assert (He : In entity html_entities).
  { apply (iteration_order_In order Ho). rewrite Hl, !in_app_iff. simpl.
    rewrite in_app_iff. simpl. tauto. }
  assert (Hamp : entity <> amp_entity) by congruence.
  assert (Hothers : forall l, (forall x, In x l -> In x l1 \/ In x l2 \/ In x l3) ->
                              forall x, In x l ->
                                        In x html_entities /\ x <> amp_entity /\ x <> entity).
  { intros l Hsub x Hx. split; [|now apply Hnd, Hsub].
    apply (iteration_order_In order Ho). rewrite Hl, !in_app_iff. simpl.
    rewrite in_app_iff. simpl. destruct (Hsub x Hx) as [H|[H|H]]; tauto. }
  destruct (scan_rematch_text entity entity He He Hamp)
    as (_ & Ha1 & _ & _ & _ & He2 & _).
  rewrite Hl, scan_each_app, scan_each_cons, scan_each_app, scan_each_cons.
  rewrite (scan_each_others l1 entity) by (auto; apply Hothers; tauto).
  rewrite Ha1.
  rewrite (scan_each_others l2 entity) by (auto; apply Hothers; tauto).
  rewrite He2.
  now rewrite (scan_each_others l3 entity) by (auto; apply Hothers; tauto).
Qed.

(** [entity] before [&amp;]: the output of [&amp;] stays. *)
Lemma scan_each_ampersand_second (order l1 l2 l3 : list (wstring * wstring))
      (entity : wstring * wstring) :
  iteration_order order -> order = l1 ++ entity :: l2 ++ amp_entity :: l3 ->
  scan_each order (rematch_text entity) = fst entity.
Proof.
  intros Ho Hl. pose proof (iteration_order_NoDup order Ho) as Hnd.
  rewrite Hl in Hnd. apply NoDup_two in Hnd as [Hne Hnd].
  assert (He : In entity html_entities).
  { apply (iteration_order_In order Ho). rewrite Hl, !in_app_iff. simpl. tauto. }
  assert (Hothers : forall l, (forall x, In x l -> In x l1 \/ In x l2 \/ In x l3) ->
                              forall x, In x l ->
                                        In x html_entities /\ x <> amp_entity /\ x <> entity).
  { intros l Hsub x Hx. split; [|split; now apply Hnd, Hsub].
    apply (iteration_order_In order Ho). rewrite Hl, !in_app_iff. simpl.
    rewrite in_app_iff. simpl. destruct (Hsub x Hx) as [H|[H|H]]; tauto. }
  destruct (scan_rematch_text entity entity He He Hne)
    as (_ & Ha1 & Ha2 & _ & He1 & _).
  rewrite Hl, scan_each_app, scan_each_cons, scan_each_app, scan_each_cons.
  rewrite (scan_each_others l1 entity) by (auto; apply Hothers; tauto).
  rewrite He1.
  rewrite (scan_each_others l2 entity) by (auto; apply Hothers; tauto).
  rewrite Ha1.
  now rewrite (scan_each_others l3 entity) by (auto; apply Hothers; tauto).
Qed.

(** C4, as stated, fails.  In the order in which the table is written,
    [&amp;] is scanned before [&lt;] and [&amp;lt;] is decoded twice, to
    [<]; in the reverse order, [&amp;quot;] is decoded twice.  The single
    scan of the specification gives [&lt;] and [&quot;]. *)
Lemma C4_counterexample :
  decode_entities html_entities (L "&amp;lt;") = Returns (L "<")
  /\ decode_single_pass (L "&amp;lt;") = L "&lt;"
  /\ ParseHTMLToAST html_entities (L "<p>&amp;lt;</p>")
     = Returns (Node ROOT [] [] []
                     [Node ELEMENT (L "p") [] [] [Node TEXT [] (L "<") [] []]])
  /\ decode_entities (rev html_entities) (L "&amp;quot;") = Returns [dquote]
  /\ decode_single_pass (L "&amp;quot;") = L "&quot;".
Proof. repeat split; reflexivity. Qed.

(** C4, amended.  A text run is decoded by one left-to-right scan with
    non-overlapping replacements per entity, the entities taken in the
    iteration order of the table, which the language leaves open.  The
    result is that of a single scan, for every text, exactly when [&amp;] is
    the last entity taken; the output of [&amp;] is otherwise matched again
    by an entity taken after it.  [&amp;lt;] decodes to [&lt;] when [&lt;]
    is taken before [&amp;], and to [<] when it is taken after. *)
Theorem C4_decoding_depends_on_iteration_order :
  forall order,
    iteration_order order ->
    ((forall text, decode_entities order text = Returns (decode_single_pass text))
     <-> scanned_last amp_entity order)
    /\ (scanned_before lt_entity amp_entity order ->
        decode_entities order (L "&amp;lt;") = Returns (L "&lt;"))
    /\ (scanned_before amp_entity lt_entity order ->
        decode_entities order (L "&amp;lt;") = Returns (L "<")).
Proof.
  intros order Ho.
  pose proof (iteration_order_keys_nonempty order Ho) as Hk.
  split; [|split].
  - split.
    + intros Hall.
      assert (Hin : In amp_entity order).
      { eapply Permutation_in; [exact Ho|]. right. right. now left. }
      apply in_split in Hin as (l1 & l' & Hl).
      destruct l' as [|entity l3]; [now exists l1|].
      exfalso.
      pose proof (scan_each_ampersand_first order l1 [] l3 entity Ho Hl) as Hscan.
      assert (He : In entity html_entities).
      { apply (iteration_order_In order Ho). rewrite Hl, in_app_iff. simpl. tauto. }
      assert (Hamp : entity <> amp_entity).
      { pose proof (iteration_order_NoDup order Ho) as Hnd. rewrite Hl in Hnd.
        apply (NoDup_two _ l1 [] l3) in Hnd as [Hne _]. congruence. }
      destruct (scan_rematch_text entity entity He He Hamp)
        as (_ & _ & _ & _ & _ & _ & _ & Hsingle & Hdiff).
      specialize (Hall (rematch_text entity)).
      rewrite decode_entities_scan_each, Hscan, Hsingle in Hall by exact Hk.
      injection Hall as Hall. congruence.
    + intros Hlast text. now apply decode_entities_ampersand_last.
  - intros (l1 & l2 & l3 & Hl).
    rewrite decode_entities_scan_each by exact Hk. f_equal.
    exact (scan_each_ampersand_second order l1 l2 l3 lt_entity Ho Hl).
  - intros (l1 & l2 & l3 & Hl).
    rewrite decode_entities_scan_each by exact Hk. f_equal.
    exact (scan_each_ampersand_first order l1 l2 l3 lt_entity Ho Hl).
Qed.

Lemma C4_decoding_depends_on_iteration_order_witness :
  let order := [ (L "&gt;", L ">"); (L "&nbsp;", L " "); lt_entity;
                 (L "&apos;", L "'"); (L "&quot;", [dquote]); amp_entity ] in
  iteration_order order
  /\ scanned_last amp_entity order
  /\ scanned_before lt_entity amp_entity order
  /\ (forall text, decode_entities order text = Returns (decode_single_pass text))
  /\ decode_entities order (L "&amp;lt;") = Returns (L "&lt;").
Proof.
  intros order.
  assert (Ho : iteration_order order).
  { apply NoDup_Permutation.
    - exact html_entities_NoDup.
    - repeat (constructor;
              [intros H; repeat (destruct H as [H|H]; [discriminate|]); contradiction|]).
      constructor.
    - intros x. split; intros Hx;
        repeat (destruct Hx as [<-|Hx]; [simpl; tauto|]); contradiction. }
  assert (Hlast : scanned_last amp_entity order).
  { now exists [ (L "&gt;", L ">"); (L "&nbsp;", L " "); lt_entity;
                 (L "&apos;", L "'"); (L "&quot;", [dquote]) ]. }
  assert (Hbefore : scanned_before lt_entity amp_entity order).
  { now exists [ (L "&gt;", L ">"); (L "&nbsp;", L " ") ],
               [ (L "&apos;", L "'"); (L "&quot;", [dquote]) ], []. }
  destruct (C4_decoding_depends_on_iteration_order order Ho) as (H1 & H2 & _).
  split; [exact Ho|]. split; [exact Hlast|]. split; [exact Hbefore|].
  split; [exact (proj2 H1 Hlast)|exact (H2 Hbefore)].
Defined.

(** * Further properties of the code *)

(** ** Trim *)

Lemma find_first_not_of_None (s : wstring) (i : nat) :
  find_first_not_of s i = None -> forallb trim_space s = true.
Proof.
  revert i; induction s as [|c s IH]; intros i; simpl; [reflexivity|].
  destruct (trim_space c); [apply IH|discriminate].
Qed.

Lemma find_first_not_of_Some (s : wstring) (i p : nat) :
  find_first_not_of s i = Some p ->
  exists a c r, s = a ++ c :: r /\ p = i + length a
                /\ forallb trim_space a = true /\ trim_space c = false.
Proof.
  revert i; induction s as [|c s IH]; intros i; simpl; [discriminate|].
  destruct (trim_space c) eqn:E.
  - intros H. apply IH in H as (a & c' & r & -> & -> & Ha & Hc).
    exists (c :: a), c', r. simpl. rewrite E, Ha. repeat split; try assumption. lia.
  - intros [= <-]. exists [], c, s. simpl. repeat split; try assumption. lia.
Qed.

Lemma find_last_not_of_Some (s : wstring) (i q : nat) :
  find_last_not_of s i = Some q ->
  exists a c b, s = a ++ c :: b /\ q = i + length a
                /\ trim_space c = false /\ forallb trim_space b = true.
Proof.
  revert i; induction s as [|c s IH]; intros i; simpl; [discriminate|].
  destruct (find_last_not_of s (S i)) as [j|] eqn:E.
  - intros [= <-]. apply IH in E as (a & c' & b & -> & -> & Hc & Hb).
    exists (c :: a), c', b. simpl. repeat split; try assumption. lia.
  - destruct (trim_space c) eqn:Ec; [discriminate|]. intros [= <-].
    exists [], c, s. simpl. repeat split; try assumption; [lia|].
    clear IH. revert E. generalize (S i). induction s as [|x s IHs]; intros k;
      simpl; [reflexivity|].
    destruct (find_last_not_of s (S k)) eqn:E; [discriminate|].
    destruct (trim_space x); [intros _; now apply (IHs (S k))|discriminate].
Qed.

Lemma find_last_not_of_snoc (l : wstring) (c : wchar) (i : nat) :
  trim_space c = false -> find_last_not_of (l ++ [c]) i = Some (i + length l).
Proof.
  intros Hc. revert i; induction l as [|x l IH]; intros i; simpl.
  - rewrite Hc. f_equal. lia.
  - rewrite IH. f_equal. lia.
Qed.

(** What [Trim] cuts out of a string that has a character to keep. *)
Lemma Trim_split (s : wstring) :
  forallb trim_space s = false ->
  exists a l c b,
    s = a ++ (l ++ [c]) ++ b /\ Trim s = l ++ [c]
    /\ forallb trim_space a = true /\ forallb trim_space b = true
    /\ trim_space (hd c l) = false /\ trim_space c = false.
Proof.
  intros Hs. unfold Trim.
  destruct (find_first_not_of s 0) as [first|] eqn:Ef.
  2: { apply find_first_not_of_None in Ef. congruence. }
  apply find_first_not_of_Some in Ef as (a & c & r & Hs1 & -> & Ha & Hc).
  destruct (find_last_not_of s 0) as [last|] eqn:El.
  2: { exfalso. rewrite Hs1 in El. clear - El Hc.
       revert El. generalize 0. induction a as [|x a IH]; intros k; simpl.
       - destruct (find_last_not_of r (S k)); [discriminate|]. now rewrite Hc.
       - destruct (find_last_not_of (a ++ c :: r) (S k)) eqn:E; [discriminate|].
         now apply IH in E. }
  apply find_last_not_of_Some in El as (a2 & c2 & b & Hs2 & -> & Hc2 & Hb).
  assert (Hl : exists l, a2 = a ++ l /\ c :: r = l ++ c2 :: b).
  { rewrite Hs1 in Hs2. apply app_eq_app in Hs2 as [l [[H1 H2]|[H1 H2]]].
    - destruct l as [|x l].
      + exists []. rewrite app_nil_r in H1 |- *. simpl in H2 |- *.
        split; congruence.
      + exfalso. simpl in H2. injection H2 as <- _.
        rewrite H1, forallb_app in Ha. simpl in Ha. rewrite Hc2 in Ha.
        now rewrite andb_false_r in Ha.
    - exists l. split; assumption. }
  destruct Hl as (l & -> & Hr).
  exists a, l, c2, b. simpl. rewrite length_app.
  replace (length a + length l - length a + 1) with (length (l ++ [c2]))
    by (rewrite length_app; simpl; lia).
  assert (Hsub : substr s (length a) (length (l ++ [c2])) = l ++ [c2]).
  { unfold substr. rewrite Hs1, skipn_length_app, Hr.
    change (l ++ c2 :: b) with (l ++ [c2] ++ b). rewrite app_assoc.
    apply firstn_length_app. }
  rewrite Hsub. split; [|split; [reflexivity|]].
  - rewrite Hs1, Hr. now rewrite <- !app_assoc.
  - repeat split; try assumption.
    destruct l as [|x l]; simpl in *; [assumption|]. now injection Hr as <- _.
Qed.

Lemma Trim_blank (s : wstring) : forallb trim_space s = true -> Trim s = [].
Proof.
  intros Hs. unfold Trim.
  destruct (find_first_not_of s 0) as [p|] eqn:E; [|reflexivity].
  apply find_first_not_of_Some in E as (a & c & r & -> & _ & _ & Hc).
  rewrite forallb_app in Hs. simpl in Hs. rewrite Hc in Hs.
  now rewrite andb_false_r in Hs.
Qed.

(** X1.  [Trim] removes blanks at both ends and nothing else: the string is
    blanks, then [Trim] of it, then blanks, and [Trim] of it neither begins
    nor ends with a blank; it is empty exactly when the string is all
    blanks (the blanks being space, tab, line feed and carriage return). *)
Theorem X1_Trim_strips_both_ends :
  forall s,
    exists a b,
      s = a ++ Trim s ++ b
      /\ forallb trim_space a = true /\ forallb trim_space b = true
      /\ (Trim s = [] <-> forallb trim_space s = true)
      /\ (Trim s <> [] ->
          trim_space (hd 0%N (Trim s)) = false
          /\ trim_space (last (Trim s) 0%N) = false).
Proof.
  intros s. destruct (forallb trim_space s) eqn:Hs.
  - pose proof (Trim_blank s Hs) as Ht.
    exists s, []. rewrite Ht, app_nil_r. repeat split; auto; try tauto.
  - destruct (Trim_split s Hs) as (a & l & c & b & H1 & H2 & Ha & Hb & Hhd & Hc).
    exists a, b. rewrite H2. split; [exact H1|]. split; [exact Ha|].
    split; [exact Hb|]. split.
    + split; [|discriminate]. intros H. now destruct l.
    + intros _. rewrite last_last. split; [|exact Hc].
      destruct l; simpl in *; assumption.
Qed.

(** X2.  Trimming twice is trimming once. *)
Theorem X2_Trim_idempotent : forall s, Trim (Trim s) = Trim s.
Proof.
  intros s. destruct (forallb trim_space s) eqn:Hs.
  - now rewrite (Trim_blank s Hs).
  - destruct (Trim_split s Hs) as (a & l & c & b & _ & -> & _ & _ & Hhd & Hc).
    unfold Trim.
    assert (Hf : find_first_not_of (l ++ [c]) 0 = Some 0).
    { destruct l as [|x l]; simpl in *; [now rewrite Hc|now rewrite Hhd]. }
    rewrite Hf, find_last_not_of_snoc by exact Hc.
    unfold substr. simpl skipn.
    replace (0 + length l - 0 + 1) with (length (l ++ [c]))
      by (rewrite length_app; simpl; lia).
    apply firstn_all.
Qed.

(** ** ParseTag *)

Lemma find_at_char_None (c : wchar) (s : wstring) (i : nat) :
  find_at [c] s i = None -> ~ In c s.
Proof.
  revert i; induction s as [|x s IH]; intros i; simpl; [tauto|].
  destruct (N.eqb c x) eqn:E; simpl; [discriminate|].
  apply N.eqb_neq in E. intros H [Hx|Hx]; [congruence|]. now apply IH in H.
Qed.

Lemma find_at_char_Some (c : wchar) (s : wstring) (i p : nat) :
  find_at [c] s i = Some p ->
  exists a r, s = a ++ c :: r /\ p = i + length a /\ ~ In c a.
Proof.
  revert i; induction s as [|x s IH]; intros i; simpl; [discriminate|].
  destruct (N.eqb c x) eqn:E; simpl.
  - apply N.eqb_eq in E. subst x. intros [= <-]. exists [], s. simpl.
    repeat split; [lia|tauto].
  - apply N.eqb_neq in E. intros H. apply IH in H as (a & r & -> & -> & Ha).
    exists (x :: a), r. simpl. repeat split; [lia|]. intros [Hx|Hx]; [congruence|tauto].
Qed.

Lemma ParseTag_split (n rest : wstring) :
  ~ In (ch " ") n -> ParseTag (n ++ ch " " :: rest) = (n, Trim rest).
Proof.
  intros Hn. unfold ParseTag, find_char. rewrite find_0, find_at_skip by exact Hn.
  cbn [Nat.add]. unfold substr, substr_from. cbn [skipn].
  rewrite firstn_length_app. do 2 f_equal.
  replace (length n + 1) with (length (n ++ [ch " "]))
    by (rewrite length_app; reflexivity).
  change (n ++ ch " " :: rest) with (n ++ [ch " "] ++ rest).
  now rewrite app_assoc, skipn_length_app.
Qed.

(** X3.  [ParseTag] cuts the tag at its first space, and only at a space:
    the name is what stands before it and never holds a space, the
    attributes are what follows, trimmed; a tag without a space, even one
    with tabs or line feeds, is all name and has no attributes. *)
Theorem X3_ParseTag_cuts_at_first_space :
  forall tag,
    ~ In (ch " ") (fst (ParseTag tag))
    /\ ((~ In (ch " ") tag /\ ParseTag tag = (tag, []))
        \/ exists n rest,
             tag = n ++ ch " " :: rest /\ ParseTag tag = (n, Trim rest)).
Proof.
  intros tag. destruct (find_at [ch " "] tag 0) as [p|] eqn:E.
  - apply find_at_char_Some in E as (n & rest & -> & _ & Hn).
    rewrite ParseTag_split by exact Hn. split; [exact Hn|].
    right. now exists n, rest.
  - apply find_at_char_None in E. rewrite ParseTag_no_space by exact E.
    split; [exact E|]. now left.
Qed.

(** ** ParseAttributes *)

Lemma stream_words_word (cur w s : wstring) :
  no_space w -> stream_words cur (w ++ s) = stream_words (cur ++ w) s.
Proof.
  unfold no_space. revert cur; induction w as [|c w IH]; intros cur Hw.
  - now rewrite app_nil_r.
  - simpl in Hw. apply andb_true_iff in Hw as [Hc Hw].
    apply negb_true_iff in Hc. cbn [app stream_words]. rewrite Hc, IH by exact Hw.
    now rewrite <- app_assoc.
Qed.

Lemma stream_words_one (w : wstring) :
  w <> [] -> no_space w -> stream_words [] w = [w].
Proof.
  intros Hne Hw. rewrite <- (app_nil_r w) at 1. rewrite stream_words_word by exact Hw.
  simpl. now destruct w.
Qed.

(** A word after a space is one more result of the stream. *)
Lemma stream_words_append (cur a w : wstring) :
  w <> [] -> no_space w ->
  stream_words cur (a ++ ch " " :: w) = stream_words cur a ++ [w].
Proof.
  intros Hne Hw. revert cur; induction a as [|c a IH]; intros cur.
  - cbn [app stream_words]. change (iswspace (ch " ")) with true. cbv iota.
    rewrite stream_words_one by assumption. now destruct cur.
  - cbn [app stream_words]. destruct (iswspace c).
    + destruct cur; rewrite IH; reflexivity.
    + apply IH.
Qed.

Lemma ParseAttributes_append (a w : wstring) :
  w <> [] -> no_space w ->
  ParseAttributes (a ++ ch " " :: w)
  = match find_char w (ch "=") 0 with
    | Some equal_index =>
        map_assign (ParseAttributes a) (substr w 0 equal_index)
                   (strip_quotes (substr_from w (equal_index + 1)))
    | None => ParseAttributes a
    end.
Proof.
  intros Hne Hw. unfold ParseAttributes.
  rewrite stream_words_append, fold_left_app by assumption. reflexivity.
Qed.

Lemma no_space_app (a b : wstring) : no_space a -> no_space b -> no_space (a ++ b).
Proof. unfold no_space. intros Ha Hb. now rewrite forallb_app, Ha, Hb. Qed.

Lemma find_char_key (k v : wstring) :
  ~ In (ch "=") k -> find_char (k ++ ch "=" :: v) (ch "=") 0 = Some (length k).
Proof. intros Hk. unfold find_char. now rewrite find_0, find_at_skip. Qed.

Lemma substr_key (k v : wstring) :
  substr (k ++ ch "=" :: v) 0 (length k) = k
  /\ substr_from (k ++ ch "=" :: v) (length k + 1) = v.
Proof.
  unfold substr, substr_from. cbn [skipn]. rewrite firstn_length_app. split; [reflexivity|].
  replace (length k + 1) with (length (k ++ [ch "="]))
    by (rewrite length_app; reflexivity).
  change (k ++ ch "=" :: v) with (k ++ [ch "="] ++ v).
  now rewrite app_assoc, skipn_length_app.
Qed.

Lemma map_find_assign (m : attribute_map) (k v : wstring) :
  map_find (map_assign m k v) k = Some v.
Proof.
  induction m as [|[k' v'] m IH]; simpl.
  - now rewrite wstring_eqb_refl.
  - destruct (wstring_eqb k k') eqn:E; simpl; rewrite E; [reflexivity|exact IH].
Qed.

Lemma map_find_assign_other (m : attribute_map) (k k' v : wstring) :
  k' <> k -> map_find (map_assign m k v) k' = map_find m k'.
Proof.
  intros Hne. apply wstring_eqb_neq in Hne.
  induction m as [|[k0 v0] m IH]; simpl.
  - now rewrite Hne.
  - destruct (wstring_eqb k k0) eqn:E; simpl.
    + apply wstring_eqb_eq in E. subst k0. now rewrite Hne.
    + destruct (wstring_eqb k' k0); [reflexivity|exact IH].
Qed.

Lemma strip_quotes_quoted (v : wstring) : strip_quotes ([dquote] ++ v ++ [dquote]) = v.
Proof.
  unfold strip_quotes. cbn [app length nth].
  rewrite length_app. cbn [length].
  replace (2 <=? S (length v + 1)) with true by (symmetry; apply Nat.leb_le; lia).
  change (N.eqb dquote dquote) with true.
  replace (S (length v + 1) - 1) with (S (length v)) by lia.
  cbn [nth]. rewrite app_nth2, Nat.sub_diag by lia. cbn [nth andb].
  change (N.eqb dquote dquote) with true. cbv iota.
  unfold substr. cbn [skipn].
  replace (S (length v + 1) - 2) with (length v) by lia.
  apply firstn_length_app.
Qed.

(** X4.  A token [key=value] assigns the key: the first token makes the
    map, a later one overwrites what the key had (the last one wins) and
    leaves the other keys alone; the key is what stands before the first
    [=], and a value in double quotes loses them. *)
Theorem X4_ParseAttributes_assigns_key :
  forall a k v,
    no_space k -> no_space v -> ~ In (ch "=") k ->
    ParseAttributes (k ++ L "=" ++ v) = [(k, strip_quotes v)]
    /\ ParseAttributes (a ++ L " " ++ k ++ L "=" ++ v)
       = map_assign (ParseAttributes a) k (strip_quotes v)
    /\ map_find (ParseAttributes (a ++ L " " ++ k ++ L "=" ++ v)) k
       = Some (strip_quotes v)
    /\ (forall k', k' <> k ->
                   map_find (ParseAttributes (a ++ L " " ++ k ++ L "=" ++ v)) k'
                   = map_find (ParseAttributes a) k')
    /\ (forall q, strip_quotes ([dquote] ++ q ++ [dquote]) = q).
Proof.
  intros a k v Hk Hv Heq.
  assert (Hw : no_space (k ++ L "=" ++ v)).
  { apply no_space_app; [exact Hk|]. now apply no_space_app. }
  assert (Hne : k ++ L "=" ++ v <> []) by now destruct k.
  destruct (substr_key k v) as [Hkey Hval].
  assert (Hlater : ParseAttributes (a ++ L " " ++ k ++ L "=" ++ v)
                   = map_assign (ParseAttributes a) k (strip_quotes v)).
  { change (a ++ L " " ++ k ++ L "=" ++ v) with (a ++ ch " " :: (k ++ L "=" ++ v)).
    rewrite ParseAttributes_append by assumption.
    change (k ++ L "=" ++ v) with (k ++ ch "=" :: v).
    now rewrite find_char_key, Hkey, Hval by exact Heq. }
  split; [|split; [exact Hlater|split; [|split]]].
  - unfold ParseAttributes. rewrite stream_words_one by assumption.
    cbn [fold_left]. change (k ++ L "=" ++ v) with (k ++ ch "=" :: v).
    now rewrite find_char_key, Hkey, Hval by exact Heq.
  - rewrite Hlater. apply map_find_assign.
  - intros k' Hk'. rewrite Hlater. now apply map_find_assign_other.
  - exact strip_quotes_quoted.
Qed.

Lemma X4_ParseAttributes_assigns_key_witness :
  no_space (L "src") /\ no_space ([dquote] ++ L "b.png" ++ [dquote])
  /\ ~ In (ch "=") (L "src")
  /\ map_find (ParseAttributes (L "src=a.png alt=x" ++ L " " ++ L "src" ++ L "="
                                  ++ [dquote] ++ L "b.png" ++ [dquote]))
              (L "src")
     = Some (L "b.png")
  /\ map_find (ParseAttributes (L "src=a.png alt=x" ++ L " " ++ L "src" ++ L "="
                                  ++ [dquote] ++ L "b.png" ++ [dquote]))
              (L "alt")
     = Some (L "x").
Proof.
  assert (Hk : no_space (L "src")) by reflexivity.
  assert (Hv : no_space ([dquote] ++ L "b.png" ++ [dquote])) by reflexivity.
  assert (Heq : ~ In (ch "=") (L "src")) by (apply memb_false; reflexivity).
  destruct (X4_ParseAttributes_assigns_key (L "src=a.png alt=x") (L "src")
              ([dquote] ++ L "b.png" ++ [dquote]) Hk Hv Heq)
    as (_ & _ & H3 & H4 & H5).
  split; [exact Hk|]. split; [exact Hv|]. split; [exact Heq|]. split.
  - rewrite H3, H5. reflexivity.
  - rewrite H4 by discriminate. reflexivity.
Defined.

(** X5.  A token without [=], such as a bare [disabled], is not stored: the
    map is what it was without the token. *)
Theorem X5_ParseAttributes_ignores_bare_word :
  forall a w,
    w <> [] -> no_space w -> ~ In (ch "=") w ->
    ParseAttributes (a ++ L " " ++ w) = ParseAttributes a
    /\ ParseAttributes w = [].
Proof.
  intros a w Hne Hw Heq.
  assert (Hnone : find_char w (ch "=") 0 = None).
  { unfold find_char. now apply find_absent. }
  split.
  - change (a ++ L " " ++ w) with (a ++ ch " " :: w).
    now rewrite ParseAttributes_append, Hnone.
  - unfold ParseAttributes. rewrite stream_words_one by assumption.
    cbn [fold_left]. now rewrite Hnone.
Qed.

Lemma X5_ParseAttributes_ignores_bare_word_witness :
  L "disabled" <> [] /\ no_space (L "disabled") /\ ~ In (ch "=") (L "disabled")
  /\ ParseAttributes (L "type=text" ++ L " " ++ L "disabled")
     = ParseAttributes (L "type=text").
Proof.
  assert (Hne : L "disabled" <> []) by discriminate.
  assert (Hw : no_space (L "disabled")) by reflexivity.
  assert (Heq : ~ In (ch "=") (L "disabled")) by (apply memb_false; reflexivity).
  split; [exact Hne|]. split; [exact Hw|]. split; [exact Heq|].
  exact (proj1 (X5_ParseAttributes_ignores_bare_word (L "type=text") (L "disabled")
                  Hne Hw Heq)).
Defined.

Lemma strip_quotes_open (w : wstring) :
  ~ In dquote w -> strip_quotes (dquote :: w) = dquote :: w.
Proof.
  intros Hw. unfold strip_quotes. cbn [length].
  destruct w as [|c w]; [reflexivity|].
  assert (Hlast : N.eqb (nth (S (length (c :: w)) - 1) (dquote :: c :: w) 0%N) dquote
                  = false).
  { replace (S (length (c :: w)) - 1) with (S (length w)) by (simpl; lia).
    change (nth (S (length w)) (dquote :: c :: w) 0%N)
      with (nth (length w) (c :: w) 0%N).
    apply N.eqb_neq. intros H. apply Hw. rewrite <- H. apply nth_In. simpl. lia. }
  rewrite Hlast. now rewrite !andb_false_r.
Qed.

(** X6.  A quoted value with a blank in it is not kept whole: the stream
    cuts the attribute string at every blank, so the value ends at the
    blank and keeps its opening quote, and the rest, a token without [=],
    is dropped. *)
Theorem X6_ParseAttributes_cuts_quoted_value_at_blank :
  forall k w1 w2,
    no_space k -> ~ In (ch "=") k ->
    no_space w1 -> ~ In dquote w1 ->
    no_space w2 -> ~ In (ch "=") w2 ->
    ParseAttributes (k ++ L "=" ++ [dquote] ++ w1 ++ L " " ++ w2 ++ [dquote])
    = [(k, dquote :: w1)].
Proof.
  intros k w1 w2 Hk Hkeq Hw1 Hq Hw2 Hw2eq.
  pose (first := k ++ L "=" ++ [dquote] ++ w1).
  pose (second := w2 ++ [dquote]).
  assert (Hfirst : ParseAttributes first = [(k, dquote :: w1)]).
  { unfold ParseAttributes. rewrite stream_words_one.
    - cbn [fold_left]. unfold first.
      change (k ++ L "=" ++ [dquote] ++ w1) with (k ++ ch "=" :: (dquote :: w1)).
      destruct (substr_key k (dquote :: w1)) as [Hkey Hval].
      rewrite find_char_key, Hkey, Hval by exact Hkeq.
      now rewrite strip_quotes_open.
    - unfold first. now destruct k.
    - unfold first. apply no_space_app; [exact Hk|].
      apply (no_space_app (L "=")); [reflexivity|].
      now apply (no_space_app [dquote]). }
  replace (k ++ L "=" ++ [dquote] ++ w1 ++ L " " ++ w2 ++ [dquote])
    with (first ++ ch " " :: second)
    by (unfold first, second; now rewrite <- !app_assoc).
  rewrite ParseAttributes_append.
  - unfold find_char. rewrite find_absent; [exact Hfirst|].
    unfold second. intros H. apply in_app_or in H as [H|[H|[]]]; [tauto|discriminate].
  - unfold second. now destruct w2.
  - unfold second. now apply no_space_app.
Qed.

Lemma X6_ParseAttributes_cuts_quoted_value_at_blank_witness :
  no_space (L "alt") /\ ~ In (ch "=") (L "alt")
  /\ no_space (L "An") /\ ~ In dquote (L "An")
  /\ no_space (L "image") /\ ~ In (ch "=") (L "image")
  /\ ParseAttributes (L "alt" ++ L "=" ++ [dquote] ++ L "An" ++ L " "
                        ++ L "image" ++ [dquote])
     = [(L "alt", dquote :: L "An")].
Proof.
  assert (H1 : no_space (L "alt")) by reflexivity.
  assert (H2 : ~ In (ch "=") (L "alt")) by (apply memb_false; reflexivity).
  assert (H3 : no_space (L "An")) by reflexivity.
  assert (H4 : ~ In dquote (L "An")) by (apply memb_false; reflexivity).
  assert (H5 : no_space (L "image")) by reflexivity.
  assert (H6 : ~ In (ch "=") (L "image")) by (apply memb_false; reflexivity).
  repeat (split; [assumption|]).
  exact (X6_ParseAttributes_cuts_quoted_value_at_blank
           (L "alt") (L "An") (L "image") H1 H2 H3 H4 H5 H6).
Defined.

(** ** The loop of the parser *)

(** Each turn leaves [current_index] within the input. *)
Lemma parse_step_bound (order : list (wstring * wstring)) (html : wstring)
      (i i1 : nat) (st st1 : parser_state) :
  i < length html -> parse_step order html i st = Returns (i1, st1) ->
  i1 <= length html.
Proof.
  intros Hi. unfold parse_step.
  destruct (N.eqb (to_char (nth i html 0%N)) (ch "<")).
  - unfold parse_markup.
    destruct (find_char html (ch ">") i) as [e|] eqn:Ee; [|discriminate].
    apply find_char_Some in Ee as (H1 & H2 & H3).
    unfold parse_tag.
    destruct (wstring_eqb _ (L "!--")).
    { destruct (find html (L "-->") i) as [ec|] eqn:E; [|discriminate].
      apply find_Some in E as (_ & E & _). intros [= <- _].
      cbn [length L map list_ascii_of_string] in E. lia. }
    destruct (mem _ skip_tags).
    { destruct (find html _ i) as [ec|] eqn:E; [|discriminate].
      apply find_Some in E as (_ & E & _). intros [= <- _].
      rewrite !length_app in E. cbn [length L map list_ascii_of_string] in E. lia. }
    destruct (N.eqb _ (ch "/")); destruct (ParseTag _) as [tag_name attrs]; cbn [negb].
    + destruct (back_name st) as [top| | |]; cbn [bind]; try discriminate.
      destruct (negb _); [discriminate|]. intros [= <- _]. lia.
    + destruct (back_push_child st _) as [st2| | |]; cbn [bind]; try discriminate.
      intros [= <- _]. lia.
  - unfold parse_text.
    destruct (find_char html (ch "<") i) as [e|] eqn:Ee;
      (destruct (decode_entities order _) as [text| | |]; cbn [bind]; try discriminate);
      (destruct (back_push_child st _) as [st2| | |]; cbn [bind]; try discriminate);
      intros [= <- _]; [|lia].
    apply find_char_Some in Ee as (H1 & H2 & H3). lia.
Qed.

(** X7.  On an input of [INT_MAX] characters at most the parser comes to
    an end: every turn of its loop moves [current_index] forward and leaves
    it within the input, so that the [int] holds every value it is given;
    each loop over an entity ends; and the whole takes no more turns than
    the input has characters. *)
Theorem X7_parser_terminates :
  forall order html,
    iteration_order order ->
    (Z.of_nat (length html) <= int_max)%Z ->
    (forall i i1 st st1,
        i < length html -> parse_step order html i st = Returns (i1, st1) ->
        i < i1 <= length html /\ (Z.of_nat i1 <= int_max)%Z)
    /\ (forall text, decode_entities order text <> OutOfFuel)
    /\ ParseHTMLToAST order html <> OutOfFuel.
Proof.
  intros order html Ho Hlen.
  pose proof (iteration_order_keys_nonempty order Ho) as Hk.
  split; [|split].
  - intros i i1 st st1 Hi Hstep.
    pose proof (parse_step_progress order html i i1 st st1 Hi Hstep).
    pose proof (parse_step_bound order html i i1 st st1 Hi Hstep).
    split; lia.
  - intros text. now apply decode_entities_fuel.
  - now apply ParseHTMLToAST_fuel.
Qed.

Lemma X7_parser_terminates_witness :
  iteration_order html_entities
  /\ ParseHTMLToAST html_entities (L "<p>&amp;&amp;<!-- x --><b>y") <> OutOfFuel.
Proof.
  assert (Ho : iteration_order html_entities) by apply Permutation_refl.
  split; [exact Ho|].
  refine (proj2 (proj2 (X7_parser_terminates html_entities
                          (L "<p>&amp;&amp;<!-- x --><b>y") Ho _))).
  apply Z.leb_le. reflexivity.
Defined.

(** *** Comments *)

Lemma find_at_In_last (pat s : wstring) (c : wchar) (i p : nat) :
  In c pat -> find_at pat s i = Some p -> In c s.
Proof.
  intros Hc H. apply find_at_Some in H as (_ & _ & H).
  apply prefixb_true in H. apply (In_skipn _ c (p - i)). rewrite H.
  apply in_or_app. now left.
Qed.

Lemma parse_step_comment (order : list (wstring * wstring)) (pre rest : wstring)
      (st : parser_state) :
  parse_step order (pre ++ L "<!--" ++ rest) (length pre) st
  = match find (L "<!--" ++ rest) (L "-->") 0 with
    | None => Throws out_of_range
    | Some k => Returns (length pre + k + 3, st)
    end.
Proof.
  unfold parse_step. rewrite nth_length_app.
  change (nth 0 (L "<!--" ++ rest) 0%N) with (ch "<").
  change (N.eqb (to_char (ch "<")) (ch "<")) with true. cbv iota.
  unfold parse_markup, find_char. rewrite find_after.
  destruct (find_at [ch ">"] (L "<!--" ++ rest) (length pre)) as [e|] eqn:Ee.
  - apply find_at_char_Some in Ee as (a & r & Ha & -> & Hgt).
    assert (Ha' : exists a', a = L "<!--" ++ a').
    { destruct a as [|a0 [|a1 [|a2 [|a3 a']]]]; try discriminate.
      injection Ha as <- <- <- <- _. now exists a'. }
    destruct Ha' as (a' & ->).
    assert (Htag : substr (pre ++ L "<!--" ++ rest) (length pre + 1)
                          (length pre + length (L "<!--" ++ a') - length pre - 1)
                   = L "!--" ++ a').
    { unfold substr.
      replace (length pre + 1) with (length (pre ++ L "<"))
        by (rewrite length_app; reflexivity).
      replace (pre ++ L "<!--" ++ rest) with ((pre ++ L "<") ++ L "!--" ++ rest)
        by (now rewrite <- app_assoc).
      rewrite skipn_length_app.
      assert (Hrest : rest = a' ++ ch ">" :: r).
      { change (L "<!--" ++ rest) with (L "<!--" ++ rest) in Ha.
        rewrite <- app_assoc in Ha. now apply app_inv_head in Ha. }
      rewrite Hrest.
      replace (length pre + length (L "<!--" ++ a') - length pre - 1)
        with (length (L "!--" ++ a'))
        by (rewrite !length_app; cbn [length L map list_ascii_of_string]; lia).
      rewrite app_assoc. apply firstn_length_app. }
    rewrite Htag. unfold parse_tag.
    change (wstring_eqb (substr (L "!--" ++ a') 0 3) (L "!--")) with true. cbv iota.
    rewrite find_after, find_0, (find_at_shift (L "-->") _ (length pre)).
    destruct (find_at (L "-->") (L "<!--" ++ rest) 0); reflexivity.
  - apply find_at_char_None in Ee.
    destruct (find (L "<!--" ++ rest) (L "-->") 0) as [k|] eqn:Ek; [|reflexivity].
    exfalso. apply Ee. rewrite find_0 in Ek.
    apply (find_at_In_last (L "-->") _ (ch ">") 0 k); [|exact Ek].
    right. right. now left.
Qed.

Lemma prefixb_app_short (pat s t : wstring) :
  length pat <= length s -> prefixb pat (s ++ t) = prefixb pat s.
Proof.
  revert s; induction pat as [|x pat IH]; intros s Hlen; [reflexivity|].
  destruct s as [|y s]; [simpl in Hlen; lia|].
  simpl in *. rewrite IH by lia. reflexivity.
Qed.

(** The first occurrence stays the first when the string goes on. *)
Lemma find_at_app_stable (pat s t : wstring) (i p : nat) :
  find_at pat s i = Some p -> find_at pat (s ++ t) i = Some p.
Proof.
  revert i; induction s as [|c s IH]; intros i.
  - cbn [find_at app]. destruct (prefixb pat []) eqn:E; [|discriminate].
    destruct pat; [|discriminate]. intros [= <-]. now destruct t.
  - intros H. pose proof H as H'. apply find_at_Some in H' as (_ & Hlen & _).
    cbn [find_at app] in *. change (c :: s ++ t) with ((c :: s) ++ t).
    rewrite prefixb_app_short by (simpl in *; lia).
    destruct (prefixb pat (c :: s)); [exact H|]. now apply IH.
Qed.

(** X8.  A comment is stepped over and leaves no node: from [<!--] the
    parser goes behind the first [-->] found from the ['<'] on, and fails
    with [std::out_of_range] when there is none.  The search starts at the
    ['<'], not after the opening, so [<!-->] is a whole comment. *)
Theorem X8_comment_skipped :
  (forall order pre rest st,
      parse_step order (pre ++ L "<!--" ++ rest) (length pre) st
      = match find (L "<!--" ++ rest) (L "-->") 0 with
        | None => Throws out_of_range
        | Some k => Returns (length pre + k + 3, st)
        end)
  /\ (forall order pre post st,
         parse_step order (pre ++ L "<!-->" ++ post) (length pre) st
         = Returns (length pre + 5, st))
  /\ (forall order pre body post st,
         find (L "<!--" ++ body ++ L "-->") (L "-->") 0
         = Some (length (L "<!--" ++ body)) ->
         parse_step order (pre ++ L "<!--" ++ body ++ L "-->" ++ post) (length pre) st
         = Returns (length (pre ++ L "<!--" ++ body ++ L "-->"), st)).
Proof.
  split; [exact parse_step_comment|]. split.
  - intros order pre post st.
    change (L "<!-->" ++ post) with (L "<!--" ++ (L ">" ++ post)).
    rewrite parse_step_comment, find_0. literals. cbn [app].
    cbn [find_at prefixb N.eqb Pos.eqb andb]. do 2 f_equal. lia.
  - intros order pre body post st Hfind.
    rewrite parse_step_comment.
    replace (L "<!--" ++ body ++ L "-->" ++ post)
      with ((L "<!--" ++ body ++ L "-->") ++ post)
      by (now rewrite <- !app_assoc).
    rewrite find_0 in *. rewrite (find_at_app_stable _ _ post _ _ Hfind).
    rewrite !length_app. cbn [length L map list_ascii_of_string].
    do 2 f_equal. lia.
Qed.

Lemma X8_comment_skipped_witness :
  find (L "<!--" ++ L " x > y " ++ L "-->") (L "-->") 0
  = Some (length (L "<!--" ++ L " x > y "))
  /\ parse_step html_entities (L "a<!-- x > y --><p>") 1 initial_state
     = Returns (15, initial_state).
Proof.
  assert (H : find (L "<!--" ++ L " x > y " ++ L "-->") (L "-->") 0
              = Some (length (L "<!--" ++ L " x > y ")))
    by reflexivity.
  split; [exact H|].
  exact (proj2 (proj2 X8_comment_skipped) html_entities (L "a") (L " x > y ")
               (L "<p>") initial_state H).
Defined.

(** *** Closing tags *)

Lemma parse_step_closing (order : list (wstring * wstring)) (pre n post : wstring)
      (st : parser_state) :
  ~ In (ch ">") n -> ~ In (ch " ") n ->
  parse_step order (pre ++ L "</" ++ n ++ L ">" ++ post) (length pre) st
  = (top_name <- back_name st ;;
     if wstring_eqb top_name n
     then Returns (length (pre ++ L "</" ++ n ++ L ">"), stack_pop st)
     else Throws runtime_error).
Proof.
  intros Hgt Hspace.
  change (L "</" ++ n ++ L ">" ++ post) with (L "<" ++ (L "/" ++ n) ++ L ">" ++ post).
  rewrite parse_step_tag
    by (intros [H|H]; [discriminate|now apply Hgt]).
  unfold parse_tag.
  change (wstring_eqb (substr (L "/" ++ n) 0 3) (L "!--")) with false.
  change (mem (L "/" ++ n) skip_tags) with false.
  change (N.eqb (nth 0 (L "/" ++ n) 0%N) (ch "/")) with true.
  cbv iota zeta. change (substr_from (L "/" ++ n) 1) with n.
  rewrite ParseTag_no_space by exact Hspace. cbn [negb].
  destruct (back_name st) as [top| | |]; cbn [bind]; try reflexivity.
  destruct (wstring_eqb top n); cbn [negb]; [|reflexivity].
  rewrite !length_app. cbn [length L map list_ascii_of_string].
  do 2 f_equal. lia.
Qed.



(** *** The shape of the tree *)

Lemma child_shape_eq (t : ASTNode) :
  child_shape t =
  match type t with
  | ROOT => false
  | TEXT => match name t, attributes t, children t with
            | [], [], [] => true
            | _, _, _ => false
            end
  | ELEMENT => match value t with
               | [] => forallb child_shape (children t)
               | _ :: _ => false
               end
  end.
Proof. destruct t; reflexivity. Qed.

(** Appending a node of the right shape below an element keeps the
    shapes. *)
Lemma spine_push_back_shape (d : nat) (node t : ASTNode) :
  type t = ELEMENT -> child_shape t = true -> spine_elements d t ->
  child_shape node = true ->
  exists t', spine_push_back d node t = Some t'
             /\ type t' = ELEMENT /\ name t' = name t /\ child_shape t' = true
             /\ spine_elements d t'
             /\ (type node = ELEMENT -> spine_elements (S d) t').
Proof.
  revert t; induction d as [|d IH]; intros t Hty Hshape Hspine Hnode.
  - simpl. eexists; split; [reflexivity|]. destruct t as [ty n v a cs].
    simpl in *. subst ty. destruct v; [|discriminate].
    repeat split.
    + now rewrite forallb_app, Hshape; simpl; rewrite Hnode.
    + intros Hn. rewrite unsnoc_snoc. tauto.
  - simpl in Hspine. simpl.
    destruct (unsnoc (children t)) as [[front c]|] eqn:E; [|contradiction].
    destruct Hspine as [Hc Hspine]. apply unsnoc_Some in E as Ec.
    destruct t as [ty n v a cs]. simpl in *. subst ty cs.
    destruct v; [|discriminate].
    rewrite forallb_app in Hshape. apply andb_true_iff in Hshape as [Hf Hcs].
    simpl in Hcs. rewrite andb_true_r in Hcs.
    destruct (IH c Hc Hcs Hspine Hnode) as (c' & -> & H1 & H2 & H3 & H4 & H5).
    eexists; split; [reflexivity|]. simpl. repeat split.
    + now rewrite forallb_app, Hf; simpl; rewrite H3.
    + now rewrite unsnoc_snoc.
    + intros Hn. rewrite unsnoc_snoc. split; [exact H1|]. now apply H5.
Qed.

Lemma spine_elements_pred (d : nat) (t : ASTNode) :
  spine_elements (S d) t -> spine_elements d t.
Proof.
  revert t; induction d as [|d IH]; intros t H; [exact I|].
  simpl in *. destruct (unsnoc (children t)) as [[front c]|]; [|contradiction].
  destruct H as [Hc H]. split; [exact Hc|]. now apply IH.
Qed.

(** The same below the root. *)
Lemma back_push_child_shape (st st1 : parser_state) (node : ASTNode) :
  root_shape (root st) -> spine_elements (pred (stack_size st)) (root st) ->
  child_shape node = true ->
  back_push_child st node = Returns st1 ->
  root_shape (root st1) /\ stack_size st1 = stack_size st
  /\ spine_elements (pred (stack_size st)) (root st1)
  /\ (type node = ELEMENT -> spine_elements (stack_size st) (root st1)).
Proof.
  intros (Hty & Hn & Hv & Ha & Hcs) Hspine Hnode. unfold back_push_child.
  destruct (stack_size st) as [|d] eqn:Ed; [discriminate|]. cbn [pred] in *.
  destruct (root st) as [ty n v a cs] eqn:Er. simpl in *. subst ty n v a.
  destruct d as [|d].
  - simpl. intros [= <-]. simpl. unfold root_shape. simpl.
    rewrite forallb_app, Hcs. simpl. rewrite Hnode, unsnoc_snoc. tauto.
  - simpl in *. destruct (unsnoc cs) as [[front c]|] eqn:E; [|contradiction].
    destruct Hspine as [Hc Hspine]. apply unsnoc_Some in E as Ec. subst cs.
    rewrite forallb_app in Hcs. apply andb_true_iff in Hcs as [Hf Hcc].
    simpl in Hcc. rewrite andb_true_r in Hcc.
    destruct (spine_push_back_shape d node c Hc Hcc Hspine Hnode)
      as (c' & -> & H1 & H2 & H3 & H4 & H5).
    intros [= <-]. simpl. unfold root_shape. simpl.
    rewrite forallb_app, Hf. simpl. rewrite H3, unsnoc_snoc. tauto.
Qed.

Lemma parse_step_shape (order : list (wstring * wstring)) (html : wstring)
      (i i1 : nat) (st st1 : parser_state) :
  root_shape (root st) -> spine_elements (pred (stack_size st)) (root st) ->
  parse_step order html i st = Returns (i1, st1) ->
  root_shape (root st1) /\ spine_elements (pred (stack_size st1)) (root st1).
Proof.
  intros Hroot Hspine. unfold parse_step. destruct (N.eqb _ _).
  - unfold parse_markup.
    destruct (find_char html (ch ">") i) as [e|]; [|discriminate].
    unfold parse_tag.
    destruct (wstring_eqb _ (L "!--")).
    { destruct (find html (L "-->") i); [|discriminate]. now intros [= _ <-]. }
    destruct (mem _ skip_tags).
    { destruct (find html _ i); [|discriminate]. now intros [= _ <-]. }
    destruct (N.eqb _ (ch "/")); destruct (ParseTag _) as [tag_name attrs];
      cbn [negb].
    + destruct (back_name st) as [top| | |]; cbn [bind]; try discriminate.
      destruct (wstring_eqb top tag_name); cbn [negb]; [|discriminate].
      intros [= _ <-]. split; [exact Hroot|]. cbn [stack_pop root stack_size].
      destruct (stack_size st) as [|[|d]]; cbn [pred] in *; try exact I.
      now apply spine_elements_pred.
    + match goal with |- context [back_push_child st ?n] => set (node := n) end.
      destruct (back_push_child st node) as [st2| | |] eqn:E; cbn [bind];
        try discriminate.
      destruct (back_push_child_shape st st2 node Hroot Hspine eq_refl E)
        as (H1 & H2 & H3 & H4).
      destruct (mem tag_name self_closing_tags); intros [= _ <-].
      * split; [exact H1|]. now rewrite H2.
      * split; [exact H1|]. cbn [stack_push stack_size root pred].
        rewrite H2. now apply H4.
  - unfold parse_text.
    destruct (decode_entities order _) as [text| | |]; cbn [bind]; try discriminate.
    destruct (back_push_child st _) as [st2| | |] eqn:E; cbn [bind]; try discriminate.
    intros [= _ <-].
    destruct (back_push_child_shape st st2 (Node TEXT [] text [] [])
                                    Hroot Hspine eq_refl E)
      as (H1 & H2 & H3 & _).
    split; [exact H1|]. now rewrite H2.
Qed.

Lemma parse_loop_shape (fuel : nat) (order : list (wstring * wstring))
      (html : wstring) (i : nat) (st st1 : parser_state) :
  root_shape (root st) -> spine_elements (pred (stack_size st)) (root st) ->
  parse_loop fuel order html i st = Returns st1 ->
  root_shape (root st1).
Proof.
  revert i st; induction fuel as [|fuel IH]; intros i st Hroot Hspine; simpl.
  - destruct (length html <=? i); [|discriminate]. now intros [= <-].
  - destruct (length html <=? i); [now intros [= <-]|].
    destruct (parse_step order html i st) as [[i2 st2]| | |] eqn:E;
      cbn [bind fst snd]; try discriminate.
    destruct (parse_step_shape order html i i2 st st2 Hroot Hspine E) as [H1 H2].
    now apply IH.
Qed.

Lemma child_shape_subnode (n c : ASTNode) :
  subnode n c -> child_shape c = true -> child_shape n = true.
Proof.
  induction 1 as [|n c t Hin _ IH]; intros Ht; [exact Ht|].
  apply IH. destruct t as [ty nm v a cs]. simpl in *.
  destruct ty; try discriminate.
  - destruct nm; try discriminate. destruct a; try discriminate.
    destruct cs; [contradiction|discriminate].
  - destruct v; [|discriminate]. rewrite forallb_forall in Ht. now apply Ht.
Qed.

(** X10.  The tree of a successful parse has one [ROOT], the node returned,
    without name, text or attributes; every node below it is a [TEXT]
    without name, attributes or children, or an [ELEMENT] without text.  No
    [ROOT] is below the root, and nothing hangs under a text. *)
Theorem X10_parsed_tree_shape :
  forall order html tree,
    ParseHTMLToAST order html = Returns tree ->
    type tree = ROOT /\ name tree = [] /\ value tree = [] /\ attributes tree = []
    /\ (forall c node,
           In c (children tree) -> subnode node c ->
           (type node = TEXT /\ name node = [] /\ attributes node = []
            /\ children node = [])
           \/ (type node = ELEMENT /\ value node = [])).
Proof.
  intros order html tree Hparse.
  unfold ParseHTMLToAST, parse_run in Hparse.
  destruct (parse_loop _ order html 0 initial_state) as [st| | |] eqn:E;
    try discriminate.
  injection Hparse as <-.
  apply parse_loop_shape in E; [|repeat split|exact I].
  destruct E as (H1 & H2 & H3 & H4 & H5).
  repeat (split; [assumption|]).
  intros c node Hc Hsub. rewrite forallb_forall in H5.
  pose proof (child_shape_subnode node c Hsub (H5 c Hc)) as Hn.
  rewrite child_shape_eq in Hn. destruct (type node); [discriminate| |].
  - left. destruct (name node); [|discriminate].
    destruct (attributes node); [|discriminate].
    destruct (children node); [tauto|discriminate].
  - right. destruct (value node); [tauto|discriminate].
Qed.

Lemma X10_parsed_tree_shape_witness :
  let text := Node TEXT [] (L "x") [] [] in
  let p := Node ELEMENT (L "p") [] [(L "id", L "a")] [text] in
  ParseHTMLToAST html_entities (L "<p id=a>x</p>") = Returns (Node ROOT [] [] [] [p])
  /\ (type text = TEXT /\ name text = [] /\ attributes text = [] /\ children text = []
      \/ type text = ELEMENT /\ value text = []).
Proof.
  intros text p.
  assert (H : ParseHTMLToAST html_entities (L "<p id=a>x</p>")
              = Returns (Node ROOT [] [] [] [p])) by reflexivity.
  split; [exact H|].
  destruct (X10_parsed_tree_shape html_entities (L "<p id=a>x</p>") _ H)
    as (_ & _ & _ & _ & Hall).
  apply (Hall p text); [now left|].
  apply subnode_below with (c := text); [now left|constructor].
Defined.

(** ** Reading back what [to_html] writes *)

(** *** Growing the tree along the stack *)

Lemma set_children_twice (t : ASTNode) (a b : list ASTNode) :
  set_children (set_children t a) b = set_children t b.
Proof. destruct t; reflexivity. Qed.

Lemma children_set_children (t : ASTNode) (a : list ASTNode) :
  children (set_children t a) = a.
Proof. destruct t; reflexivity. Qed.

(** Whether a node can be appended at depth [d] depends on the tree only. *)
Lemma spine_push_back_any (d : nat) (x y t t1 : ASTNode) :
  spine_push_back d x t = Some t1 -> exists t2, spine_push_back d y t = Some t2.
Proof.
  revert t t1; induction d as [|d IH]; intros t t1; simpl.
  - intros _. eexists; reflexivity.
  - destruct (unsnoc (children t)) as [[front c]|]; [|discriminate].
    destruct (spine_push_back d x c) as [c1|] eqn:E; [|discriminate].
    intros _. destruct (IH c c1 E) as (c2 & ->). eexists; reflexivity.
Qed.

(** The node just appended is the next node of the path. *)
Lemma spine_node_pushed (d : nat) (x t t1 : ASTNode) :
  spine_push_back d x t = Some t1 -> spine_node (S d) t1 = Some x.
Proof.
  revert t t1; induction d as [|d IH]; intros t t1.
  - cbn [spine_push_back spine_node]. intros [= <-].
    rewrite children_set_children, unsnoc_snoc. reflexivity.
  - cbn [spine_push_back].
    destruct (unsnoc (children t)) as [[front c]|]; [|discriminate].
    destruct (spine_push_back d x c) as [c1|] eqn:E; [|discriminate].
    intros [= <-]. cbn [spine_node]. rewrite children_set_children, unsnoc_snoc.
    apply (IH c c1 E).
Qed.

(** A child appended to the node just appended: the same as appending the
    node with that child. *)
Lemma spine_push_back_fill (d : nat) (x c t t1 : ASTNode) :
  spine_push_back d x t = Some t1 ->
  spine_push_back (S d) c t1
  = spine_push_back d (set_children x (children x ++ [c])) t.
Proof.
  revert t t1; induction d as [|d IH]; intros t t1.
  - cbn [spine_push_back]. intros [= <-].
    rewrite children_set_children, unsnoc_snoc.
    now rewrite set_children_twice.
  - cbn [spine_push_back].
    destruct (unsnoc (children t)) as [[front l]|]; [|discriminate].
    destruct (spine_push_back d x l) as [l1|] eqn:E; [|discriminate].
    intros [= <-]. rewrite children_set_children, unsnoc_snoc.
    change (match unsnoc (children l1) with
            | Some (front0, c0) =>
                match spine_push_back d c c0 with
                | Some c' => Some (set_children l1 (front0 ++ [c']))
                | None => None
                end
            | None => None
            end) with (spine_push_back (S d) c l1).
    rewrite (IH l l1 E).
    destruct (spine_push_back d (set_children x (children x ++ [c])) l);
      [|reflexivity].
    now rewrite set_children_twice.
Qed.

Lemma push_children_None (d : nat) (cs : list ASTNode) :
  fold_left (fun acc c => match acc with
                          | Some t' => spine_push_back d c t'
                          | None => None
                          end) cs None = None.
Proof. induction cs as [|c cs IH]; [reflexivity|exact IH]. Qed.

Lemma push_children_cons (d : nat) (c : ASTNode) (cs : list ASTNode) (t t' : ASTNode) :
  push_children d (c :: cs) t = Some t' ->
  exists t1, spine_push_back d c t = Some t1 /\ push_children d cs t1 = Some t'.
Proof.
  unfold push_children. cbn [fold_left].
  destruct (spine_push_back d c t) as [t1|]; [|now rewrite push_children_None].
  intros H. now exists t1.
Qed.

(** The children appended one by one to an element just appended: the same
    as appending the element with them. *)
Lemma push_children_fill (d : nat) (ty : ASTNodeType) (n v : wstring)
      (a : attribute_map) (cs0 cs : list ASTNode) (t t1 : ASTNode) :
  spine_push_back d (Node ty n v a cs0) t = Some t1 ->
  push_children (S d) cs t1 = spine_push_back d (Node ty n v a (cs0 ++ cs)) t.
Proof.
  revert cs0 t1; induction cs as [|c cs IH]; intros cs0 t1 H.
  - unfold push_children. cbn [fold_left]. now rewrite app_nil_r.
  - unfold push_children. cbn [fold_left].
    rewrite (spine_push_back_fill d _ c t t1 H). cbn [set_children children type name value attributes].
    change (set_children (Node ty n v a cs0) (cs0 ++ [c]))
      with (Node ty n v a (cs0 ++ [c])).
    destruct (spine_push_back_any d _ (Node ty n v a (cs0 ++ [c])) t t1 H) as (t2 & H2).
    rewrite H2. fold (push_children (S d) cs t2).
    rewrite (IH (cs0 ++ [c]) t2 H2). now rewrite <- app_assoc.
Qed.

Lemma push_children_root (cs0 cs : list ASTNode) (ty : ASTNodeType) (n v : wstring)
      (a : attribute_map) :
  push_children 0 cs (Node ty n v a cs0) = Some (Node ty n v a (cs0 ++ cs)).
Proof.
  revert cs0; induction cs as [|c cs IH]; intros cs0.
  - unfold push_children. cbn [fold_left]. now rewrite app_nil_r.
  - replace (cs0 ++ c :: cs) with ((cs0 ++ [c]) ++ cs) by (now rewrite <- app_assoc).
    exact (IH (cs0 ++ [c])).
Qed.

(** *** Turns of the loop *)

Lemma steps_trans (order : list (wstring * wstring)) (html : wstring)
      (i j k : nat) (st st1 st2 : parser_state) :
  steps order html i st j st1 -> steps order html j st1 k st2 ->
  steps order html i st k st2.
Proof.
  induction 1 as [|i st i1 st1' j st' Hi Hs _ IH]; intros H2; [exact H2|].
  eapply steps_turn; [exact Hi|exact Hs|]. now apply IH.
Qed.

Lemma steps_one (order : list (wstring * wstring)) (html : wstring)
      (i j : nat) (st st1 : parser_state) :
  i < length html -> parse_step order html i st = Returns (j, st1) ->
  steps order html i st j st1.
Proof. intros Hi Hs. eapply steps_turn; [exact Hi|exact Hs|constructor]. Qed.

(** Turns that lead to the end of the input are the run of the loop. *)
Lemma steps_parse_loop (order : list (wstring * wstring)) (html : wstring)
      (i j : nat) (st st' : parser_state) :
  steps order html i st j st' ->
  forall fuel, length html - i <= fuel -> length html <= j ->
               parse_loop fuel order html i st = Returns st'.
Proof.
  induction 1 as [|i st i1 st1 j st' Hi Hs _ IH]; intros fuel Hf Hj.
  - now apply parse_loop_done.
  - destruct fuel as [|fuel]; [lia|].
    rewrite parse_loop_turn, Hs by exact Hi. cbn [bind fst snd].
    apply IH; [|exact Hj].
    apply parse_step_progress in Hs; [lia|exact Hi].
Qed.

(** A run of plain text, ended by a tag or by the end of the input, is read
    in one turn and stored as it is. *)
Lemma parse_step_text_run (order : list (wstring * wstring)) (pre text post : wstring)
      (st : parser_state) :
  iteration_order order -> text <> [] -> plain_text text -> ends_text post ->
  parse_step order (pre ++ text ++ post) (length pre) st
  = (st1 <- back_push_child st (Node TEXT [] text [] []) ;;
     Returns (length (pre ++ text), st1)).
Proof.
  intros Ho Hne Hplain [->|[r ->]].
  - rewrite app_nil_r. now apply parse_step_last_text.
  - destruct Hplain as [Hlt Hamp]. unfold parse_step. rewrite nth_length_app.
    destruct text as [|c text]; [contradiction|]. cbn [nth app].
    replace (N.eqb (to_char c) (ch "<")) with false
      by (symmetry; apply N.eqb_neq, Hlt; now left).
    unfold parse_text, find_char. rewrite find_after.
    change (c :: text ++ ch "<" :: r) with ((c :: text) ++ ch "<" :: r).
    rewrite find_at_skip.
    + unfold substr. rewrite skipn_length_app.
      replace (length pre + length (c :: text) - length pre) with (length (c :: text))
        by lia.
      rewrite firstn_length_app, decode_entities_plain;
        [|now apply iteration_order_keys_ampersand|exact Hamp].
      now rewrite length_app.
    + intros Hin. apply Hlt in Hin. now apply Hin.
Qed.

Lemma printable_nested_ind (P : ASTNode -> Prop) :
  (forall v, v <> [] -> plain_text v -> P (Node TEXT [] v [] [])) ->
  (forall n, bare_name n -> mem n skip_tags = false ->
             mem n self_closing_tags = true -> P (Node ELEMENT n [] [] [])) ->
  (forall n cs, bare_name n -> mem n skip_tags = false ->
                mem n self_closing_tags = false ->
                Forall printable cs -> Forall P cs -> separated cs ->
                P (Node ELEMENT n [] [] cs)) ->
  forall c, printable c -> P c.
Proof.
  intros Htext Hvoid Helement. fix IH 2.
  intros c [v H1 H2|n H1 H2 H3|n cs H1 H2 H3 H4 H5].
  - now apply Htext.
  - now apply Hvoid.
  - apply Helement; try assumption.
    induction H4 as [|x l Hx Hl IHl]; constructor; [now apply IH|].
    apply IHl. destruct l; [exact I|]. simpl in H5. tauto.
Qed.

Lemma to_html_element_head (c : ASTNode) :
  printable c -> type c <> TEXT -> exists r, to_html c = ch "<" :: r.
Proof.
  intros [v H1 H2|n H1 H2 H3|n cs H1 H2 H3 H4 H5] Hty.
  - now contradiction Hty.
  - cbn [to_html]. rewrite H3. eexists; reflexivity.
  - cbn [to_html]. rewrite H3. eexists; reflexivity.
Qed.

Lemma back_push_child_state (d : nat) (node t t1 : ASTNode) :
  spine_push_back d node t = Some t1 ->
  back_push_child (mk_state t (S d)) node = Returns (mk_state t1 (S d)).
Proof. intros H. unfold back_push_child. cbn [stack_size root]. now rewrite H. Qed.

Section ReadBack.

Variable order : list (wstring * wstring).
Hypothesis order_ok : iteration_order order.

Lemma forest_reads_back (cs : list ASTNode) :
  Forall printable cs -> Forall (reads_back order) cs -> separated cs ->
  forall pre post t t' d,
    ends_text post ->
    push_children d cs t = Some t' ->
    steps order (pre ++ forest_html cs ++ post) (length pre) (mk_state t (S d))
          (length (pre ++ forest_html cs)) (mk_state t' (S d)).
Proof.
  intros Hprint Hread. induction Hread as [|c cs Hc _ IH];
    intros Hsep pre post t t' d Hpost Hpush.
  - injection Hpush as <-. cbn [forest_html map concat app].
    rewrite app_nil_r. constructor.
  - apply push_children_cons in Hpush as (t1 & H1 & Hrest).
    inversion Hprint as [|c0 cs0 Hpc Hpcs]; subst.
    change (forest_html (c :: cs)) with (to_html c ++ forest_html cs).
    replace (pre ++ (to_html c ++ forest_html cs) ++ post)
      with (pre ++ to_html c ++ (forest_html cs ++ post))
      by (now rewrite <- !app_assoc).
    eapply steps_trans.
    + apply (Hc pre (forest_html cs ++ post) t t1 d); [|exact H1].
      intros Hty. destruct cs as [|b cs]; [exact Hpost|].
      destruct Hsep as [Hb _]. specialize (Hb Hty).
      inversion Hpcs as [|b0 cs1 Hpb _]; subst.
      destruct (to_html_element_head b Hpb Hb) as (r & Hr).
      right. exists (r ++ forest_html cs ++ post).
      change (forest_html (b :: cs)) with (to_html b ++ forest_html cs).
      rewrite Hr. now rewrite <- !app_assoc.
    + replace (pre ++ to_html c ++ forest_html cs ++ post)
        with ((pre ++ to_html c) ++ forest_html cs ++ post)
        by (now rewrite <- !app_assoc).
      replace (pre ++ to_html c ++ forest_html cs)
        with ((pre ++ to_html c) ++ forest_html cs)
        by (now rewrite <- !app_assoc).
      apply IH; try assumption.
      destruct cs; [exact I|]. simpl in Hsep. tauto.
Qed.

Lemma printable_reads_back (c : ASTNode) : printable c -> reads_back order c.
Proof.
  induction 1 as [v Hne Hplain|n Hbare Hskip Hvoid
                  |n cs Hbare Hskip Hvoid Hprint Hread Hsep]
                   using printable_nested_ind;
    intros pre post t t' d Hpost Hpush.
  - (* a text *)
    cbn [to_html]. apply steps_one.
    + rewrite !length_app. destruct v; [contradiction|simpl; lia].
    + rewrite parse_step_text_run by auto.
      now rewrite (back_push_child_state d _ t t' Hpush).
  - (* a void element *)
    cbn [to_html]. rewrite Hvoid. apply steps_one.
    + rewrite !length_app. cbn [length L map list_ascii_of_string]. lia.
    + replace (pre ++ (L "<" ++ n ++ L ">") ++ post)
        with (pre ++ L "<" ++ n ++ L ">" ++ post)
        by (now rewrite <- !app_assoc).
      rewrite parse_step_tag by apply Hbare.
      rewrite parse_tag_open, Hvoid by assumption.
      rewrite (back_push_child_state d _ t t' Hpush). cbn [bind].
      rewrite !length_app. cbn [length L map list_ascii_of_string].
      do 2 f_equal. lia.
  - (* an element and its children *)
    destruct (spine_push_back_any d _ (Node ELEMENT n [] [] []) t t' Hpush)
      as (t1 & Hopen).
    pose proof (push_children_fill d ELEMENT n [] [] [] cs t t1 Hopen) as Hfill.
    cbn [app] in Hfill. rewrite Hpush in Hfill.
    pose proof (spine_node_pushed d _ t t' Hpush) as Htop.
    cbn [to_html]. rewrite Hvoid.
    set (pre1 := pre ++ L "<" ++ n ++ L ">").
    set (html := pre ++ (L "<" ++ n ++ L ">" ++ concat (map to_html cs)
                           ++ L "</" ++ n ++ L ">") ++ post).
    assert (E1 : html = pre ++ L "<" ++ n ++ L ">"
                            ++ (forest_html cs ++ L "</" ++ n ++ L ">" ++ post)).
    { unfold html, forest_html. now rewrite <- !app_assoc. }
    assert (E2 : html = pre1 ++ forest_html cs ++ (L "</" ++ n ++ L ">" ++ post)).
    { unfold html, pre1, forest_html. now rewrite <- !app_assoc. }
    assert (E3 : html = (pre1 ++ forest_html cs) ++ L "</" ++ n ++ L ">" ++ post).
    { unfold html, pre1, forest_html. now rewrite <- !app_assoc. }
    assert (Hlen : length html
                   = length pre1 + length (forest_html cs) + (length n + 3)
                     + length post).
    { rewrite E2. rewrite !length_app. cbn [length L map list_ascii_of_string]. lia. }
    assert (Hpre1 : length pre1 = length pre + 1 + length n + 1).
    { unfold pre1. rewrite !length_app. cbn [length L map list_ascii_of_string]. lia. }
    apply steps_turn with (i1 := length pre1) (st1 := mk_state t1 (S (S d))).
    + lia.
    + rewrite E1, parse_step_tag by apply Hbare.
      rewrite parse_tag_open, Hvoid by assumption.
      rewrite (back_push_child_state d _ t t1 Hopen). cbn [bind].
      now rewrite Hpre1.
    + apply steps_trans with (j := length (pre1 ++ forest_html cs))
                             (st1 := mk_state t' (S (S d))).
      * rewrite E2. apply forest_reads_back; try assumption.
        right. eexists; reflexivity.
      * apply steps_one.
        -- rewrite length_app. lia.
        -- rewrite E3, parse_step_closing by apply Hbare.
           unfold back_name. cbn [stack_size root]. rewrite Htop.
           cbn [bind name]. rewrite wstring_eqb_refl.
           do 2 f_equal.
           unfold pre1, forest_html. now rewrite <- !app_assoc.
Qed.

End ReadBack.

(** X11.  The parser reads back what [to_html] writes.  For a sequence of
    printable nodes with no two texts side by side (elements with bare
    names and no attributes, nested to any depth, void elements, texts
    without ['<'] and ['&']) whose HTML has [INT_MAX] characters at most,
    the parse of that HTML succeeds, returns the root over exactly these
    nodes, and leaves only the root on the stack: every element was closed
    by its own closing tag. *)
Theorem X11_parse_reads_back_to_html :
  forall order cs,
    iteration_order order ->
    Forall printable cs -> separated cs ->
    (Z.of_nat (length (forest_html cs)) <= int_max)%Z ->
    parse_run order (forest_html cs) = Returns (mk_state (Node ROOT [] [] [] cs) 1)
    /\ ParseHTMLToAST order (to_html (Node ROOT [] [] [] cs))
       = Returns (Node ROOT [] [] [] cs).
Proof.
  intros order cs Ho Hprint Hsep _.
  assert (Hrun : parse_run order (forest_html cs)
                 = Returns (mk_state (Node ROOT [] [] [] cs) 1)).
  { unfold parse_run.
    apply steps_parse_loop with (j := length (forest_html cs)); [|lia|lia].
    pose proof (forest_reads_back order cs Hprint) as H.
    specialize (H (Forall_impl _ (printable_reads_back order Ho) Hprint) Hsep
                  [] [] (Node ROOT [] [] [] []) (Node ROOT [] [] [] cs) 0).
    cbn [app length] in H. rewrite app_nil_r in H. apply H.
    - now left.
    - apply (push_children_root [] cs). }
  split; [exact Hrun|].
  unfold ParseHTMLToAST. cbn [to_html]. fold (forest_html cs). now rewrite Hrun.
Qed.

Lemma X11_parse_reads_back_to_html_witness :
  let cs := [ Node ELEMENT (L "div") [] []
                   [ Node TEXT [] (L "a") [] [];
                     Node ELEMENT (L "br") [] [] [];
                     Node ELEMENT (L "em") [] [] [Node TEXT [] (L "b c") [] []] ];
              Node TEXT [] (L "d") [] [] ] in
  iteration_order html_entities
  /\ Forall printable cs /\ separated cs
  /\ forest_html cs = L "<div>a<br><em>b c</em></div>d"
  /\ ParseHTMLToAST html_entities (L "<div>a<br><em>b c</em></div>d")
     = Returns (Node ROOT [] [] [] cs).
Proof.
  intros cs.
  assert (Ho : iteration_order html_entities) by apply Permutation_refl.
  assert (Hbare : forall n, n <> [] -> memb (ch "/") n = false ->
                            memb (ch " ") n = false -> memb (ch ">") n = false ->
                            wstring_eqb (substr n 0 3) (L "!--") = false ->
                            bare_name n).
  { intros n H1 H2 H3 H4 H5. repeat split; try assumption.
    - destruct n as [|c n]; [contradiction|]. cbn [memb nth] in *.
      apply orb_false_iff in H2 as [H2 _]. apply N.eqb_neq in H2. congruence.
    - now apply memb_false.
    - now apply memb_false. }
  assert (Hplain : forall v, memb (ch "<") (map to_char v) = false ->
                             memb (ch "&") v = false -> plain_text v).
  { intros v H1 H2. split; [|now apply memb_false].
    intros c Hc E. apply memb_false in H1. apply H1. rewrite <- E.
    now apply in_map. }
  assert (Htext : forall v, v <> [] -> memb (ch "<") (map to_char v) = false ->
                            memb (ch "&") v = false ->
                            printable (Node TEXT [] v [] [])).
  { intros v H1 H2 H3. constructor; [exact H1|now apply Hplain]. }
  assert (Hname : forall n, n = L "div" \/ n = L "br" \/ n = L "em" -> bare_name n).
  { intros n [-> | [-> | ->]]; apply Hbare; try reflexivity; discriminate. }
  assert (Hprint : Forall printable cs).
  { apply Forall_cons; [|apply Forall_cons; [|apply Forall_nil]].
    - apply printable_element; [apply Hname; tauto|reflexivity|reflexivity| |].
      + apply Forall_cons; [|apply Forall_cons; [|apply Forall_cons; [|apply Forall_nil]]].
        * apply Htext; [discriminate|reflexivity|reflexivity].
        * apply printable_void; [apply Hname; tauto|reflexivity|reflexivity].
        * apply printable_element; [apply Hname; tauto|reflexivity|reflexivity| |].
          -- apply Forall_cons; [|apply Forall_nil].
             apply Htext; [discriminate|reflexivity|reflexivity].
          -- exact I.
      + simpl. repeat split; discriminate.
    - apply Htext; [discriminate|reflexivity|reflexivity]. }
  assert (Hsep : separated cs) by (simpl; repeat split; discriminate).
  split; [exact Ho|]. split; [exact Hprint|]. split; [exact Hsep|].
  split; [reflexivity|].
  refine (proj2 (X11_parse_reads_back_to_html html_entities cs Ho Hprint Hsep _)).
  apply Z.leb_le. reflexivity.
Defined.

(** ** The loops over the entities *)

(** X12.  The loop of one entity is one scan from left to right: every
    occurrence of its spelling that does not overlap an earlier one is
    replaced, and what was written is not read again by that loop.  The
    whole decoding is these scans in turn, each over the result of the one
    before. *)
Theorem X12_entity_loop_is_one_scan :
  forall order text,
    iteration_order order ->
    (forall entity,
        In entity order ->
        replace_entity (length text) entity text 0
        = Returns (single_pass [entity] 0 text))
    /\ decode_entities order text = Returns (scan_each order text).
Proof.
  intros order text Ho. split.
  - intros entity Hin.
    rewrite replace_entity_scan; [reflexivity| |lia].
    apply table_key_nonempty. now apply (iteration_order_In order Ho).
  - apply decode_entities_scan_each. now apply iteration_order_keys_nonempty.
Qed.

Lemma X12_entity_loop_is_one_scan_witness :
  iteration_order html_entities
  /\ In amp_entity html_entities
  /\ replace_entity 15 amp_entity (L "&amp;amp; &amp;") 0 = Returns (L "&amp; &").
Proof.
  assert (Ho : iteration_order html_entities) by apply Permutation_refl.
  assert (Hin : In amp_entity html_entities) by (right; right; left; reflexivity).
  split; [exact Ho|]. split; [exact Hin|].
  exact (proj1 (X12_entity_loop_is_one_scan html_entities (L "&amp;amp; &amp;") Ho)
               amp_entity Hin).
Defined.

Lemma scan_alone (entity x : wstring * wstring) :
  In entity html_entities -> In x html_entities ->
  single_pass [x] 0 (snd entity) = snd entity
  /\ single_pass [entity] 0 (fst entity) = snd entity
  /\ (x <> entity -> single_pass [x] 0 (fst entity) = fst entity).
Proof.
  intros He Hx.
  repeat (destruct He as [<-|He];
          [repeat (destruct Hx as [<-|Hx];
                   [split; [reflexivity|split; [reflexivity|]];
                    first [reflexivity|intros H; now contradiction H]|]);
           contradiction|]).
  contradiction.
Qed.

(** X13.  Whatever the iteration order, a text without ampersand is stored
    as it is, and the spelling of an entity, standing alone, decodes to its
    character. *)
Theorem X13_decoding_that_no_order_changes :
  forall order,
    iteration_order order ->
    (forall text, ~ In (ch "&") text -> decode_entities order text = Returns text)
    /\ (forall entity,
           In entity html_entities ->
           decode_entities order (fst entity) = Returns (snd entity)).
Proof.
  intros order Ho. split.
  - intros text Ht. apply decode_entities_plain; [|exact Ht].
    now apply iteration_order_keys_ampersand.
  - intros entity He.
    rewrite decode_entities_scan_each by now apply iteration_order_keys_nonempty.
    f_equal.
    assert (Hin : In entity order) by (eapply Permutation_in; eassumption).
    apply in_split in Hin as (l1 & l2 & Hl).
    pose proof (iteration_order_NoDup order Ho) as Hnd. rewrite Hl in Hnd.
    apply NoDup_remove_2 in Hnd.
    assert (Htable : forall x, In x l1 \/ In x l2 -> In x html_entities /\ x <> entity).
    { intros x Hx. split.
      - apply (iteration_order_In order Ho). rewrite Hl, in_app_iff. simpl. tauto.
      - intros ->. apply Hnd. rewrite in_app_iff. tauto. }
    rewrite Hl, scan_each_app, scan_each_cons.
    rewrite (scan_each_fixed l1).
    + destruct (scan_alone entity entity He He) as (_ & -> & _).
      apply scan_each_fixed. intros x Hx.
      destruct (Htable x (or_intror Hx)) as [Hxt _].
      now destruct (scan_alone entity x He Hxt) as (H & _).
    + intros x Hx. destruct (Htable x (or_introl Hx)) as [Hxt Hne].
      destruct (scan_alone entity x He Hxt) as (_ & _ & H). now apply H.
Qed.

Lemma X13_decoding_that_no_order_changes_witness :
  iteration_order (rev html_entities)
  /\ In lt_entity html_entities
  /\ decode_entities (rev html_entities) (L "&lt;") = Returns (L "<").
Proof.
  assert (Ho : iteration_order (rev html_entities)) by apply Permutation_rev.
  assert (Hin : In lt_entity html_entities)
    by (right; right; right; left; reflexivity).
  split; [exact Ho|]. split; [exact Hin|].
  exact (proj2 (X13_decoding_that_no_order_changes (rev html_entities) Ho)
               lt_entity Hin).
Defined.

(** ** The renderer *)

Lemma render_child_hidden (rec : ASTNode -> outcome wstring)
      (node_name list_prefix : wstring) (st : render_state) (child : ASTNode) :
  type child = ELEMENT -> is_hidden child = true ->
  render_child rec node_name list_prefix st child = Returns st.
Proof.
  intros Hty Hh. unfold render_child. rewrite Hty.
  unfold render_element. now rewrite Hh.
Qed.

Lemma render_children_hidden (rec : ASTNode -> outcome wstring)
      (node_name list_prefix : wstring) (before after : list ASTNode)
      (hidden : ASTNode) (st : render_state) :
  type hidden = ELEMENT -> is_hidden hidden = true ->
  render_children rec node_name list_prefix (before ++ hidden :: after) st
  = render_children rec node_name list_prefix (before ++ after) st.
Proof.
  intros Hty Hh. revert st; induction before as [|c before IH]; intros st;
    cbn [app render_children].
  - now rewrite render_child_hidden.
  - destruct (render_child rec node_name list_prefix st c); cbn [bind]; auto.
Qed.

Lemma render_cells_cells (rec : ASTNode -> outcome wstring)
      (cells : list ASTNode) (rs : list wstring) :
  table_cells rec cells rs ->
  forall row_text,
    render_cells rec cells row_text
    = Returns (row_text ++ concat (map (fun r => L "|" ++ r) rs)).
Proof.
  induction 1 as [|cell r cells rs (Hcell & Hrec) _ IH]; intros row_text;
    cbn [render_cells map concat].
  - now rewrite app_nil_r.
  - rewrite Hcell, Hrec. cbn [bind]. rewrite IH. now rewrite <- !app_assoc.
Qed.

(** X14.  [class] is looked at by the main loop of [AstToMarkdown] only.
    There an element child whose [class] is exactly [hidden] is passed
    over: the text is the one of the node without that child, whatever the
    child is, also where rendering it would have thrown.  The loops that
    render a table do not look at [class]: a row directly under [table] is
    printed with its cells whether or not the row or a cell is hidden. *)
Theorem X14_hidden_tested_by_main_loop_only :
  (forall ty n v a before hidden after list_level,
      type hidden = ELEMENT ->
      map_find (attributes hidden) (L "class") = Some (L "hidden") ->
      AstToMarkdown (Node ty n v a (before ++ hidden :: after)) list_level
      = AstToMarkdown (Node ty n v a (before ++ after)) list_level)
  /\ (forall rec node_name list_prefix st table row rs,
         type table = ELEMENT -> is_hidden table = false ->
         name table = L "table" -> children table = [row] ->
         name row = L "tr" -> table_cells rec (children row) rs ->
         render_child rec node_name list_prefix st table
         = Returns (append st (row_line rs))).
Proof.
  split.
  - intros ty n v a before hidden after list_level Hty Hclass.
    rewrite !AstToMarkdown_eq. cbn [name children].
    apply render_children_hidden; [exact Hty|].
    unfold is_hidden. rewrite Hclass. apply wstring_eqb_refl.
  - intros rec node_name list_prefix st table row rs Hty Hhid Hname Hrow Htr Hcells.
    unfold render_child. rewrite Hty. unfold render_element.
    rewrite Hhid, Hname, Hrow. cbv zeta.
    change (basic_find basic_markdown_tags (L "table"))
      with (@None (wstring * wstring)).
    change (wstring_eqb (L "table") (L "a")) with false.
    change (wstring_eqb (L "table") (L "li")) with false.
    change (wstring_eqb (L "table") (L "ol")) with false.
    change (wstring_eqb (L "table") (L "ul")) with false.
    change (wstring_eqb (L "table") (L "img")) with false.
    change (wstring_eqb (L "table") (L "code")) with false.
    change (wstring_eqb (substr (L "table") 0 1) (L "h")) with false.
    change (wstring_eqb (L "table") (L "input")) with false.
    change (wstring_eqb (L "table") (L "label")) with false.
    change (wstring_eqb (L "table") (L "table")) with true.
    cbn [orb andb]. cbv iota.
    cbn [render_table]. cbv zeta. rewrite Htr.
    change (wstring_eqb (L "tr") (L "tr")) with true. cbv iota.
    rewrite (render_cells_cells rec (children row) rs Hcells).
    cbn [bind header_row separator_row body_rows footer_rows caption_text app].
    unfold row_line. now rewrite app_nil_r.
Qed.

Lemma X14_hidden_tested_by_main_loop_only_witness :
  AstToMarkdown
    (Node ROOT [] [] []
          ([Node TEXT [] (L "a") [] []]
             ++ Node ELEMENT (L "img") [] [(L "class", L "hidden")] []
             :: [Node TEXT [] (L "b") [] []])) 0
  = AstToMarkdown
      (Node ROOT [] [] []
            ([Node TEXT [] (L "a") [] []] ++ [Node TEXT [] (L "b") [] []])) 0
  /\ render_child
       (fun child => AstToMarkdown child 0) [] [] (mk_render [] [1%Z] 0)
       (Node ELEMENT (L "table") [] []
             [Node ELEMENT (L "tr") [] [(L "class", L "hidden")]
                   [Node ELEMENT (L "td") [] [(L "class", L "hidden")]
                         [Node TEXT [] (L "secret") [] []]]])
     = Returns (mk_render (L "|secret|" ++ nl) [1%Z] 0).
Proof.
  destruct X14_hidden_tested_by_main_loop_only as [Hmain Htable]. split.
  - apply (Hmain ROOT [] [] []
             [Node TEXT [] (L "a") [] []]
             (Node ELEMENT (L "img") [] [(L "class", L "hidden")] [])
             [Node TEXT [] (L "b") [] []] 0); reflexivity.
  - refine (Htable (fun child => AstToMarkdown child 0) [] [] (mk_render [] [1%Z] 0)
                   (Node ELEMENT (L "table") [] []
                         [Node ELEMENT (L "tr") [] [(L "class", L "hidden")]
                               [Node ELEMENT (L "td") [] [(L "class", L "hidden")]
                                     [Node TEXT [] (L "secret") [] []]]])
                   (Node ELEMENT (L "tr") [] [(L "class", L "hidden")]
                         [Node ELEMENT (L "td") [] [(L "class", L "hidden")]
                               [Node TEXT [] (L "secret") [] []]])
                   [L "secret"] _ _ _ _ _ _);
      try reflexivity.
    repeat constructor.
Defined.






Lemma is_digit_spec (d : wchar) :
  is_digit d = true <-> (48 <= d <= 57)%N.
Proof.
  unfold is_digit. rewrite andb_true_iff, !N.leb_le. tauto.
Qed.

(** [std::stoi] of one character. *)
Lemma stoi_one (d : wchar) :
  stoi [d] = if is_digit d then Returns (Z.of_N (d - 48)) else Throws invalid_argument.
Proof.
  destruct (is_digit d) eqn:Ed.
  - pose proof (proj1 (is_digit_spec d) Ed) as Hd.
    assert (Hcases : (d = 48 \/ d = 49 \/ d = 50 \/ d = 51 \/ d = 52 \/ d = 53
                      \/ d = 54 \/ d = 55 \/ d = 56 \/ d = 57)%N) by lia.
    repeat (destruct Hcases as [->|Hcases]; [reflexivity|]).
    subst d. reflexivity.
  - unfold stoi. cbn [skip_space].
    destruct (iswspace d) eqn:Ew; [reflexivity|].
    destruct (N.eqb d (ch "-")); [reflexivity|].
    destruct (N.eqb d (ch "+")); [reflexivity|].
    now rewrite Ed.
Qed.

(** X16.  An element named [h] and one more character, [hr] apart, is a
    header when that character is a digit, with as many [#] as the digit
    says: none for [h0], seven to nine for [h7] to [h9].  When it is not a
    digit [std::stoi] throws [std::invalid_argument]. *)
Theorem X16_header_level_is_the_digit :
  forall rec node_name list_prefix st child d,
    type child = ELEMENT -> is_hidden child = false ->
    name child = [ch "h"; d] -> d <> ch "r" ->
    render_child rec node_name list_prefix st child
    = if is_digit d
      then r <- rec child ;;
           Returns (append st (nl ++ repeat (ch "#") (N.to_nat (d - 48))
                                  ++ L " " ++ r ++ nl))
      else Throws invalid_argument.
Proof.
  intros rec node_name list_prefix st child d Hty Hhid Hname Hd.
  unfold render_child. rewrite Hty. unfold render_element.
  rewrite Hhid, Hname. cbv zeta.
  assert (Er : N.eqb d (ch "r") = false) by now apply N.eqb_neq.
  assert (Eb : basic_find basic_markdown_tags [ch "h"; d] = None).
  { literals. unfold basic_markdown_tags. literals.
    cbn [basic_find wstring_eqb N.eqb Pos.eqb andb].
    change (ch "r") with 114%N in Er. now rewrite Er. }
  rewrite Eb.
  change (wstring_eqb [ch "h"; d] (L "a")) with false.
  change (wstring_eqb [ch "h"; d] (L "li")) with false.
  change (wstring_eqb [ch "h"; d] (L "ol")) with false.
  change (wstring_eqb [ch "h"; d] (L "ul")) with false.
  change (wstring_eqb [ch "h"; d] (L "img")) with false.
  change (wstring_eqb [ch "h"; d] (L "code")) with false.
  change (wstring_eqb (substr [ch "h"; d] 0 1) (L "h")) with true.
  change (length [ch "h"; d] =? 2) with true.
  change (substr [ch "h"; d] 1 1) with [d].
  cbn [orb andb]. rewrite stoi_one.
  destruct (is_digit d); [|reflexivity].
  cbn [bind]. now rewrite <- N_nat_Z, Nat2Z.id.
Qed.

Lemma X16_header_level_is_the_digit_witness :
  render_child (fun _ => Returns (L "t")) [] [] (mk_render [] [1%Z] 0)
               (Node ELEMENT (L "h7") [] [] [])
  = Returns (mk_render (nl ++ L "####### t" ++ nl) [1%Z] 0)
  /\ render_child (fun _ => Returns (L "t")) [] [] (mk_render [] [1%Z] 0)
                  (Node ELEMENT (L "hx") [] [] [])
     = Throws invalid_argument.
Proof.
  split.
  - apply (X16_header_level_is_the_digit (fun _ => Returns (L "t")) [] []
             (mk_render [] [1%Z] 0) (Node ELEMENT (L "h7") [] [] []) (ch "7"));
      [reflexivity|reflexivity|reflexivity|vm_compute; discriminate].
  - apply (X16_header_level_is_the_digit (fun _ => Returns (L "t")) [] []
             (mk_render [] [1%Z] 0) (Node ELEMENT (L "hx") [] [] []) (ch "x"));
      [reflexivity|reflexivity|reflexivity|vm_compute; discriminate].
Defined.

Lemma render_section_cells_cells (rec : ASTNode -> outcome wstring)
      (in_thead : bool) (cells : list ASTNode) (rs : list wstring) :
  table_cells rec cells rs ->
  forall row_text separator,
    render_section_cells rec in_thead cells row_text separator
    = Returns (row_text ++ concat (map (fun r => L "|" ++ r) rs),
               if in_thead
               then separator ++ concat (repeat (L "|---") (length rs))
               else separator).
Proof.
  induction 1 as [|cell r cells rs (Hcell & Hrec) _ IH]; intros row_text separator;
    cbn [render_section_cells map concat length repeat].
  - rewrite !app_nil_r. now destruct in_thead.
  - rewrite Hcell, Hrec. cbn [bind]. rewrite IH.
    destruct in_thead; now rewrite <- !app_assoc.
Qed.

Lemma render_section_one_row (rec : ASTNode -> outcome wstring)
      (in_thead : bool) (row : ASTNode) (rs : list wstring) (t : table_rows) :
  name row = L "tr" -> table_cells rec (children row) rs ->
  render_section_rows rec in_thead [row] t
  = Returns (if in_thead
             then mk_table (header_row t ++ row_line rs)
                           (separator_row t ++ separator_line (length rs))
                           (body_rows t) (footer_rows t) (caption_text t)
             else mk_table (header_row t) (separator_row t)
                           (body_rows t ++ row_line rs)
                           (footer_rows t) (caption_text t)).
Proof.
  intros Hname Hcells. cbn [render_section_rows]. rewrite Hname.
  change (wstring_eqb (L "tr") (L "tr")) with true. cbv iota.
  rewrite (render_section_cells_cells rec in_thead _ rs Hcells).
  cbn [bind fst snd app]. unfold row_line, separator_line.
  destruct in_thead; now rewrite <- ?app_assoc.
Qed.

(** X17.  A table made of a head of one row and a body of one row renders
    as three lines, the head, the separator, the body, in that order also
    when the body comes first in the document; the separator has one
    [|---] for each cell of the head; every cell has a bar in front, and
    every line a bar at its end. *)
Theorem X17_table_head_separator_body :
  forall rec node_name list_prefix st table head body hcells hrs bcells brs,
    type table = ELEMENT -> is_hidden table = false -> name table = L "table" ->
    one_row_section (L "thead") head hcells ->
    one_row_section (L "tbody") body bcells ->
    table_cells rec hcells hrs -> table_cells rec bcells brs ->
    children table = [head; body] \/ children table = [body; head] ->
    render_child rec node_name list_prefix st table
    = Returns (append st (row_line hrs ++ separator_line (length hrs)
                                   ++ row_line brs)).
Proof.
  intros rec node_name list_prefix st table head body hcells hrs bcells brs
         Hty Hhid Hname (Hh & hrow & Hhc & Hhr & Hhcells)
         (Hb & brow & Hbc & Hbr & Hbcells) Hhrs Hbrs Hchildren.
  unfold render_child. rewrite Hty. unfold render_element.
  rewrite Hhid, Hname. cbv zeta.
  change (basic_find basic_markdown_tags (L "table"))
    with (@None (wstring * wstring)).
  change (wstring_eqb (L "table") (L "a")) with false.
  change (wstring_eqb (L "table") (L "li")) with false.
  change (wstring_eqb (L "table") (L "ol")) with false.
  change (wstring_eqb (L "table") (L "ul")) with false.
  change (wstring_eqb (L "table") (L "img")) with false.
  change (wstring_eqb (L "table") (L "code")) with false.
  change (wstring_eqb (substr (L "table") 0 1) (L "h")) with false.
  change (wstring_eqb (L "table") (L "input")) with false.
  change (wstring_eqb (L "table") (L "label")) with false.
  change (wstring_eqb (L "table") (L "table")) with true.
  cbn [orb andb]. cbv iota.
  rewrite <- Hhcells in Hhrs. rewrite <- Hbcells in Hbrs.
  assert (Ehead : forall rest t,
             render_table rec (head :: rest) t
             = (t1 <- render_section_rows rec true (children head) t ;;
                render_table rec rest t1)).
  { intros rest t. cbn [render_table]. cbv zeta. rewrite Hh.
    change (wstring_eqb (L "thead") (L "tr")) with false.
    change (wstring_eqb (L "thead") (L "thead")) with true.
    reflexivity. }
  assert (Ebody : forall rest t,
             render_table rec (body :: rest) t
             = (t1 <- render_section_rows rec false (children body) t ;;
                render_table rec rest t1)).
  { intros rest t. cbn [render_table]. cbv zeta. rewrite Hb.
    change (wstring_eqb (L "tbody") (L "tr")) with false.
    change (wstring_eqb (L "tbody") (L "thead")) with false.
    change (wstring_eqb (L "tbody") (L "tbody")) with true.
    reflexivity. }
  destruct Hchildren as [-> | ->].
  - rewrite Ehead, Hhc, (render_section_one_row rec true hrow hrs _ Hhr Hhrs).
    cbn [bind]. rewrite Ebody, Hbc.
    rewrite (render_section_one_row rec false brow brs _ Hbr Hbrs).
    cbn [bind render_table header_row separator_row body_rows footer_rows
         caption_text app].
    now rewrite app_nil_r.
  - rewrite Ebody, Hbc, (render_section_one_row rec false brow brs _ Hbr Hbrs).
    cbn [bind]. rewrite Ehead, Hhc.
    rewrite (render_section_one_row rec true hrow hrs _ Hhr Hhrs).
    cbn [bind render_table header_row separator_row body_rows footer_rows
         caption_text app].
    now rewrite app_nil_r.
Qed.

Lemma X17_table_head_separator_body_witness :
  render_child
    (fun child => AstToMarkdown child 0) [] [] (mk_render [] [1%Z] 0)
    (Node ELEMENT (L "table") [] []
       [Node ELEMENT (L "tbody") [] []
          [Node ELEMENT (L "tr") [] []
             [Node ELEMENT (L "td") [] [] [Node TEXT [] (L "1") [] []];
              Node ELEMENT (L "td") [] [] [Node TEXT [] (L "2") [] []]]];
        Node ELEMENT (L "thead") [] []
          [Node ELEMENT (L "tr") [] []
             [Node ELEMENT (L "th") [] [] [Node TEXT [] (L "a") [] []];
              Node ELEMENT (L "th") [] [] [Node TEXT [] (L "b") [] []]]]])
  = Returns (mk_render (L "|a|b|" ++ nl ++ L "|---|---|" ++ nl ++ L "|1|2|" ++ nl)
                       [1%Z] 0).
Proof.
  pose (hcells := [Node ELEMENT (L "th") [] [] [Node TEXT [] (L "a") [] []];
                   Node ELEMENT (L "th") [] [] [Node TEXT [] (L "b") [] []]]).
  pose (bcells := [Node ELEMENT (L "td") [] [] [Node TEXT [] (L "1") [] []];
                   Node ELEMENT (L "td") [] [] [Node TEXT [] (L "2") [] []]]).
  pose (head := Node ELEMENT (L "thead") [] [] [Node ELEMENT (L "tr") [] [] hcells]).
  pose (body := Node ELEMENT (L "tbody") [] [] [Node ELEMENT (L "tr") [] [] bcells]).
  refine (X17_table_head_separator_body
            (fun child => AstToMarkdown child 0) [] [] (mk_render [] [1%Z] 0)
            (Node ELEMENT (L "table") [] [] [body; head]) head body
            hcells [L "a"; L "b"] bcells [L "1"; L "2"] _ _ _ _ _ _ _ _).
  - reflexivity.
  - reflexivity.
  - reflexivity.
  - split; [reflexivity|].
    exists (Node ELEMENT (L "tr") [] [] hcells). repeat split.
  - split; [reflexivity|].
    exists (Node ELEMENT (L "tr") [] [] bcells). repeat split.
  - repeat constructor.
  - repeat constructor.
  - right. reflexivity.
Defined.

(** ** The driver *)

Lemma tags_start_with_lt :
  Forall (fun tag => exists k, tag = ch "<" :: k) tags.
Proof. repeat constructor; eexists; reflexivity. Qed.

Lemma convert_loop_absent (order : list (wstring * wstring)) (ts : list wstring)
      (html : wstring) :
  (forall tag, In tag ts -> find html tag 0 = None) ->
  convert_loop order ts html = Returns html.
Proof.
  induction ts as [|tag rest IH]; intros H; cbn [convert_loop]; [reflexivity|].
  rewrite (H tag) by now left. apply IH. intros t Ht. apply H. now right.
Qed.

Lemma convert_loop_present (order : list (wstring * wstring)) (ts : list wstring)
      (html : wstring) :
  (exists tag, In tag ts /\ find html tag 0 <> None) ->
  convert_loop order ts html = try_convert order html.
Proof.
  induction ts as [|tag rest IH]; intros (t & Ht & Hf); cbn [convert_loop].
  - contradiction.
  - destruct (find html tag 0) eqn:E; [reflexivity|].
    apply IH. exists t. split; [|exact Hf].
    destruct Ht as [<-|Ht]; [contradiction|exact Ht].
Qed.

(** X18.  An input in which none of the openers of the driver's list
    occurs is returned as it is; so is, in particular, every input without
    [<], whatever entities it holds: they are not decoded. *)
Theorem X18_input_without_listed_tag_unchanged :
  forall order html,
    (~ In (ch "<") html \/ forall tag, In tag tags -> find html tag 0 = None) ->
    ConvertHTMLToMarkdown order html = Returns html.
Proof.
  intros order html H. apply convert_loop_absent.
  destruct H as [H|H]; [|exact H].
  intros tag Ht. pose proof tags_start_with_lt as Hall.
  rewrite Forall_forall in Hall. destruct (Hall tag Ht) as [k ->].
  now apply find_absent.
Qed.

Lemma X18_input_without_listed_tag_unchanged_witness :
  ConvertHTMLToMarkdown html_entities (L "fish &amp; chips")
  = Returns (L "fish &amp; chips").
Proof.
  apply (X18_input_without_listed_tag_unchanged html_entities (L "fish &amp; chips")).
  left. apply memb_false. reflexivity.
Defined.

(** X19.  For an input of [INT_MAX] characters at most, what the driver
    returns is the input itself or the whole text that the renderer gives
    for the tree of the whole input, and the latter only when an opener of
    the list occurs in the input: no part of a result is ever returned. *)
Theorem X19_result_is_input_or_full_rendering :
  forall order html s,
    (Z.of_nat (length html) <= int_max)%Z ->
    ConvertHTMLToMarkdown order html = Returns s ->
    s = html
    \/ ((exists tag, In tag tags /\ find html tag 0 <> None)
        /\ exists ast, ParseHTMLToAST order html = Returns ast
                       /\ AstToMarkdown ast 0 = Returns s).
Proof.
  intros order html s _. unfold ConvertHTMLToMarkdown.
  assert (Hgate : (forall tag, In tag tags -> find html tag 0 = None)
                  \/ exists tag, In tag tags /\ find html tag 0 <> None).
  { induction tags as [|tag rest IH].
    - left. intros tag [].
    - destruct (find html tag 0) eqn:E.
      + right. exists tag. split; [now left|]. rewrite E. discriminate.
      + destruct IH as [IH|(t & Ht & Hf)].
        * left. intros t [<-|Ht]; auto.
        * right. exists t. split; [now right|exact Hf]. }
  destruct Hgate as [Hnone|Hsome].
  - rewrite convert_loop_absent by exact Hnone. intros [= <-]. now left.
  - rewrite convert_loop_present by exact Hsome. unfold try_convert.
    destruct (ParseHTMLToAST order html) as [ast|e| |] eqn:Ep; cbn [bind].
    + destruct (AstToMarkdown ast 0) as [r|e| |] eqn:Er; try discriminate.
      * intros [= <-]. right. split; [exact Hsome|]. now exists ast.
      * intros [= <-]. now left.
    + intros [= <-]. now left.
    + discriminate.
    + discriminate.
Qed.

Lemma X19_result_is_input_or_full_rendering_witness :
  L "**x**" = L "<span><strong>x</strong></span>"
  \/ ((exists tag, In tag tags
                   /\ find (L "<span><strong>x</strong></span>") tag 0 <> None)
      /\ exists ast,
          ParseHTMLToAST html_entities (L "<span><strong>x</strong></span>")
          = Returns ast
          /\ AstToMarkdown ast 0 = Returns (L "**x**")).
Proof.
  apply (X19_result_is_input_or_full_rendering html_entities
           (L "<span><strong>x</strong></span>") (L "**x**")).
  - apply Z.leb_le. reflexivity.
  - reflexivity.
Defined.

(** ** Runs without undefined behaviour *)

(** *** The parser *)








Lemma children_at_most_child (k : nat) (t c : ASTNode) :
  children_at_most k t -> In c (children t) -> children_at_most k c.
Proof. intros H Hc n Hn. apply H. eapply subnode_below; eassumption. Qed.











(** *** The renderer *)

Lemma bind_defined (A B : Type) (m : outcome A) (k : A -> outcome B) :
  m <> Undefined -> (forall a, k a <> Undefined) -> bind m k <> Undefined.
Proof. destruct m; simpl; intros; auto; discriminate. Qed.

Section RenderDefined.

Variable rec : ASTNode -> outcome wstring.

Lemma defined_below_cons (c : ASTNode) (l : list ASTNode) :
  defined_below rec (c :: l) ->
  rec c <> Undefined /\ defined_below rec (children c) /\ defined_below rec l.
Proof.
  intros H. split; [|split].
  - apply (H c c); [now left|constructor].
  - intros x n Hx Hn. apply (H c n); [now left|].
    eapply subnode_below; eassumption.
  - intros x n Hx Hn. apply (H x n); [now right|exact Hn].
Qed.

Ltac defined_step :=
  match goal with
  | |- Returns _ <> Undefined => discriminate
  | |- OutOfFuel <> Undefined => discriminate
  | |- Throws _ <> Undefined => discriminate
  | |- bind _ _ <> Undefined => apply bind_defined; [|intros ?]
  | |- (let '(_, _) := ?p in _) <> Undefined => destruct p
  | |- (if ?b then _ else _) <> Undefined => destruct b
  | |- match ?m with _ => _ end <> Undefined => destruct m
  end.

Lemma render_cells_defined (cells : list ASTNode) (row_text : wstring) :
  defined_below rec cells -> render_cells rec cells row_text <> Undefined.
Proof.
  revert row_text; induction cells as [|cell rest IH]; intros row_text H;
    cbn [render_cells]; [discriminate|].
  apply defined_below_cons in H as (H1 & _ & H3).
  repeat defined_step; auto.
Qed.

Lemma render_section_cells_defined (in_thead : bool) (cells : list ASTNode)
      (row_text separator : wstring) :
  defined_below rec cells ->
  render_section_cells rec in_thead cells row_text separator <> Undefined.
Proof.
  revert row_text separator; induction cells as [|cell rest IH];
    intros row_text separator H; cbn [render_section_cells]; [discriminate|].
  apply defined_below_cons in H as (H1 & _ & H3).
  destruct (is_cell cell); [|now apply IH].
  apply bind_defined; [exact H1|]. intros r. now apply IH.
Qed.

Lemma render_section_rows_defined (in_thead : bool) (rows : list ASTNode)
      (t : table_rows) :
  defined_below rec rows -> render_section_rows rec in_thead rows t <> Undefined.
Proof.
  revert t; induction rows as [|row rest IH]; intros t H;
    cbn [render_section_rows]; [discriminate|].
  apply defined_below_cons in H as (_ & H2 & H3).
  destruct (wstring_eqb (name row) (L "tr")); [|now apply IH].
  apply bind_defined; [now apply render_section_cells_defined|].
  intros r. now apply IH.
Qed.

Lemma render_footer_rows_defined (rows : list ASTNode) (t : table_rows) :
  defined_below rec rows -> render_footer_rows rec rows t <> Undefined.
Proof.
  revert t; induction rows as [|row rest IH]; intros t H;
    cbn [render_footer_rows]; [discriminate|].
  apply defined_below_cons in H as (_ & H2 & H3).
  destruct (wstring_eqb (name row) (L "tr")); [|now apply IH].
  apply bind_defined; [now apply render_cells_defined|].
  intros r. now apply IH.
Qed.

Lemma render_table_defined (table_children : list ASTNode) (t : table_rows) :
  defined_below rec table_children ->
  render_table rec table_children t <> Undefined.
Proof.
  revert t; induction table_children as [|table_child rest IH]; intros t H;
    cbn [render_table]; [discriminate|].
  apply defined_below_cons in H as (H1 & H2 & H3). cbv zeta.
  destruct (wstring_eqb (name table_child) (L "tr")).
  { apply bind_defined; [now apply render_cells_defined|]. intros r. now apply IH. }
  destruct (_ || _).
  { apply bind_defined; [now apply render_section_rows_defined|].
    intros r. now apply IH. }
  destruct (wstring_eqb (name table_child) (L "tfoot")).
  { apply bind_defined; [now apply render_footer_rows_defined|].
    intros r. now apply IH. }
  destruct (wstring_eqb (name table_child) (L "caption")).
  { apply bind_defined; [exact H1|]. intros r. now apply IH. }
  now apply IH.
Qed.

Lemma map_at_defined (m : attribute_map) (k : wstring) : map_at m k <> Undefined.
Proof. unfold map_at. destruct (map_find m k); discriminate. Qed.

Lemma stoi_defined (s : wstring) : stoi s <> Undefined.
Proof. unfold stoi. repeat defined_step. Qed.

(** [counters.back()++] and [list_level++] are the two places where the
    renderer can leave the defined behaviour on its own: the first on an
    empty vector or at [INT_MAX], the second at [INT_MAX]. *)
Lemma render_element_defined (node_name list_prefix : wstring) (st : render_state)
      (child : ASTNode) (front : list Z) (c : Z) :
  counters st = front ++ [c] -> (c < int_max)%Z ->
  (Z.of_nat (list_level st) < int_max)%Z ->
  rec child <> Undefined -> defined_below rec (children child) ->
  render_element rec node_name list_prefix st child <> Undefined.
Proof.
  intros Hcounters Hc Hl H1 H2. unfold render_element. cbv zeta.
  rewrite Hcounters, unsnoc_snoc. cbv beta iota.
  replace (Z.eqb c int_max) with false by (symmetry; apply Z.eqb_neq; lia).
  replace (Z.eqb (Z.of_nat (list_level st)) int_max) with false
    by (symmetry; apply Z.eqb_neq; lia).
  repeat first
         [ exact H1
         | apply map_at_defined
         | apply stoi_defined
         | apply render_table_defined; exact H2
         | defined_step ].
Qed.

(** One child moves the last counter by one at most, and leaves the other
    counters and [list_level] as they were. *)
Lemma render_child_counters (node_name list_prefix : wstring)
      (st st1 : render_state) (child : ASTNode) (front : list Z) (c : Z) :
  counters st = front ++ [c] ->
  render_child rec node_name list_prefix st child = Returns st1 ->
  list_level st1 = list_level st
  /\ exists c', counters st1 = front ++ [c'] /\ (c <= c' <= c + 1)%Z.
Proof.
  intros Hcounters. unfold render_child, render_element. cbv zeta.
  rewrite Hcounters, unsnoc_snoc. cbv beta iota.
  repeat match goal with
         | |- (if ?b then _ else _) = _ -> _ => destruct b
         | |- bind ?m _ = _ -> _ => destruct m; cbn [bind]
         | |- (let '(_, _) := ?p in _) = _ -> _ => destruct p
         | |- match ?m with _ => _ end = _ -> _ => destruct m
         end;
    try discriminate; intros [= <-];
    repeat match goal with
           | |- context [if ?b then _ else _] => destruct b
           end;
    cbn [append counters list_level]; rewrite ?removelast_last, ?Hcounters;
    (split; [reflexivity|eexists; split; [reflexivity|lia]]).
Qed.

Lemma render_children_defined (node_name list_prefix : wstring) (k : nat)
      (cs : list ASTNode) :
  (Z.of_nat k < int_max)%Z ->
  forall st front c,
    counters st = front ++ [c] ->
    (c + Z.of_nat (length cs) <= Z.of_nat k + 1)%Z ->
    (Z.of_nat (list_level st) < int_max)%Z ->
    defined_below rec cs ->
    render_children rec node_name list_prefix cs st <> Undefined.
Proof.
  intros Hk. induction cs as [|child rest IH];
    intros st front c Hcounters Hc Hl H; cbn [render_children]; [discriminate|].
  apply defined_below_cons in H as (H1 & H2 & H3). cbn [length] in Hc.
  destruct (render_child rec node_name list_prefix st child) as [st1|e| |] eqn:E;
    cbn [bind]; try discriminate.
  - destruct (render_child_counters _ _ _ _ _ front c Hcounters E)
      as (Hl1 & c' & Hc1 & Hc').
    apply (IH st1 front c' Hc1); [lia|now rewrite Hl1|exact H3].
  - exfalso. revert E. unfold render_child. destruct (type child).
    + apply bind_defined; [exact H1|discriminate].
    + discriminate.
    + apply (render_element_defined _ _ _ _ front c);
        [exact Hcounters|lia|exact Hl| |]; assumption.
Qed.

End RenderDefined.

Lemma AstToMarkdown_defined (k : nat) (t : ASTNode) :
  (Z.of_nat k < int_max)%Z -> children_at_most k t ->
  forall n list_level,
    (Z.of_nat list_level < int_max)%Z -> subnode n t ->
    AstToMarkdown n list_level <> Undefined.
Proof.
  intros Hk. induction t as [ty nm v a cs IH] using ASTNode_nested_ind.
  intros Hwide. rewrite Forall_forall in IH.
  assert (Hbelow : defined_below (fun child => AstToMarkdown child 0) cs).
  { intros c n Hc Hn. apply (IH c Hc); [|reflexivity|exact Hn].
    now apply (children_at_most_child k (Node ty nm v a cs)). }
  intros n list_level Hl Hn. inversion Hn as [|n' c t' Hc Hn']; subst.
  - rewrite AstToMarkdown_eq. cbn [name children].
    apply (render_children_defined _ _ _ k cs Hk _ [] 1%Z);
      [reflexivity| |exact Hl|exact Hbelow].
    specialize (Hwide _ (subnode_here _)). cbn [children] in Hwide. lia.
  - cbn [children] in Hc. apply (IH c Hc); [|exact Hl|exact Hn'].
    now apply (children_at_most_child k (Node ty nm v a cs)).
Qed.

(** *** The call stack *)

Section RenderAgree.

Variables rec1 rec2 : ASTNode -> outcome wstring.

Lemma agree_cons (c : ASTNode) (l : list ASTNode) :
  (forall x n, In x (c :: l) -> subnode n x -> rec1 n = rec2 n) ->
  rec1 c = rec2 c
  /\ (forall x n, In x (children c) -> subnode n x -> rec1 n = rec2 n)
  /\ (forall x n, In x l -> subnode n x -> rec1 n = rec2 n).
Proof.
  intros H. split; [|split].
  - apply (H c c); [now left|constructor].
  - intros x n Hx Hn. apply (H c n); [now left|].
    eapply subnode_below; eassumption.
  - intros x n Hx Hn. apply (H x n); [now right|exact Hn].
Qed.

Lemma render_cells_agree (cells : list ASTNode) (row_text : wstring) :
  (forall x n, In x cells -> subnode n x -> rec1 n = rec2 n) ->
  render_cells rec1 cells row_text = render_cells rec2 cells row_text.
Proof.
  revert row_text; induction cells as [|cell rest IH]; intros row_text H;
    cbn [render_cells]; [reflexivity|].
  apply agree_cons in H as (H1 & _ & H3). rewrite H1.
  destruct (is_cell cell); [|now apply IH].
  destruct (rec2 cell); cbn [bind]; try reflexivity. now apply IH.
Qed.

Lemma render_section_cells_agree (in_thead : bool) (cells : list ASTNode)
      (row_text separator : wstring) :
  (forall x n, In x cells -> subnode n x -> rec1 n = rec2 n) ->
  render_section_cells rec1 in_thead cells row_text separator
  = render_section_cells rec2 in_thead cells row_text separator.
Proof.
  revert row_text separator; induction cells as [|cell rest IH];
    intros row_text separator H; cbn [render_section_cells]; [reflexivity|].
  apply agree_cons in H as (H1 & _ & H3). rewrite H1.
  destruct (is_cell cell); [|now apply IH].
  destruct (rec2 cell); cbn [bind]; try reflexivity. now apply IH.
Qed.

Lemma render_section_rows_agree (in_thead : bool) (rows : list ASTNode)
      (t : table_rows) :
  (forall x n, In x rows -> subnode n x -> rec1 n = rec2 n) ->
  render_section_rows rec1 in_thead rows t = render_section_rows rec2 in_thead rows t.
Proof.
  revert t; induction rows as [|row rest IH]; intros t H;
    cbn [render_section_rows]; [reflexivity|].
  apply agree_cons in H as (_ & H2 & H3).
  destruct (wstring_eqb (name row) (L "tr")); [|now apply IH].
  rewrite (render_section_cells_agree in_thead (children row) [] _ H2).
  destruct (render_section_cells rec2 in_thead (children row) [] (separator_row t));
    cbn [bind]; try reflexivity.
  now apply IH.
Qed.

Lemma render_footer_rows_agree (rows : list ASTNode) (t : table_rows) :
  (forall x n, In x rows -> subnode n x -> rec1 n = rec2 n) ->
  render_footer_rows rec1 rows t = render_footer_rows rec2 rows t.
Proof.
  revert t; induction rows as [|row rest IH]; intros t H;
    cbn [render_footer_rows]; [reflexivity|].
  apply agree_cons in H as (_ & H2 & H3).
  destruct (wstring_eqb (name row) (L "tr")); [|now apply IH].
  rewrite (render_cells_agree (children row) [] H2).
  destruct (render_cells rec2 (children row) []); cbn [bind]; try reflexivity.
  now apply IH.
Qed.

Lemma render_table_agree (table_children : list ASTNode) (t : table_rows) :
  (forall x n, In x table_children -> subnode n x -> rec1 n = rec2 n) ->
  render_table rec1 table_children t = render_table rec2 table_children t.
Proof.
  revert t; induction table_children as [|table_child rest IH]; intros t H;
    cbn [render_table]; [reflexivity|].
  apply agree_cons in H as (H1 & H2 & H3). cbv zeta.
  rewrite H1, (render_cells_agree (children table_child) [] H2).
  rewrite (render_footer_rows_agree (children table_child) t H2).
  rewrite (render_section_rows_agree _ (children table_child) t H2).
  destruct (wstring_eqb (name table_child) (L "tr")).
  { destruct (render_cells rec2 _ _); cbn [bind]; try reflexivity. now apply IH. }
  destruct (_ || _).
  { destruct (render_section_rows rec2 _ _ _); cbn [bind]; try reflexivity.
    now apply IH. }
  destruct (wstring_eqb (name table_child) (L "tfoot")).
  { destruct (render_footer_rows rec2 _ _); cbn [bind]; try reflexivity.
    now apply IH. }
  destruct (wstring_eqb (name table_child) (L "caption")).
  { destruct (rec2 table_child); cbn [bind]; try reflexivity. now apply IH. }
  now apply IH.
Qed.

Lemma render_children_agree (node_name list_prefix : wstring)
      (cs : list ASTNode) (st : render_state) :
  (forall x n, In x cs -> subnode n x -> rec1 n = rec2 n) ->
  render_children rec1 node_name list_prefix cs st
  = render_children rec2 node_name list_prefix cs st.
Proof.
  revert st; induction cs as [|child rest IH]; intros st H;
    cbn [render_children]; [reflexivity|].
  apply agree_cons in H as (H1 & H2 & H3).
  assert (E : render_child rec1 node_name list_prefix st child
              = render_child rec2 node_name list_prefix st child).
  { unfold render_child, render_element.
    now rewrite H1, (render_table_agree (children child) _ H2). }
  rewrite E. destruct (render_child rec2 node_name list_prefix st child);
    cbn [bind]; try reflexivity.
  now apply IH.
Qed.

End RenderAgree.

Lemma height_child (t c : ASTNode) : In c (children t) -> height c < height t.
Proof.
  destruct t as [ty n v a cs]. cbn [children height]. intros Hc.
  assert (H : list_max (map height cs) <= list_max (map height cs)) by lia.
  apply list_max_le in H. rewrite Forall_forall in H.
  specialize (H (height c) (in_map height cs c Hc)). lia.
Qed.

Lemma height_subnode (n t : ASTNode) : subnode n t -> height n <= height t.
Proof.
  induction 1 as [t|n c t Hc _ IH]; [lia|].
  apply height_child in Hc. lia.
Qed.

(** A tree that is no higher than the stack has room for is rendered as
    [AstToMarkdown] says. *)
Lemma AstToMarkdown_frames_eq (frames : nat) :
  forall t list_level,
    height t <= frames ->
    AstToMarkdown_frames frames t list_level = AstToMarkdown t list_level.
Proof.
  induction frames as [|frames IH]; intros t list_level Hh.
  - destruct t; cbn [height] in Hh. lia.
  - cbn [AstToMarkdown_frames]. rewrite AstToMarkdown_eq.
    apply render_children_agree. intros c n Hc Hn. apply IH.
    apply height_child in Hc. apply height_subnode in Hn. lia.
Qed.

(** X20.  On a call stack with room for the levels of the tree, and for a
    tree in which no node has [INT_MAX] children or more, rendered from a
    [list_level] below [INT_MAX], the renderer stays within the defined
    behaviour: the vector of counters is not empty where its last element
    is read, neither increment overflows, and the call returns a text or
    throws, as [AstToMarkdown] says. *)
Theorem X20_renderer_defined_within_the_stack :
  forall frames t k list_level,
    height t <= frames ->
    children_at_most k t -> (Z.of_nat k < int_max)%Z ->
    (Z.of_nat list_level < int_max)%Z ->
    AstToMarkdown_frames frames t list_level = AstToMarkdown t list_level
    /\ ((exists s, AstToMarkdown_frames frames t list_level = Returns s)
        \/ (exists e, AstToMarkdown_frames frames t list_level = Throws e)).
Proof.
  intros frames t k list_level Hh Hwide Hk Hl.
  rewrite (AstToMarkdown_frames_eq frames t list_level Hh).
  split; [reflexivity|].
  pose proof (AstToMarkdown_defined k t Hk Hwide t list_level Hl (subnode_here t))
    as Hd.
  pose proof (AstToMarkdown_fuel t t list_level (subnode_here t)) as Hf.
  destruct (AstToMarkdown t list_level) as [s|e| |].
  - left. now exists s.
  - right. now exists e.
  - now contradiction Hd.
  - now contradiction Hf.
Qed.

Lemma X20_renderer_defined_within_the_stack_witness :
  AstToMarkdown_frames
    2 (Node ELEMENT (L "ol") [] [] [Node ELEMENT (L "li") [] [] []]) 0
  = AstToMarkdown (Node ELEMENT (L "ol") [] [] [Node ELEMENT (L "li") [] [] []]) 0
  /\ ((exists s, AstToMarkdown_frames
                   2 (Node ELEMENT (L "ol") [] [] [Node ELEMENT (L "li") [] [] []]) 0
                 = Returns s)
      \/ (exists e, AstToMarkdown_frames
                      2 (Node ELEMENT (L "ol") [] [] [Node ELEMENT (L "li") [] [] []]) 0
                    = Throws e)).
Proof.
  apply (X20_renderer_defined_within_the_stack
           2 (Node ELEMENT (L "ol") [] [] [Node ELEMENT (L "li") [] [] []]) 1 0).
  - simpl. lia.
  - intros n Hn. inversion Hn as [|n1 c1 t1 Hc1 Hn1]; subst; [simpl; lia|].
    destruct Hc1 as [<-|[]].
    inversion Hn1 as [|n2 c2 t2 Hc2 Hn2]; subst; [simpl; lia|contradiction].
  - reflexivity.
  - reflexivity.
Defined.




(** ** Tags with attributes *)

Lemma mem_space (tag : wstring) :
  In (ch " ") tag -> mem tag skip_tags = false.
Proof.
  intros Hin. destruct (mem tag skip_tags) eqn:E; [|reflexivity].
  unfold mem in E. apply existsb_exists in E as (x & Hx & E).
  apply wstring_eqb_eq in E. subst x. exfalso.
  destruct Hx as [<-|[<-|[<-|[]]]]; revert Hin; apply memb_false; reflexivity.
Qed.

Lemma tag_not_comment (n rest : wstring) :
  prefixb (L "!--") n = false ->
  wstring_eqb (substr (n ++ ch " " :: rest) 0 3) (L "!--") = false.
Proof.
  unfold substr. cbn [skipn]. literals.
  destruct n as [|a [|b [|c n]]]; cbn [app firstn wstring_eqb prefixb].
  - reflexivity.
  - intros _. destruct (N.eqb a 33); reflexivity.
  - intros _. destruct (N.eqb a 33), (N.eqb b 45); reflexivity.
  - rewrite (N.eqb_sym 33 a), (N.eqb_sym 45 b), (N.eqb_sym 45 c).
    destruct (N.eqb a 33), (N.eqb b 45), (N.eqb c 45); cbn [andb];
      try reflexivity; discriminate.
Qed.

(** An opening tag with attributes. *)
Lemma parse_step_opening_attributes (order : list (wstring * wstring))
      (pre n rest post : wstring) (st : parser_state) :
  ~ In (ch ">") n -> ~ In (ch ">") rest -> ~ In (ch " ") n ->
  nth 0 n 0%N <> ch "/" -> prefixb (L "!--") n = false ->
  parse_step order (pre ++ L "<" ++ (n ++ L " " ++ rest) ++ L ">" ++ post)
             (length pre) st
  = (st1 <- back_push_child
              st (Node ELEMENT n [] (ParseAttributes (Trim rest)) []) ;;
     Returns (length (pre ++ L "<" ++ (n ++ L " " ++ rest) ++ L ">"),
              if mem n self_closing_tags then st1 else stack_push st1)).
Proof.
  intros Hgn Hgr Hspace Hslash Hcomment.
  assert (Hgt : ~ In (ch ">") (n ++ L " " ++ rest)).
  { intros H. apply in_app_or in H as [H|[H|H]]; [now apply Hgn|discriminate|].
    now apply Hgr. }
  assert (Hin : In (ch " ") (n ++ L " " ++ rest)).
  { apply in_or_app. right. now left. }
  rewrite parse_step_tag by exact Hgt.
  unfold parse_tag.
  change (n ++ L " " ++ rest) with (n ++ ch " " :: rest) in *.
  rewrite tag_not_comment by exact Hcomment.
  rewrite mem_space by exact Hin.
  replace (N.eqb (nth 0 (n ++ ch " " :: rest) 0%N) (ch "/")) with false.
  2:{ symmetry. apply N.eqb_neq. destruct n as [|a n]; [discriminate|exact Hslash]. }
  cbv iota zeta. rewrite ParseTag_split by exact Hspace. cbn [negb].
  assert (Ha : match Trim rest return attribute_map with
               | [] => @nil (wstring * wstring)
               | _ :: _ => ParseAttributes (Trim rest)
               end = ParseAttributes (Trim rest))
    by (destruct (Trim rest); reflexivity).
  rewrite Ha.
  destruct (back_push_child st _) as [st1| | |]; cbn [bind]; try reflexivity.
  rewrite !length_app. cbn [length L map list_ascii_of_string].
  do 2 f_equal. rewrite ?length_app. cbn [length]. lia.
Qed.

(** X22.  In a tag, what follows the first space is the text of the
    attributes.  An opening tag appends an element with the name before the
    space and the attributes that [ParseAttributes] reads in the trimmed
    rest, and is pushed unless the name is a void one; a raw-text name
    with attributes is an element like any other.  A closing tag closes by
    the name before the space, and the rest is dropped. *)
Theorem X22_tag_is_cut_at_first_space :
  forall order pre n rest post st,
    ~ In (ch ">") n -> ~ In (ch ">") rest -> ~ In (ch " ") n ->
    (nth 0 n 0%N <> ch "/" -> prefixb (L "!--") n = false ->
     parse_step order (pre ++ L "<" ++ (n ++ L " " ++ rest) ++ L ">" ++ post)
                (length pre) st
     = (st1 <- back_push_child
                 st (Node ELEMENT n [] (ParseAttributes (Trim rest)) []) ;;
        Returns (length (pre ++ L "<" ++ (n ++ L " " ++ rest) ++ L ">"),
                 if mem n self_closing_tags then st1 else stack_push st1)))
    /\ parse_step order (pre ++ L "</" ++ (n ++ L " " ++ rest) ++ L ">" ++ post)
                  (length pre) st
       = (top_name <- back_name st ;;
          if wstring_eqb top_name n
          then Returns (length (pre ++ L "</" ++ (n ++ L " " ++ rest) ++ L ">"),
                        stack_pop st)
          else Throws runtime_error).
Proof.
  intros order pre n rest post st Hgn Hgr Hspace.
  assert (Hgt : ~ In (ch ">") (n ++ L " " ++ rest)).
  { intros H. apply in_app_or in H as [H|[H|H]]; [now apply Hgn|discriminate|].
    now apply Hgr. }
  split.
  - intros Hslash Hcomment. now apply parse_step_opening_attributes.
  - change (L "</" ++ (n ++ L " " ++ rest) ++ L ">" ++ post)
      with (L "<" ++ (L "/" ++ n ++ L " " ++ rest) ++ L ">" ++ post).
    rewrite parse_step_tag
      by (intros [H|H]; [discriminate|now apply Hgt]).
    unfold parse_tag.
    change (wstring_eqb (substr (L "/" ++ n ++ L " " ++ rest) 0 3) (L "!--"))
      with false.
    change (mem (L "/" ++ n ++ L " " ++ rest) skip_tags) with false.
    change (N.eqb (nth 0 (L "/" ++ n ++ L " " ++ rest) 0%N) (ch "/")) with true.
    cbv iota zeta. change (substr_from (L "/" ++ n ++ L " " ++ rest) 1)
      with (n ++ ch " " :: rest).
    rewrite ParseTag_split by exact Hspace. cbn [negb].
    destruct (back_name st) as [top| | |]; cbn [bind]; try reflexivity.
    destruct (wstring_eqb top n); cbn [negb]; [|reflexivity].
    rewrite !length_app. cbn [length L map list_ascii_of_string].
    do 2 f_equal. rewrite ?length_app. cbn [length]. lia.
Qed.

Lemma X22_tag_is_cut_at_first_space_witness :
  parse_step html_entities (L "<a href=u>x") 0 initial_state
  = Returns (10, mk_state (Node ROOT [] [] []
                                [Node ELEMENT (L "a") [] [(L "href", L "u")] []]) 2)
  /\ parse_step html_entities (L "</ x>") 0 initial_state
     = Returns (5, mk_state (Node ROOT [] [] [] []) 0).
Proof.
  assert (Ha : ~ In (ch ">") (L "a")) by (apply memb_false; reflexivity).
  assert (Hr : ~ In (ch ">") (L "href=u")) by (apply memb_false; reflexivity).
  assert (Hs : ~ In (ch " ") (L "a")) by (apply memb_false; reflexivity).
  assert (He : ~ In (ch ">") (@nil wchar)) by (intros []).
  assert (Hx : ~ In (ch ">") (L "x")) by (apply memb_false; reflexivity).
  assert (Hes : ~ In (ch " ") (@nil wchar)) by (intros []).
  split.
  - refine (proj1 (X22_tag_is_cut_at_first_space
                     html_entities [] (L "a") (L "href=u") (L "x") initial_state
                     Ha Hr Hs) _ _).
    + vm_compute. discriminate.
    + reflexivity.
  - exact (proj2 (X22_tag_is_cut_at_first_space
                    html_entities [] [] (L "x") [] initial_state He Hx Hes)).
Defined.

(** ** Raw-text tags *)

Lemma skip_tag_name (tag : wstring) :
  In tag skip_tags ->
  ~ In (ch ">") tag /\ ~ In (ch " ") tag /\ nth 0 tag 0%N <> ch "/"
  /\ prefixb (L "!--") tag = false /\ mem tag self_closing_tags = false.
Proof.
  intros [<-|[<-|[<-|[]]]]; repeat split; try reflexivity;
    try (apply memb_false; reflexivity); vm_compute; discriminate.
Qed.

Lemma convert_loop_cases (order : list (wstring * wstring)) (ts : list wstring)
      (html : wstring) :
  convert_loop order ts html = Returns html
  \/ convert_loop order ts html = try_convert order html.
Proof.
  induction ts as [|tag rest IH]; cbn [convert_loop]; [now left|].
  destruct (find html tag 0); [now right|exact IH].
Qed.

(** The parser reads over the span of a raw-text tag: between two
    sequences of printable nodes it leaves nothing. *)
Lemma raw_text_span_read_over (order : list (wstring * wstring))
      (before after : list ASTNode) (tag body : wstring) :
  iteration_order order -> In tag skip_tags ->
  Forall printable before -> separated before ->
  Forall printable after -> separated after ->
  find (body ++ closing_tag tag) (closing_tag tag) 0 = Some (length body) ->
  parse_run order (forest_html before ++ L "<" ++ tag ++ L ">" ++ body
                               ++ closing_tag tag ++ forest_html after)
  = Returns (mk_state (Node ROOT [] [] [] (before ++ after)) 1).
Proof.
  intros Ho Hin Hpb Hsb Hpa Hsa Hfind.
  pose (pre := forest_html before).
  pose (span := L "<" ++ tag ++ L ">" ++ body ++ closing_tag tag).
  pose (html := forest_html before ++ L "<" ++ tag ++ L ">" ++ body
                            ++ closing_tag tag ++ forest_html after).
  assert (E2 : html = pre ++ L "<" ++ tag ++ L ">"
                          ++ (body ++ closing_tag tag ++ forest_html after))
    by reflexivity.
  assert (E3 : html = (pre ++ span) ++ forest_html after ++ []).
  { unfold html, span, pre. now rewrite app_nil_r, <- !app_assoc. }
  assert (Hspan : length (pre ++ span)
                  = length pre + length tag + 2 + length body
                    + length (closing_tag tag)).
  { unfold span. rewrite !length_app. cbn [length L map list_ascii_of_string]. lia. }
  assert (Hlen : length html = length (pre ++ span) + length (forest_html after)).
  { rewrite E3, app_nil_r, length_app. reflexivity. }
  assert (Hclosing : 1 <= length (closing_tag tag)).
  { unfold closing_tag. rewrite !length_app. cbn [length L map list_ascii_of_string].
    lia. }
  unfold parse_run. fold html.
  apply steps_parse_loop with (j := length ((pre ++ span) ++ forest_html after));
    [|lia|rewrite length_app; lia].
  apply steps_trans with (j := length pre)
                         (st1 := mk_state (Node ROOT [] [] [] before) 1).
  { apply (forest_reads_back order before Hpb
             (Forall_impl _ (printable_reads_back order Ho) Hpb) Hsb
             [] (L "<" ++ tag ++ L ">" ++ body ++ closing_tag tag ++ forest_html after)
             (Node ROOT [] [] [] []) (Node ROOT [] [] [] before) 0).
    - right. eexists; reflexivity.
    - apply (push_children_root [] before). }
  apply steps_trans with (j := length (pre ++ span))
                         (st1 := mk_state (Node ROOT [] [] [] before) 1).
  { apply steps_one; [lia|].
    rewrite E2, parse_step_skip_tag, find_closing_after_opening by exact Hin.
    replace (body ++ closing_tag tag ++ forest_html after)
      with ((body ++ closing_tag tag) ++ forest_html after)
      by (now rewrite <- app_assoc).
    rewrite find_0 in *. rewrite (find_at_app_stable _ _ _ _ _ Hfind).
    cbn [option_map]. do 2 f_equal. lia. }
  rewrite E3.
  apply (forest_reads_back order after Hpa
           (Forall_impl _ (printable_reads_back order Ho) Hpa) Hsa
           (pre ++ span) [] (Node ROOT [] [] [] before)
           (Node ROOT [] [] [] (before ++ after)) 0).
  - now left.
  - apply (push_children_root before after).
Qed.

(** C8, amended.  The parser skips a raw-text tag only when the whole text
    between ['<'] and ['>'] is [script], [style] or [title]: from such a tag
    it goes straight behind the first literal closing tag, with the tree
    and the stack as they were, and fails with [std::out_of_range] when
    that closing tag is missing.  Written with attributes, a raw-text tag
    is an ordinary element, appended with its attributes and pushed.
    Nothing of a skipped span is in the tree: between two sequences of
    printable nodes, in an input of [INT_MAX] characters at most, the parse
    is the root over these nodes, whatever body stands before the first
    closing tag, and the driver returns the text rendered from that tree
    or the input itself.  The input itself, body included, is what the
    driver returns when none of its openers occurs in the document. *)
Theorem C8_bare_raw_text_tag_skipped :
  (forall order pre tag post st k,
      In tag skip_tags ->
      find post (closing_tag tag) 0 = Some k ->
      parse_step order (pre ++ L "<" ++ tag ++ L ">" ++ post) (length pre) st
      = Returns (length (pre ++ L "<" ++ tag ++ L ">") + k + length (closing_tag tag),
                 st))
  /\ (forall order pre tag post st,
         In tag skip_tags ->
         find post (closing_tag tag) 0 = None ->
         parse_step order (pre ++ L "<" ++ tag ++ L ">" ++ post) (length pre) st
         = Throws out_of_range)
  /\ (forall order pre tag rest post st,
         In tag skip_tags -> ~ In (ch ">") rest ->
         parse_step order (pre ++ L "<" ++ (tag ++ L " " ++ rest) ++ L ">" ++ post)
                    (length pre) st
         = (st1 <- back_push_child
                     st (Node ELEMENT tag [] (ParseAttributes (Trim rest)) []) ;;
            Returns (length (pre ++ L "<" ++ (tag ++ L " " ++ rest) ++ L ">"),
                     stack_push st1)))
  /\ (forall order before after tag body,
         iteration_order order -> In tag skip_tags ->
         Forall printable before -> separated before ->
         Forall printable after -> separated after ->
         find (body ++ closing_tag tag) (closing_tag tag) 0 = Some (length body) ->
         let html := forest_html before ++ L "<" ++ tag ++ L ">" ++ body
                                 ++ closing_tag tag ++ forest_html after in
         (Z.of_nat (length html) <= int_max)%Z ->
         ParseHTMLToAST order html = Returns (Node ROOT [] [] [] (before ++ after))
         /\ (ConvertHTMLToMarkdown order html = Returns html
             \/ ConvertHTMLToMarkdown order html
                = AstToMarkdown (Node ROOT [] [] [] (before ++ after)) 0))
  /\ (forall order pre tag body post,
         In tag skip_tags ->
         let html := pre ++ L "<" ++ tag ++ L ">" ++ body ++ closing_tag tag ++ post in
         (forall opener, In opener tags -> find html opener 0 = None) ->
         ConvertHTMLToMarkdown order html = Returns html).
Proof.
  split; [|split; [|split; [|split]]].
  - intros order pre tag post st k Hin Hfind.
    rewrite parse_step_skip_tag, find_closing_after_opening, Hfind by exact Hin.
    cbn [option_map]. rewrite !length_app. cbn [length L map list_ascii_of_string].
    do 2 f_equal. lia.
  - intros order pre tag post st Hin Hfind.
    now rewrite parse_step_skip_tag, find_closing_after_opening, Hfind by exact Hin.
  - intros order pre tag rest post st Hin Hrest.
    destruct (skip_tag_name tag Hin) as (Hgt & Hspace & Hslash & Hcomment & Hvoid).
    rewrite parse_step_opening_attributes by assumption.
    now rewrite Hvoid.
  - intros order before after tag body Ho Hin Hpb Hsb Hpa Hsa Hfind html _.
    pose proof (raw_text_span_read_over order before after tag body
                  Ho Hin Hpb Hsb Hpa Hsa Hfind) as Hrun.
    fold html in Hrun.
    assert (Hparse : ParseHTMLToAST order html
                     = Returns (Node ROOT [] [] [] (before ++ after))).
    { unfold ParseHTMLToAST. now rewrite Hrun. }
    split; [exact Hparse|]. unfold ConvertHTMLToMarkdown.
    destruct (convert_loop_cases order tags html) as [E|E]; rewrite E; [now left|].
    unfold try_convert. rewrite Hparse. cbn [bind].
    destruct (AstToMarkdown (Node ROOT [] [] [] (before ++ after)) 0);
      [now right|now left|now right|now right].
  - intros order pre tag body post _ html Hnone. now apply convert_loop_absent.
Qed.

Lemma C8_bare_raw_text_tag_skipped_witness :
  let p := Node ELEMENT (L "p") [] [] [Node TEXT [] (L "a") [] []] in
  let z := Node TEXT [] (L "z") [] [] in
  In (L "style") skip_tags
  /\ find (L "p{}</style>z") (closing_tag (L "style")) 0 = Some 3
  /\ parse_step html_entities (L "a<style>p{}</style>z") 1 initial_state
     = Returns (19, initial_state)
  /\ ParseHTMLToAST html_entities (L "<p>a</p><script>if (a < b) {}</script>z")
     = Returns (Node ROOT [] [] [] [p; z])
  /\ ConvertHTMLToMarkdown html_entities (L "<script>if (a < b) {}</script>")
     = Returns (L "<script>if (a < b) {}</script>").
Proof.
  intros p z.
  destruct C8_bare_raw_text_tag_skipped as (Hskip & _ & _ & Hrun & Hgate).
  assert (Hstyle : In (L "style") skip_tags) by (right; left; reflexivity).
  assert (Hscript : In (L "script") skip_tags) by (left; reflexivity).
  assert (Hfind : find (L "p{}</style>z") (closing_tag (L "style")) 0 = Some 3)
    by reflexivity.
  split; [exact Hstyle|]. split; [exact Hfind|]. split; [|split].
  - exact (Hskip html_entities (L "a") (L "style") (L "p{}</style>z") initial_state 3
                 Hstyle Hfind).
  - assert (Hplain : forall v, memb (ch "<") (map to_char v) = false ->
                               memb (ch "&") v = false -> plain_text v).
    { intros v H1 H2. split; [|now apply memb_false].
      intros c Hc E. apply memb_false in H1. apply H1. rewrite <- E.
      now apply in_map. }
    assert (Ha : printable (Node TEXT [] (L "a") [] [])).
    { constructor; [discriminate|]. apply Hplain; reflexivity. }
    assert (Hz : printable z).
    { constructor; [discriminate|]. apply Hplain; reflexivity. }
    assert (Hname : bare_name (L "p")).
    { repeat split; try discriminate; try reflexivity;
        apply memb_false; reflexivity. }
    assert (Hp : printable p).
    { apply printable_element; [exact Hname|reflexivity|reflexivity| |exact I].
      apply Forall_cons; [exact Ha|apply Forall_nil]. }
    refine (proj1 (Hrun html_entities [p] [z] (L "script") (L "if (a < b) {}")
                        (Permutation_refl _) Hscript
                        (Forall_cons _ Hp (Forall_nil _)) I
                        (Forall_cons _ Hz (Forall_nil _)) I eq_refl _)).
    apply Z.leb_le. reflexivity.
  - apply (Hgate html_entities [] (L "script") (L "if (a < b) {}") [] Hscript).
    intros opener Hopener.
    repeat (destruct Hopener as [<-|Hopener]; [reflexivity|]). contradiction.
Defined.
